(** * Thumbnail grabber of nginx-vod-module: frame selection and the
      decode / skip / encode engine ([vod/thumb/thumb_grabber.c]).

    The development is a shallow embedding: every C function that matters
    is a Rocq function of the same name over explicit state.  Unsigned
    integers are values of [Z] with their wrap-around written out, frame
    descriptors live in a descriptor memory addressed by [nat], the linked
    list of frame parts is a list whose element [i+1] is what element [i]'s
    [next] points to, and the collaborators (byte source, codec, allocator,
    delivery callback) are scripted answers consumed in call order. *)

From Stdlib Require Import ZArith Lia.
From Stdlib.Strings Require Import Byte.
From stdpp Require Import base option list.

Local Open Scope Z_scope.

(** ** Machine integers *)

Definition uint32 (z : Z) : Z := z mod 2 ^ 32.
Definition uint64 (z : Z) : Z := z mod 2 ^ 64.
Definition ULLONG_MAX : Z := 2 ^ 64 - 1.

(** An unsigned value stored in an [int] or an [int64_t] field: the
    value of the same bits, read as signed. *)
Definition int32 (z : Z) : Z := (z + 2 ^ 31) mod 2 ^ 32 - 2 ^ 31.
Definition int64 (z : Z) : Z := (z + 2 ^ 63) mod 2 ^ 64 - 2 ^ 63.

(** ** Status codes and results *)

(** Modelled from the spec: the [vod_status_t] codes are declared in a
    header that is not part of the sources at hand; only their being
    distinct matters, so they are an enumeration.  [VOD_STATUS n] stands
    for any further code a collaborator may report. *)
Inductive vod_status_t : Type :=
| VOD_OK
| VOD_AGAIN
| VOD_BAD_DATA
| VOD_ALLOC_FAILED
| VOD_UNEXPECTED
| VOD_BAD_REQUEST
| VOD_STATUS (n : nat).

Global Instance vod_status_eq_dec : EqDecision vod_status_t.
Proof. solve_decision. Defined.

(** What running a piece of the C code can lead to: it returns, it steps
    into undefined behaviour (a NULL or out-of-bounds access), or the model
    cannot follow it further (no fuel, or no scripted answer left). *)
Inductive outcome (A : Type) : Type :=
| Returned (a : A)
| Fault
| Exhausted.
Arguments Returned {A} a.
Arguments Fault {A}.
Arguments Exhausted {A}.

(** ** Frame index *)

(** Modelled from the spec: [input_frame_t] is declared outside the sources
    at hand; the fields are the ones the spec's data model lists and the
    code reads ([size], [key_frame], [duration], [pts_delay]). *)
Record input_frame_t : Type := mk_frame {
  size : Z;
  key_frame : bool;
  duration : Z;
  pts_delay : Z }.

(** Frame pointers are addresses into a descriptor memory.  Every address
    holds some descriptor: what lies outside a part's range is whatever the
    memory has there. *)
Definition frame_mem : Type := nat → input_frame_t.

(** Modelled from the spec: [frame_list_part_t] without its [next] field,
    which is the position in the enclosing list. *)
Record frame_list_part_t : Type := mk_part {
  first_frame : nat;
  last_frame : nat;
  frames_source : nat }.

Definition set_first_frame (a : nat) (p : frame_list_part_t) : frame_list_part_t :=
  {| first_frame := a; last_frame := last_frame p; frames_source := frames_source p |}.

(** Modelled from the spec: the fields of [media_track_t] the code uses.
    [frames] is the part embedded in the track, [frames_next] the chain its
    [next] field starts. *)
Record media_track_t : Type := mk_track {
  frames : frame_list_part_t;
  frames_next : list frame_list_part_t;
  clip_start_time : Z;
  first_frame_time_offset : Z;
  codec_id : nat }.

Definition track_chain (t : media_track_t) : list frame_list_part_t :=
  frames t :: frames_next t.

Definition part_addrs (p : frame_list_part_t) : list nat :=
  seq (first_frame p) (last_frame p - first_frame p).

Definition chain_addrs (c : list frame_list_part_t) : list nat :=
  concat (part_addrs <$> c).

(** The addresses of all frames of a track, in index order. *)
Definition track_addrs (t : media_track_t) : list nat :=
  chain_addrs (track_chain t).

(** ** thumb_grabber_get_max_frame_size *)

(** [part] is the list that starts at the pointed part; [part->next] is its
    tail, and following a NULL [next] is a fault. *)
Fixpoint max_frame_size_loop (limit : nat) (fmem : frame_mem)
    (next : list frame_list_part_t) (cur_frame last_frame_ : nat)
    (max_frame_size : Z) : outcome Z :=
  match limit with
  | O => Returned max_frame_size
  | S limit' =>
    let step (next : list frame_list_part_t) (cur_frame last_frame_ : nat) :=
      let max_frame_size :=
        if max_frame_size <? size (fmem cur_frame)
        then size (fmem cur_frame) else max_frame_size in
      max_frame_size_loop limit' fmem next (S cur_frame) last_frame_ max_frame_size in
    if decide (last_frame_ ≤ cur_frame)%nat then
      match next with
      | [] => Fault
      | part :: next' => step next' (first_frame part) (last_frame part)
      end
    else step next cur_frame last_frame_
  end.

Definition thumb_grabber_get_max_frame_size (fmem : frame_mem)
    (track : media_track_t) (limit : Z) : outcome Z :=
  max_frame_size_loop (Z.to_nat limit) fmem (frames_next track)
    (first_frame (frames track)) (last_frame (frames track)) 0.

(** ** thumb_grabber_truncate_frames *)

(** The locals of the function.  Part pointers are positions in [l_chain],
    the store of parts: position 0 is [track->frames].  NULL is [None]. *)
Record truncate_locals : Type := mk_locals {
  l_chain : list frame_list_part_t;
  l_last_key_frame_part : option nat;
  l_min_part : option nat;
  l_part : nat;
  l_last_key_frame : option nat;
  l_cur_frame : nat;
  l_last_frame : nat;
  l_dts : Z;
  l_min_diff : Z;
  l_last_key_frame_index : Z;
  l_min_index : Z;
  l_index : Z }.

(** Lines 233-242: at the end of a part, stop when there is no next part,
    otherwise enter it.  [None] is the [break]. *)
Definition truncate_next_part (l : truncate_locals) : option truncate_locals :=
  if decide (l_last_frame l ≤ l_cur_frame l)%nat then
    match l_chain l !! S (l_part l) with
    | None => None
    | Some p =>
      Some (mk_locals (l_chain l) (l_last_key_frame_part l) (l_min_part l)
              (S (l_part l)) (l_last_key_frame l) (first_frame p) (last_frame p)
              (l_dts l) (l_min_diff l) (l_last_key_frame_index l)
              (l_min_index l) (l_index l))
    end
  else Some l.

(** Lines 244-250. *)
Definition truncate_update_key (cur : input_frame_t) (l : truncate_locals)
    : truncate_locals :=
  if key_frame cur then
    mk_locals (l_chain l) (Some (l_part l)) (l_min_part l)
      (l_part l) (Some (l_cur_frame l)) (l_cur_frame l) (l_last_frame l)
      (l_dts l) (l_min_diff l) (l_index l)
      (l_min_index l) (l_index l)
  else l.

(** Lines 252-263; the write through [min_part] changes the store. *)
Definition truncate_update_min (cur : input_frame_t) (requested_time : Z)
    (l : truncate_locals) : outcome truncate_locals :=
  let pts := uint64 (l_dts l + pts_delay cur) in
  let cur_diff :=
    if requested_time <=? pts then pts - requested_time else requested_time - pts in
  if (cur_diff <? l_min_diff l) && bool_decide (l_last_key_frame l ≠ None) then
    match l_last_key_frame_part l, l_last_key_frame l with
    | Some min_part, Some key =>
      match l_chain l !! min_part with
      | Some p =>
        Returned
          (mk_locals (<[min_part := set_first_frame key p]> (l_chain l))
             (l_last_key_frame_part l) (Some min_part)
             (l_part l) (l_last_key_frame l) (l_cur_frame l) (l_last_frame l)
             (l_dts l) cur_diff (l_last_key_frame_index l)
             (uint32 (l_index l - l_last_key_frame_index l)) (l_index l))
      | None => Fault
      end
    | _, _ => Fault
    end
  else Returned l.

(** Line 265 and the loop's increment [cur_frame++, index++]. *)
Definition truncate_advance (cur : input_frame_t) (l : truncate_locals)
    : truncate_locals :=
  mk_locals (l_chain l) (l_last_key_frame_part l) (l_min_part l)
    (l_part l) (l_last_key_frame l) (S (l_cur_frame l)) (l_last_frame l)
    (uint64 (l_dts l + duration cur)) (l_min_diff l) (l_last_key_frame_index l)
    (l_min_index l) (uint32 (l_index l + 1)).

Definition truncate_visit (fmem : frame_mem) (requested_time : Z)
    (l : truncate_locals) : outcome truncate_locals :=
  let cur := fmem (l_cur_frame l) in
  match truncate_update_min cur requested_time (truncate_update_key cur l) with
  | Returned l' => Returned (truncate_advance cur l')
  | Fault => Fault
  | Exhausted => Exhausted
  end.

(** The [for (;; cur_frame++, index++)] loop of lines 231-266. *)
Fixpoint truncate_loop (fuel : nat) (fmem : frame_mem) (requested_time : Z)
    (l : truncate_locals) : outcome truncate_locals :=
  match fuel with
  | O => Exhausted
  | S fuel' =>
    match truncate_next_part l with
    | None => Returned l
    | Some l1 =>
      match truncate_visit fmem requested_time l1 with
      | Returned l2 => truncate_loop fuel' fmem requested_time l2
      | Fault => Fault
      | Exhausted => Exhausted
      end
    end
  end.

Definition truncate_init (index0 key_index0 : Z) (track : media_track_t)
    : truncate_locals :=
  mk_locals (track_chain track) None None
    0%nat None (first_frame (frames track)) (last_frame (frames track))
    (uint64 (clip_start_time track + first_frame_time_offset track))
    ULLONG_MAX key_index0 0 index0.

(** Line 229: [requested_time += cur_frame->pts_delay], with [cur_frame]
    the [first_frame] of the first part, read before any test against
    [last_frame].  When the first part holds no frame the read is of
    whatever the memory has at that address; the statements below that
    depend on the value read assume the part holds a frame. *)
Definition adjusted_time (fmem : frame_mem) (track : media_track_t)
    (requested_time : Z) : Z :=
  uint64 (requested_time + pts_delay (fmem (first_frame (frames track)))).

(** The function returns its status, the track as it leaves it, and the
    skip count when it wrote one.  [index] and [last_key_frame_index] are
    not initialised in the source: [index0] and [key_index0] are what they
    happen to hold on entry. *)
Definition thumb_grabber_truncate_frames (fuel : nat) (index0 key_index0 : Z)
    (fmem : frame_mem) (track : media_track_t) (requested_time : Z)
    : outcome (vod_status_t * media_track_t * option Z) :=
  match truncate_loop fuel fmem (adjusted_time fmem track requested_time)
          (truncate_init index0 key_index0 track) with
  | Returned l =>
    match l_min_part l with
    | None => Returned (VOD_UNEXPECTED, track, None)
    | Some min_part =>
      match l_chain l !! min_part with
      | Some p =>
        Returned (VOD_OK,
                  mk_track p (drop (S min_part) (l_chain l))
                    (clip_start_time track) (first_frame_time_offset track)
                    (codec_id track),
                  Some (l_min_index l))
      | None => Fault
      end
    end
  | Fault => Fault
  | Exhausted => Exhausted
  end.

(** ** Byte memory *)

(** Buffers are blocks of bytes; a pointer is a block and an offset in it.
    An access outside its block is a fault. *)
Abbreviation memory := (list (list byte)).
Abbreviation pointer := (nat * nat)%type.

Definition ptr_add (p : pointer) (n : nat) : pointer := (p.1, (p.2 + n)%nat).

Definition mem_load (m : memory) (p : pointer) (n : nat) : option (list byte) :=
  match m !! p.1 with
  | Some b => if decide (p.2 + n ≤ length b)%nat then Some (take n (drop p.2 b)) else None
  | None => None
  end.

Definition mem_store (m : memory) (p : pointer) (bytes : list byte) : option memory :=
  match m !! p.1 with
  | Some b =>
    if decide (p.2 + length bytes ≤ length b)%nat
    then Some (<[p.1 := take p.2 b ++ bytes ++ drop (p.2 + length bytes) b]> m)
    else None
  | None => None
  end.

Definition vod_memcpy (m : memory) (dst src : pointer) (n : nat) : option memory :=
  match mem_load m src n with
  | Some bytes => mem_store m dst bytes
  | None => None
  end.

Definition vod_memzero (m : memory) (dst : pointer) (n : nat) : option memory :=
  mem_store m dst (replicate n x00).

(** ** The collaborators *)

(** The unit handed to [avcodec_decode_video2]; the flush of the decoder
    passes [empty_packet].  The fields are those of libavcodec's
    [AVPacket]: [size] is an [int], [dts], [pts] and [duration] are
    [int64_t]. *)
Record av_packet : Type := mk_packet {
  pkt_data : option pointer;
  pkt_size : Z;
  pkt_dts : Z;
  pkt_pts : Z;
  pkt_duration : Z;
  pkt_key : bool }.

Definition empty_packet : av_packet := mk_packet None 0 0 0 0 false.

(** One answer of [frames_source->read]: the status and, when it is
    [VOD_OK], the contents of the buffer handed out (the chunk and what
    follows it in the source's memory), the chunk size and [frame_done]. *)
Record read_answer : Type := mk_read {
  r_rc : vod_status_t;
  r_buffer : list byte;
  r_size : Z;
  r_done : bool }.

(** The calls the engine makes, with their arguments and answers.  A
    decode call records the memory it is given to read. *)
Inductive event : Type :=
| EvStartFrame (source frame : nat) (rc : vod_status_t)
| EvRead (source : nat) (answer : read_answer)
| EvAlloc (size : Z) (ok : bool)
| EvCleanupAdd (ok : bool)
| EvAllocContext (ok : bool)
| EvCodecOpen (avrc : Z)
| EvFrameAlloc (ok : bool)
| EvDecode (frame : option nat) (pkt : av_packet) (mem : memory) (avrc : Z) (got_frame : bool)
| EvEncode (avrc : Z) (got_packet : bool) (packet : list byte)
| EvWrite (data : list byte) (rc : vod_status_t).

(** The world outside the engine: the byte memory, the calls made so far
    (latest first), and for each collaborator the answers it will give, in
    call order.  An answer of [vod_alloc] is NULL ([None]) or the bytes
    the fresh block happens to hold. *)
Record world : Type := mk_world {
  w_mem : memory;
  w_trace : list event;
  w_start_frame : list vod_status_t;
  w_alloc : list (option (list byte));
  w_cleanup : list bool;
  w_av_alloc : list bool;
  w_av_open : list Z;
  w_decode : list (Z * bool);
  w_encode : list (Z * bool * list byte);
  w_write : list vod_status_t }.

Definition set_mem (m : memory) (w : world) : world :=
  mk_world m (w_trace w) (w_start_frame w) (w_alloc w) (w_cleanup w)
    (w_av_alloc w) (w_av_open w) (w_decode w) (w_encode w) (w_write w).

Definition log (e : event) (w : world) : world :=
  mk_world (w_mem w) (e :: w_trace w) (w_start_frame w) (w_alloc w) (w_cleanup w)
    (w_av_alloc w) (w_av_open w) (w_decode w) (w_encode w) (w_write w).

Definition call_start_frame (source frame : nat) (w : world)
    : option (vod_status_t * world) :=
  match w_start_frame w with
  | [] => None
  | rc :: rest =>
    Some (rc, mk_world (w_mem w) (EvStartFrame source frame rc :: w_trace w) rest
                (w_alloc w) (w_cleanup w) (w_av_alloc w) (w_av_open w)
                (w_decode w) (w_encode w) (w_write w))
  end.

(** [vod_alloc]: NULL, or a pointer to a fresh block of [size] bytes. *)
Definition call_alloc (size : Z) (w : world) : option (option pointer * world) :=
  match w_alloc w with
  | [] => None
  | a :: rest =>
    let m := match a with
             | Some garbage => w_mem w ++ [resize (Z.to_nat size) x00 garbage]
             | None => w_mem w
             end in
    Some (match a with Some _ => Some (length (w_mem w), 0%nat) | None => None end,
          mk_world m (EvAlloc size (bool_decide (a ≠ None)) :: w_trace w)
            (w_start_frame w) rest (w_cleanup w) (w_av_alloc w) (w_av_open w)
            (w_decode w) (w_encode w) (w_write w))
  end.

Definition call_cleanup_add (w : world) : option (bool * world) :=
  match w_cleanup w with
  | [] => None
  | ok :: rest =>
    Some (ok, mk_world (w_mem w) (EvCleanupAdd ok :: w_trace w) (w_start_frame w)
                (w_alloc w) rest (w_av_alloc w) (w_av_open w)
                (w_decode w) (w_encode w) (w_write w))
  end.

Definition call_av_alloc (e : bool → event) (w : world) : option (bool * world) :=
  match w_av_alloc w with
  | [] => None
  | ok :: rest =>
    Some (ok, mk_world (w_mem w) (e ok :: w_trace w) (w_start_frame w)
                (w_alloc w) (w_cleanup w) rest (w_av_open w)
                (w_decode w) (w_encode w) (w_write w))
  end.

Definition call_av_open (w : world) : option (Z * world) :=
  match w_av_open w with
  | [] => None
  | avrc :: rest =>
    Some (avrc, mk_world (w_mem w) (EvCodecOpen avrc :: w_trace w) (w_start_frame w)
                  (w_alloc w) (w_cleanup w) (w_av_alloc w) rest
                  (w_decode w) (w_encode w) (w_write w))
  end.

Definition call_decode (frame : option nat) (pkt : av_packet) (w : world)
    : option (Z * bool * world) :=
  match w_decode w with
  | [] => None
  | (avrc, got_frame) :: rest =>
    Some (avrc, got_frame,
          mk_world (w_mem w) (EvDecode frame pkt (w_mem w) avrc got_frame :: w_trace w)
            (w_start_frame w) (w_alloc w) (w_cleanup w) (w_av_alloc w) (w_av_open w)
            rest (w_encode w) (w_write w))
  end.

Definition call_encode (w : world) : option (Z * bool * list byte * world) :=
  match w_encode w with
  | [] => None
  | (avrc, got_packet, packet) :: rest =>
    Some (avrc, got_packet, packet,
          mk_world (w_mem w) (EvEncode avrc got_packet packet :: w_trace w)
            (w_start_frame w) (w_alloc w) (w_cleanup w) (w_av_alloc w) (w_av_open w)
            (w_decode w) rest (w_write w))
  end.

Definition call_write (data : list byte) (w : world) : option (vod_status_t * world) :=
  match w_write w with
  | [] => None
  | rc :: rest =>
    Some (rc, mk_world (w_mem w) (EvWrite data rc :: w_trace w)
                (w_start_frame w) (w_alloc w) (w_cleanup w) (w_av_alloc w) (w_av_open w)
                (w_decode w) (w_encode w) rest)
  end.

(** A successful read hands out a buffer of the source: a block of its own
    holding [r_buffer]. *)
Definition source_buffer (r : read_answer) (w : world) : pointer * world :=
  ((length (w_mem w), 0%nat), set_mem (w_mem w ++ [r_buffer r]) w).

(** ** The pipeline state *)

Record thumb_grabber_state_t : Type := mk_state {
  output_packet : list byte;
  cur_frame_part : frame_list_part_t;
  cur_frame_part_next : list frame_list_part_t;
  cur_frame : nat;
  skip_count : Z;
  first_time : bool;
  frame_started : bool;
  dts : Z;
  missing_frames : Z;
  max_frame_size : Z;
  frame_buffer : option pointer;
  cur_frame_pos : Z }.

Definition set_output_packet (x : list byte) (s : thumb_grabber_state_t) :=
  mk_state x (cur_frame_part s) (cur_frame_part_next s) (cur_frame s)
    (skip_count s) (first_time s) (frame_started s) (dts s) (missing_frames s)
    (max_frame_size s) (frame_buffer s) (cur_frame_pos s).

Definition set_cur_frame_part (p : frame_list_part_t) (next : list frame_list_part_t)
    (s : thumb_grabber_state_t) :=
  mk_state (output_packet s) p next (cur_frame s)
    (skip_count s) (first_time s) (frame_started s) (dts s) (missing_frames s)
    (max_frame_size s) (frame_buffer s) (cur_frame_pos s).

Definition set_cur_frame (x : nat) (s : thumb_grabber_state_t) :=
  mk_state (output_packet s) (cur_frame_part s) (cur_frame_part_next s) x
    (skip_count s) (first_time s) (frame_started s) (dts s) (missing_frames s)
    (max_frame_size s) (frame_buffer s) (cur_frame_pos s).

Definition set_skip_count (x : Z) (s : thumb_grabber_state_t) :=
  mk_state (output_packet s) (cur_frame_part s) (cur_frame_part_next s) (cur_frame s)
    x (first_time s) (frame_started s) (dts s) (missing_frames s)
    (max_frame_size s) (frame_buffer s) (cur_frame_pos s).

Definition set_first_time (x : bool) (s : thumb_grabber_state_t) :=
  mk_state (output_packet s) (cur_frame_part s) (cur_frame_part_next s) (cur_frame s)
    (skip_count s) x (frame_started s) (dts s) (missing_frames s)
    (max_frame_size s) (frame_buffer s) (cur_frame_pos s).

Definition set_frame_started (x : bool) (s : thumb_grabber_state_t) :=
  mk_state (output_packet s) (cur_frame_part s) (cur_frame_part_next s) (cur_frame s)
    (skip_count s) (first_time s) x (dts s) (missing_frames s)
    (max_frame_size s) (frame_buffer s) (cur_frame_pos s).

Definition set_dts (x : Z) (s : thumb_grabber_state_t) :=
  mk_state (output_packet s) (cur_frame_part s) (cur_frame_part_next s) (cur_frame s)
    (skip_count s) (first_time s) (frame_started s) x (missing_frames s)
    (max_frame_size s) (frame_buffer s) (cur_frame_pos s).

Definition set_missing_frames (x : Z) (s : thumb_grabber_state_t) :=
  mk_state (output_packet s) (cur_frame_part s) (cur_frame_part_next s) (cur_frame s)
    (skip_count s) (first_time s) (frame_started s) (dts s) x
    (max_frame_size s) (frame_buffer s) (cur_frame_pos s).

Definition set_frame_buffer (x : option pointer) (s : thumb_grabber_state_t) :=
  mk_state (output_packet s) (cur_frame_part s) (cur_frame_part_next s) (cur_frame s)
    (skip_count s) (first_time s) (frame_started s) (dts s) (missing_frames s)
    (max_frame_size s) x (cur_frame_pos s).

Definition set_cur_frame_pos (x : Z) (s : thumb_grabber_state_t) :=
  mk_state (output_packet s) (cur_frame_part s) (cur_frame_part_next s) (cur_frame s)
    (skip_count s) (first_time s) (frame_started s) (dts s) (missing_frames s)
    (max_frame_size s) (frame_buffer s) x.

(** ** The engine *)

Definition engine_result : Type :=
  outcome (vod_status_t * thumb_grabber_state_t * world).

Section Engine.

(** Modelled from the spec: [VOD_BUFFER_PADDING_SIZE], the fixed size of
    the safety margin, is a macro of a header outside the sources at hand. *)
Variable VOD_BUFFER_PADDING_SIZE : nat.
Variable fmem : frame_mem.

(** The loop of [thumb_grabber_decode_flush]. *)
Fixpoint decode_flush_loop (fuel : nat) (state : thumb_grabber_state_t) (w : world)
    : engine_result :=
  if 0 <? missing_frames state then
    match fuel with
    | O => Exhausted
    | S fuel' =>
      match call_decode None empty_packet w with
      | None => Exhausted
      | Some (avrc, got_frame, w) =>
        if avrc <? 0 then Returned (VOD_BAD_DATA, state, w)
        else if negb got_frame then Returned (VOD_UNEXPECTED, state, w)
        else decode_flush_loop fuel'
               (set_missing_frames (missing_frames state - 1) state) w
      end
    end
  else Returned (VOD_OK, state, w).

Definition thumb_grabber_decode_flush (state : thumb_grabber_state_t) (w : world)
    : engine_result :=
  decode_flush_loop (Z.to_nat (missing_frames state)) state w.

(** Lines 410-453.  The unsigned [frame->size] is stored in the packet's
    [int], the unsigned [state->dts] and [state->dts + frame->pts_delay]
    in its [int64_t] fields. *)
Definition thumb_grabber_decode_frame (state : thumb_grabber_state_t)
    (buffer : pointer) (w : world) : engine_result :=
  let frame := fmem (cur_frame state) in
  let input_packet :=
    mk_packet (Some buffer) (int32 (size frame)) (int64 (dts state))
      (int64 (uint64 (dts state + pts_delay frame))) (duration frame)
      (key_frame frame) in
  let state := set_dts (uint64 (dts state + duration frame)) state in
  let frame_end := ptr_add buffer (Z.to_nat (size frame)) in
  match mem_load (w_mem w) frame_end VOD_BUFFER_PADDING_SIZE with
  | None => Fault
  | Some original_pad =>
    match vod_memzero (w_mem w) frame_end VOD_BUFFER_PADDING_SIZE with
    | None => Fault
    | Some m =>
      match call_decode (Some (cur_frame state)) input_packet (set_mem m w) with
      | None => Exhausted
      | Some (avrc, got_frame, w) =>
        if avrc <? 0 then Returned (VOD_BAD_DATA, state, w)
        else
          match mem_store (w_mem w) frame_end original_pad with
          | None => Fault
          | Some m =>
            let state :=
              if negb got_frame
              then set_missing_frames (uint32 (missing_frames state + 1)) state
              else state in
            Returned (VOD_OK, state, set_mem m w)
          end
      end
    end
  end.

(** Lines 471-492 of [thumb_grabber_write_frame]: encode the picture and
    hand the packet to the callback. *)
Definition write_frame_encode (state : thumb_grabber_state_t) (w : world)
    : engine_result :=
  match call_encode w with
  | None => Exhausted
  | Some (avrc, got_packet, packet, w) =>
    let state := set_output_packet packet state in
    if avrc <? 0 then Returned (VOD_UNEXPECTED, state, w)
    else if negb got_packet then Returned (VOD_UNEXPECTED, state, w)
    else
      match call_write (output_packet state) w with
      | None => Exhausted
      | Some (rc, w) => Returned (rc, state, w)
      end
  end.

Definition thumb_grabber_write_frame (state : thumb_grabber_state_t) (w : world)
    : engine_result :=
  if 0 <? missing_frames state then
    match thumb_grabber_decode_flush state w with
    | Returned (rc, state, w) =>
      if bool_decide (rc ≠ VOD_OK) then Returned (rc, state, w)
      else write_frame_encode state w
    | Fault => Fault
    | Exhausted => Exhausted
    end
  else write_frame_encode state w.

(** Lines 507-527 of [thumb_grabber_process]: [Some rc] is [return rc]. *)
Definition process_start_frame (state : thumb_grabber_state_t) (w : world)
    : outcome (option vod_status_t * thumb_grabber_state_t * world) :=
  if frame_started state then Returned (None, state, w)
  else
    match (if decide (last_frame (cur_frame_part state) ≤ cur_frame state)%nat then
             match cur_frame_part_next state with
             | [] => None
             | p :: next => Some (set_cur_frame (first_frame p)
                                    (set_cur_frame_part p next state))
             end
           else Some state) with
    | None => Fault
    | Some state =>
      match call_start_frame (frames_source (cur_frame_part state))
              (cur_frame state) w with
      | None => Exhausted
      | Some (rc, w) =>
        if bool_decide (rc ≠ VOD_OK) then Returned (Some rc, state, w)
        else Returned (None, set_frame_started true state, w)
      end
    end.

(** Lines 584-601: decode the frame in [read_buffer], then write it or
    move to the next frame.  [None] is [continue]. *)
Definition process_decode (state : thumb_grabber_state_t) (read_buffer : pointer)
    (w : world) : outcome (option vod_status_t * thumb_grabber_state_t * world) :=
  match thumb_grabber_decode_frame state read_buffer w with
  | Returned (rc, state, w) =>
    if bool_decide (rc ≠ VOD_OK) then Returned (Some rc, state, w)
    else if skip_count state <=? 0 then
      match thumb_grabber_write_frame state w with
      | Returned (rc, state, w) => Returned (Some rc, state, w)
      | Fault => Fault
      | Exhausted => Exhausted
      end
    else
      Returned (None,
                set_frame_started false
                  (set_cur_frame (S (cur_frame state))
                     (set_skip_count (skip_count state - 1) state)),
                w)
  | Fault => Fault
  | Exhausted => Exhausted
  end.

(** Lines 529-601, given the answer of [read]. *)
Definition process_read (processed_data : bool) (state : thumb_grabber_state_t)
    (w : world) (r : read_answer)
    : outcome (option vod_status_t * thumb_grabber_state_t * world) :=
  let w := log (EvRead (frames_source (cur_frame_part state)) r) w in
  if bool_decide (r_rc r ≠ VOD_OK) then
    if bool_decide (r_rc r ≠ VOD_AGAIN) then Returned (Some (r_rc r), state, w)
    else if negb processed_data && negb (first_time state)
    then Returned (Some VOD_BAD_DATA, state, w)
    else Returned (Some VOD_AGAIN, set_first_time false state, w)
  else
    let '(read_buffer, w) := source_buffer r w in
    let read_size := Z.to_nat (r_size r) in
    if negb (r_done r) then
      match (match frame_buffer state with
             | None =>
               match call_alloc (uint32 (max_frame_size state
                                         + Z.of_nat VOD_BUFFER_PADDING_SIZE)) w with
               | None => Exhausted
               | Some (b, w) => Returned (set_frame_buffer b state, w)
               end
             | Some _ => Returned (state, w)
             end) with
      | Returned (state, w) =>
        match frame_buffer state with
        | None => Returned (Some VOD_ALLOC_FAILED, state, w)
        | Some frame_buffer_ =>
          match vod_memcpy (w_mem w)
                  (ptr_add frame_buffer_ (Z.to_nat (cur_frame_pos state)))
                  read_buffer read_size with
          | None => Fault
          | Some m =>
            Returned (None,
                      set_cur_frame_pos (uint32 (cur_frame_pos state + r_size r)) state,
                      set_mem m w)
          end
        end
      | Fault => Fault
      | Exhausted => Exhausted
      end
    else if bool_decide (cur_frame_pos state ≠ 0) then
      match frame_buffer state with
      | None => Fault
      | Some frame_buffer_ =>
        match vod_memcpy (w_mem w)
                (ptr_add frame_buffer_ (Z.to_nat (cur_frame_pos state)))
                read_buffer read_size with
        | None => Fault
        | Some m =>
          process_decode (set_cur_frame_pos 0 state) frame_buffer_ (set_mem m w)
        end
      end
    else process_decode state read_buffer w.

(** The [for (;;)] loop: every iteration that reaches [read] consumes one
    answer of the byte source; the answers not consumed are returned. *)
Fixpoint process_loop (reads : list read_answer) (processed_data : bool)
    (state : thumb_grabber_state_t) (w : world)
    : outcome (vod_status_t * thumb_grabber_state_t * world * list read_answer) :=
  match process_start_frame state w with
  | Returned (Some rc, state, w) => Returned (rc, state, w, reads)
  | Returned (None, state, w) =>
    match reads with
    | [] => Exhausted
    | r :: reads' =>
      match process_read processed_data state w r with
      | Returned (Some rc, state, w) => Returned (rc, state, w, reads')
      | Returned (None, state, w) => process_loop reads' true state w
      | Fault => Fault
      | Exhausted => Exhausted
      end
    end
  | Fault => Fault
  | Exhausted => Exhausted
  end.

Definition thumb_grabber_process (state : thumb_grabber_state_t) (w : world)
    (reads : list read_answer)
    : outcome (vod_status_t * thumb_grabber_state_t * world * list read_answer) :=
  process_loop reads false state w.

(** [thumb_grabber_init_decoder] and [thumb_grabber_init_encoder]: a
    context is allocated, then opened. *)
Definition thumb_grabber_init_codec (w : world) : option (vod_status_t * world) :=
  match call_av_alloc EvAllocContext w with
  | None => None
  | Some (false, w) => Some (VOD_ALLOC_FAILED, w)
  | Some (true, w) =>
    match call_av_open w with
    | None => None
    | Some (avrc, w) => Some (if avrc <? 0 then VOD_UNEXPECTED else VOD_OK, w)
    end
  end.

(** [decoder_codec] tells for which codec ids a decoder was registered.
    The state itself is not kept in the byte memory: its allocation is a
    call that can fail, of a block of no interest. *)
Definition thumb_grabber_init_state (decoder_codec : nat → bool)
    (fuel : nat) (index0 key_index0 : Z)
    (track : media_track_t) (requested_time : Z) (w : world)
    : outcome (vod_status_t * media_track_t * option thumb_grabber_state_t * world) :=
  if negb (decoder_codec (codec_id track)) then
    Returned (VOD_BAD_REQUEST, track, None, w)
  else
    match thumb_grabber_truncate_frames fuel index0 key_index0 fmem track
            requested_time with
    | Returned (rc, track, frame_index) =>
      if bool_decide (rc ≠ VOD_OK) then Returned (rc, track, None, w)
      else
        match frame_index with
        | None => Fault
        | Some frame_index =>
          match call_alloc 0 w with
          | None => Exhausted
          | Some (None, w) => Returned (VOD_ALLOC_FAILED, track, None, w)
          | Some (Some _, w) =>
            match call_cleanup_add w with
            | None => Exhausted
            | Some (false, w) => Returned (VOD_ALLOC_FAILED, track, None, w)
            | Some (true, w) =>
              match thumb_grabber_init_codec w with
              | None => Exhausted
              | Some (rc, w) =>
                if bool_decide (rc ≠ VOD_OK) then Returned (rc, track, None, w)
                else
                  match thumb_grabber_init_codec w with
                  | None => Exhausted
                  | Some (rc, w) =>
                    if bool_decide (rc ≠ VOD_OK) then Returned (rc, track, None, w)
                    else
                      match call_av_alloc EvFrameAlloc w with
                      | None => Exhausted
                      | Some (false, w) => Returned (VOD_ALLOC_FAILED, track, None, w)
                      | Some (true, w) =>
                        match thumb_grabber_get_max_frame_size fmem track
                                (uint32 (frame_index + 1)) with
                        | Returned max_frame_size_ =>
                          Returned
                            (VOD_OK, track,
                             Some (mk_state [] (frames track) (frames_next track)
                                     (first_frame (frames track)) frame_index
                                     true false 0 0 max_frame_size_ None 0),
                             w)
                        | Fault => Fault
                        | Exhausted => Exhausted
                        end
                      end
                  end
              end
            end
          end
        end
    | Fault => Fault
    | Exhausted => Exhausted
    end.

End Engine.

(** ** thumb_grabber_process_init *)

(** Modelled from the spec: the codec ids of libavcodec the file names;
    only their being distinct matters. *)
Inductive AVCodecID : Type :=
| AV_CODEC_ID_MJPEG
| AV_CODEC_ID_H264
| AV_CODEC_ID_H265
| AV_CODEC_ID_VP8
| AV_CODEC_ID_VP9.

(** An entry of [codec_mappings], without the name used in log lines. *)
Record codec_id_mapping_t : Type := mk_mapping {
  m_codec_id : nat;
  m_av_codec_id : AVCodecID }.

(** The globals of the file: the table of decoders by codec id, and the
    encoder.  A codec is a handle; NULL is [None]. *)
Record thumb_globals : Type := mk_globals {
  g_decoder_codec : list (option nat);
  g_encoder_codec : option nat }.

Section ProcessInit.

(** Modelled from the spec: the codec ids of the module and their number
    are macros of a header outside the sources at hand. *)
Variable VOD_CODEC_ID_AVC VOD_CODEC_ID_HEVC VOD_CODEC_ID_VP8 VOD_CODEC_ID_VP9 : nat.
Variable VOD_CODEC_ID_COUNT : nat.

(** What libavcodec finds, once all codecs are registered. *)
Variable avcodec_find_encoder avcodec_find_decoder : AVCodecID → option nat.

Definition codec_mappings : list codec_id_mapping_t :=
  [ mk_mapping VOD_CODEC_ID_AVC AV_CODEC_ID_H264;
    mk_mapping VOD_CODEC_ID_HEVC AV_CODEC_ID_H265;
    mk_mapping VOD_CODEC_ID_VP8 AV_CODEC_ID_VP8;
    mk_mapping VOD_CODEC_ID_VP9 AV_CODEC_ID_VP9 ].

(** The loop over [codec_mappings]; a store outside the table is a fault. *)
Fixpoint process_init_loop (mappings : list codec_id_mapping_t)
    (decoder_codec : list (option nat)) : outcome (list (option nat)) :=
  match mappings with
  | [] => Returned decoder_codec
  | mapping_cur :: mappings' =>
    match avcodec_find_decoder (m_av_codec_id mapping_cur) with
    | None => process_init_loop mappings' decoder_codec
    | Some cur_decoder_codec =>
      if decide (m_codec_id mapping_cur < length decoder_codec)%nat
      then process_init_loop mappings'
             (<[m_codec_id mapping_cur := Some cur_decoder_codec]> decoder_codec)
      else Fault
    end
  end.

Definition thumb_grabber_process_init : outcome thumb_globals :=
  let decoder_codec := replicate VOD_CODEC_ID_COUNT None in
  match avcodec_find_encoder AV_CODEC_ID_MJPEG with
  | None => Returned (mk_globals decoder_codec None)
  | Some encoder_codec =>
    match process_init_loop codec_mappings decoder_codec with
    | Returned decoder_codec => Returned (mk_globals decoder_codec (Some encoder_codec))
    | Fault => Fault
    | Exhausted => Exhausted
    end
  end.

End ProcessInit.

(** The test [decoder_codec[codec_id] == NULL] of
    [thumb_grabber_init_state], on the globals. *)
Definition has_decoder (g : thumb_globals) (codec_id : nat) : bool :=
  match g_decoder_codec g !! codec_id with
  | Some (Some _) => true
  | _ => false
  end.

(** ** Scenarios of the specification *)

Module Scenario.

(** Frames of duration 10 and no pts delay; the one at address 0 is a key
    frame; the frame at address [a] has [100 + a] bytes. *)
Definition mem5 : frame_mem :=
  fun a => mk_frame (100 + Z.of_nat a) (Nat.eqb a 0) 10 0.

(** Five frames in one part. *)
Definition track5 : media_track_t := mk_track (mk_part 0 5 0) [] 0 0 0.

(** Part A holds frames 0..2, part B frames 3..4. *)
Definition track_ab : media_track_t :=
  mk_track (mk_part 0 3 0) [mk_part 3 5 1] 0 0 0.

(** Two frames, the second one the only key frame. *)
Definition mem_late_key : frame_mem :=
  fun a => mk_frame 100 (Nat.eqb a 1) 10 0.

Definition track2 : media_track_t := mk_track (mk_part 0 2 0) [] 0 0 0.

(** Frames none of which is a key frame. *)
Definition mem_no_key : frame_mem := fun _ => mk_frame 100 false 10 0.

End Scenario.

(** ** Engine scenarios of the specification *)

Module EngineScenario.

Definition pad : nat := 4.

(** A target frame of declared size 300, at address 0. *)
Definition mem300 : frame_mem := fun _ => mk_frame 300 true 10 0.

Definition state0 : thumb_grabber_state_t :=
  mk_state [] (mk_part 0 1 7) [] 0 0 true false 0 0 300 None 0.

Definition chunk (b : byte) (n : nat) (done : bool) : read_answer :=
  mk_read VOD_OK (replicate n b ++ replicate pad xff) (Z.of_nat n) done.

Definition world0 : world :=
  mk_world [] [] [VOD_OK] [Some (replicate 400 xee)] [] [] []
    [(0, true)] [(0, true, [x4a; x50; x47])] [VOD_OK].

Definition frame300 : list byte :=
  replicate 100 x01 ++ replicate 150 x02 ++ replicate 50 x03.

End EngineScenario.

(** A small run of the engine: one target frame of three bytes, a safety
    margin of two. *)
Module Tiny.

Definition pad : nat := 2.

Definition mem3 : frame_mem := fun _ => mk_frame 3 true 10 0.

(** The state after setup, and the same with the frame being acquired. *)
Definition state0 : thumb_grabber_state_t :=
  mk_state [] (mk_part 0 1 7) [] 0 0 true false 0 0 3 None 0.

Definition started : thumb_grabber_state_t := set_frame_started true state0.

(** The frame in one read, in a buffer of the source with two more bytes. *)
Definition whole : read_answer := mk_read VOD_OK [x01; x02; x03; xaa; xbb] 3 true.

(** The frame in two reads. *)
Definition part1 : read_answer := mk_read VOD_OK [x01] 1 false.
Definition part2 : read_answer := mk_read VOD_OK [x02; x03] 2 true.


Definition again : read_answer := mk_read VOD_AGAIN [] 0 false.

(** A decoder, an encoder and a callback that do as expected. *)
Definition world_ok : world :=
  mk_world [] [] [VOD_OK] [Some []] [] [] []
    [(0, true)] [(0, true, [x4a])] [VOD_OK].

(** The callback reports a failure. *)
Definition world_refused : world :=
  mk_world [] [] [VOD_OK] [Some []] [] [] []
    [(0, true)] [(0, true, [x4a])] [VOD_STATUS 7].

(** The encoder yields no packet. *)
Definition world_no_packet : world :=
  mk_world [] [] [VOD_OK] [Some []] [] [] []
    [(0, true)] [(0, false, [])] [VOD_OK].

(** The callback answers VOD_AGAIN, then VOD_OK; decoder and encoder
    serve two calls. *)
Definition world_retry : world :=
  mk_world [] [] [VOD_OK] [Some []] [] [] []
    [(0, true); (0, true)] [(0, true, [x4a]); (0, true, [x4a])] [VOD_AGAIN; VOD_OK].

(** The source buffer of [whole] in memory and a decoder that fails. *)
Definition world_corrupt : world :=
  mk_world [[x01; x02; x03; xaa; xbb]] [] [] [] [] [] []
    [(-1, false)] [] [].

(** The same buffer and a decoder that owes its picture. *)
Definition world_late : world :=
  mk_world [[x01; x02; x03; xaa; xbb]] [] [] [] [] [] []
    [(0, false)] [] [].

(** Two pictures pending; the decoder then emits both, or only one. *)
Definition pending2 : thumb_grabber_state_t := set_missing_frames 2 started.

Definition world_flush (second : Z * bool) : world :=
  mk_world [] [] [] [] [] [] [] [(0, true); second] [(0, true, [x4a])] [VOD_OK].

End Tiny.

(** A request over two frames: the first, a key frame, arrives in one
    read; the byte source then has nothing; the second arrives in two
    chunks in the next invocation. *)
Module Pair.

Definition pad : nat := 2.

(** Two frames of three bytes, duration 10 and pts delay 1; the first is
    a key frame. *)
Definition mem2 : frame_mem := fun a => mk_frame 3 (Nat.eqb a 0) 10 1.

Definition track : media_track_t := mk_track (mk_part 0 2 7) [] 0 0 1.

(** Only codec 1 has a decoder. *)
Definition decoders (codec_id : nat) : bool := Nat.eqb codec_id 1.

(** Every collaborator does as expected; the decoder owes the picture of
    the first frame until the flush. *)
Definition world_init : world :=
  mk_world [] [] [VOD_OK; VOD_OK] [Some []; Some [xee; xee; xee; xee; xee]] [true]
    [true; true; true] [0; 0] [(0, false); (0, true); (0, true)]
    [(0, true, [x4a])] [VOD_OK].

(** The state and the world after the setup for time 10, when the second
    frame is presented. *)
Definition state0 : thumb_grabber_state_t :=
  mk_state [] (mk_part 0 2 7) [] 0 1 true false 0 0 3 None 0.

Definition w0 : world :=
  Eval vm_compute in
    match thumb_grabber_init_state mem2 decoders 5 0 0 track 10 world_init with
    | Returned (_, _, _, w) => w
    | _ => world_init
    end.

Definition reads1 : list read_answer := [Tiny.whole; Tiny.again].
Definition reads2 : list read_answer := [Tiny.part1; Tiny.part2].

(** The state and the world the first invocation leaves. *)
Definition waiting : thumb_grabber_state_t * world :=
  Eval vm_compute in
    match thumb_grabber_process pad mem2 state0 w0 reads1 with
    | Returned (_, state, w, _) => (state, w)
    | _ => (state0, w0)
    end.

End Pair.

(** ** The scenarios, run *)

Example scenario_1 :
  thumb_grabber_truncate_frames 10 7 9 Scenario.mem5 Scenario.track5 25
  = Returned (VOD_OK, Scenario.track5, Some 2).
Proof. vm_compute. reflexivity. Qed.

Example scenario_2 :
  thumb_grabber_truncate_frames 10 7 9 Scenario.mem5 Scenario.track5 1000
  = Returned (VOD_OK, Scenario.track5, Some 4).
Proof. vm_compute. reflexivity. Qed.

Example scenario_3 :
  thumb_grabber_truncate_frames 10 7 9 Scenario.mem5 Scenario.track_ab 1000
  = Returned (VOD_OK, Scenario.track_ab, Some 4).
Proof. vm_compute. reflexivity. Qed.

(** Scenario 4: chunks of 100, 150 and 50 bytes give one decode call on the
    assembled 300 bytes with the margin zeroed, and the margin is restored. *)
Example scenario_4 :
  match thumb_grabber_process EngineScenario.pad EngineScenario.mem300
          EngineScenario.state0 EngineScenario.world0
          [EngineScenario.chunk x01 100 false; EngineScenario.chunk x02 150 false;
           EngineScenario.chunk x03 50 true] with
  | Returned (rc, state, w, reads) =>
    rc = VOD_OK ∧ reads = [] ∧ cur_frame_pos state = 0 ∧
    match w_trace w with
    | [EvWrite data _; EvEncode _ _ _; EvDecode _ pkt m _ _; _; _; _; _; _] =>
      data = [x4a; x50; x47] ∧
      pkt_data pkt = Some (1%nat, 0%nat) ∧
      mem_load m (1%nat, 0%nat) 304
      = Some (EngineScenario.frame300 ++ replicate 4 x00) ∧
      mem_load (w_mem w) (1%nat, 300%nat) 4 = Some (replicate 4 xee)
    | _ => False
    end
  | _ => False
  end.
Proof. vm_compute. repeat split; reflexivity. Qed.

(** ** Selection, seen over frame positions *)

(** Position [j] is the [j]-th frame of the index in scan order.  The
    functions below are the quantities the scan maintains, as functions of
    the number of frames already scanned; the theorems on the C function
    are stated with them. *)
Section Selection.

Variable F : nat → input_frame_t.
Variable start rt : Z.

(** The running decode timestamp when frame [n] is reached. *)
Fixpoint dts_at (n : nat) : Z :=
  match n with
  | O => start
  | S m => uint64 (dts_at m + duration (F m))
  end.

Definition pts_at (n : nat) : Z := uint64 (dts_at n + pts_delay (F n)).

Definition diff_at (n : nat) : Z :=
  if rt <=? pts_at n then pts_at n - rt else rt - pts_at n.

(** The last key frame among the first [n] frames. *)
Fixpoint last_key_before (n : nat) : option nat :=
  match n with
  | O => None
  | S m => if key_frame (F m) then Some m else last_key_before m
  end.

(** A frame can be chosen when a key frame is at or before it. *)
Definition candidate (j : nat) : Prop := ∃ k, (k ≤ j)%nat ∧ key_frame (F k) = true.

Definition best_diff (b : option (nat * nat)) : Z :=
  match b with
  | None => ULLONG_MAX
  | Some (s, _) => diff_at s
  end.

(** The chosen frame and its key frame after [n] frames. *)
Fixpoint best (n : nat) : option (nat * nat) :=
  match n with
  | O => None
  | S m =>
    match last_key_before (S m) with
    | Some k => if diff_at m <? best_diff (best m) then Some (m, k) else best m
    | None => best m
    end
  end.

Lemma last_key_before_Some n k :
  last_key_before n = Some k →
  (k < n)%nat ∧ key_frame (F k) = true ∧
  ∀ j, (k < j < n)%nat → key_frame (F j) = false.
Proof.
  induction n as [|n IH]; simpl; [discriminate|].
  destruct (key_frame (F n)) eqn:Hk.
  - intros [= <-]. repeat split; [lia|done|]. intros j Hj. lia.
  - intros Hl. destruct (IH Hl) as (Hlt & Hkey & Hno).
    repeat split; [lia|done|]. intros j Hj.
    destruct (decide (j = n)) as [->|]; [done|]. apply Hno. lia.
Qed.

Lemma last_key_before_None n :
  last_key_before n = None → ∀ j, (j < n)%nat → key_frame (F j) = false.
Proof.
  induction n as [|n IH]; simpl; [intros _ j Hj; lia|].
  destruct (key_frame (F n)) eqn:Hk; [discriminate|].
  intros Hl j Hj. destruct (decide (j = n)) as [->|]; [done|].
  apply IH; [done|lia].
Qed.

Lemma candidate_last_key j :
  candidate j ↔ last_key_before (S j) ≠ None.
Proof.
  split.
  - intros (k & Hk & Hkey) Hnone.
    pose proof (last_key_before_None _ Hnone k ltac:(lia)). congruence.
  - intros Hne. destruct (last_key_before (S j)) as [k|] eqn:Hl; [|done].
    destruct (last_key_before_Some _ _ Hl) as (? & ? & _).
    exists k. split; [lia|done].
Qed.

Lemma best_spec n :
  match best n with
  | None => ∀ j, (j < n)%nat → candidate j → ULLONG_MAX ≤ diff_at j
  | Some (s, k) =>
    (s < n)%nat ∧ last_key_before (S s) = Some k ∧ diff_at s < ULLONG_MAX ∧
    (∀ j, (j < n)%nat → candidate j → diff_at s ≤ diff_at j) ∧
    (∀ j, (j < s)%nat → candidate j → diff_at s < diff_at j)
  end.
Proof.
  induction n as [|n IH]; [simpl; intros j Hj; lia|].
  cbn [best].
  destruct (last_key_before (S n)) as [k|] eqn:Hl.
  - destruct (Z.ltb_spec (diff_at n) (best_diff (best n))) as [Hlt|Hge].
    + split; [lia|]. split; [done|].
      destruct (best n) as [[s k']|]; simpl in Hlt.
      * destruct IH as (Hs & _ & Hmax & Hmin & Hfirst).
        split; [lia|]. split.
        -- intros j Hj Hc. destruct (decide (j = n)) as [->|]; [lia|].
           specialize (Hmin j ltac:(lia) Hc). lia.
        -- intros j Hj Hc. specialize (Hmin j Hj Hc). lia.
      * split; [done|]. split.
        -- intros j Hj Hc. destruct (decide (j = n)) as [->|]; [lia|].
           specialize (IH j ltac:(lia) Hc). lia.
        -- intros j Hj Hc. specialize (IH j Hj Hc). lia.
    + destruct (best n) as [[s k']|]; simpl in Hge.
      * destruct IH as (Hs & Hkey & Hmax & Hmin & Hfirst).
        split; [lia|]. repeat split; [done|done| |done].
        intros j Hj Hc. destruct (decide (j = n)) as [->|]; [lia|].
        apply Hmin; [lia|done].
      * intros j Hj Hc. destruct (decide (j = n)) as [->|]; [lia|].
        apply IH; [lia|done].
  - assert (¬ candidate n) as Hnc.
    { rewrite candidate_last_key. rewrite Hl. tauto. }
    destruct (best n) as [[s k']|].
    + destruct IH as (Hs & Hkey & Hmax & Hmin & Hfirst).
      split; [lia|]. repeat split; [done|done| |done].
      intros j Hj Hc. destruct (decide (j = n)) as [->|]; [done|].
      apply Hmin; [lia|done].
    + intros j Hj Hc. destruct (decide (j = n)) as [->|]; [done|].
      apply IH; [lia|done].
Qed.

End Selection.

(** ** The scan of [thumb_grabber_truncate_frames] follows the selection *)

Definition frame_at (fmem : frame_mem) (addrs : list nat) (j : nat) : input_frame_t :=
  fmem (nth j addrs 0%nat).

(** Every linked part after the embedded one holds at least one frame. *)
Definition linked_parts_nonempty (chain : list frame_list_part_t) : Prop :=
  ∀ i p, chain !! S i = Some p → (first_frame p < last_frame p)%nat.

Lemma chain_addrs_cons p c : chain_addrs (p :: c) = part_addrs p ++ chain_addrs c.
Proof. reflexivity. Qed.

Lemma uint32_sub_idemp a b : uint32 a = uint32 b → ∀ c d, uint32 c = uint32 d →
  uint32 (a - c) = uint32 (b - d).
Proof.
  unfold uint32. intros Hab c d Hcd.
  rewrite (Zminus_mod a c), (Zminus_mod b d). by rewrite Hab, Hcd.
Qed.

Lemma uint32_succ_idemp a b :
  uint32 a = uint32 b → uint32 (uint32 (a + 1)) = uint32 (b + 1).
Proof.
  unfold uint32. intros Hab. rewrite Z.mod_mod by lia.
  rewrite (Zplus_mod a 1), (Zplus_mod b 1). by rewrite Hab.
Qed.

Section TruncateScan.

Variable fmem : frame_mem.
Variable chain0 : list frame_list_part_t.
Variable start rt index0 : Z.
Hypothesis chain0_wf : linked_parts_nonempty chain0.

Local Abbreviation A := (chain_addrs chain0).
Local Abbreviation F := (frame_at fmem (chain_addrs chain0)).

Definition same_extent (p' p : frame_list_part_t) : Prop :=
  last_frame p' = last_frame p ∧ frames_source p' = frames_source p.

(** Where the cursor stands after [n] frames. *)
Definition cursor_at (n : nat) (l : truncate_locals) : Prop :=
  (∃ p, chain0 !! l_part l = Some p ∧ l_last_frame l = last_frame p) ∧
  drop n A = seq (l_cur_frame l) (l_last_frame l - l_cur_frame l)
             ++ chain_addrs (drop (S (l_part l)) chain0).

(** The store differs from the original chain only in [first_frame]
    fields, and only up to the part of the current choice. *)
Definition store_ok (l : truncate_locals) : Prop :=
  Forall2 same_extent (l_chain l) chain0 ∧
  (∀ j, (∀ i, l_min_part l = Some i → (i < j)%nat) → l_chain l !! j = chain0 !! j) ∧
  (∀ i, l_min_part l = Some i →
        ∃ i', l_last_key_frame_part l = Some i' ∧ (i ≤ i')%nat).

Definition time_at (n : nat) (l : truncate_locals) : Prop :=
  l_dts l = dts_at F start n ∧ uint32 (l_index l) = uint32 (index0 + Z.of_nat n).

(** [key_pos a i k]: the frame at address [a] in part [i] is position [k]. *)
Definition key_pos (a i k : nat) : Prop :=
  ∃ p, chain0 !! i = Some p ∧ (a < last_frame p)%nat ∧
       drop k A = seq a (last_frame p - a) ++ chain_addrs (drop (S i) chain0).

Definition key_at (n : nat) (l : truncate_locals) : Prop :=
  match last_key_before F n with
  | None => l_last_key_frame l = None ∧ l_last_key_frame_part l = None
  | Some k =>
    ∃ a i, l_last_key_frame l = Some a ∧ l_last_key_frame_part l = Some i ∧
           (i ≤ l_part l)%nat ∧ key_pos a i k ∧
           uint32 (l_last_key_frame_index l) = uint32 (index0 + Z.of_nat k)
  end.

Definition min_at (n : nat) (l : truncate_locals) : Prop :=
  match best F start rt n with
  | None => l_min_part l = None ∧ l_min_diff l = ULLONG_MAX
  | Some (s, k) =>
    ∃ a i p, l_min_part l = Some i ∧ chain0 !! i = Some p ∧
             l_chain l !! i = Some (set_first_frame a p) ∧ key_pos a i k ∧
             l_min_diff l = diff_at F start rt s ∧
             l_min_index l = uint32 (Z.of_nat s - Z.of_nat k)
  end.

Lemma store_ok_later l j :
  store_ok l →
  (∀ i, l_last_key_frame_part l = Some i → (i < j)%nat) →
  l_chain l !! j = chain0 !! j.
Proof.
  intros (_ & Hun & Hle) Hj. apply Hun. intros i Hi.
  destruct (Hle i Hi) as (i' & Hi' & Hii'). specialize (Hj i' Hi'). lia.
Qed.

Lemma cursor_frame n l :
  cursor_at n l → (l_cur_frame l < l_last_frame l)%nat →
  F n = fmem (l_cur_frame l) ∧ (n < length A)%nat.
Proof.
  intros [_ Hd] Hlt.
  replace (l_last_frame l - l_cur_frame l)%nat
    with (S (l_last_frame l - S (l_cur_frame l))) in Hd by lia.
  simpl in Hd.
  assert (A !! n = Some (l_cur_frame l)) as Hn.
  { rewrite <- (Nat.add_0_r n), <- lookup_drop, Hd. done. }
  split.
  - unfold frame_at. by rewrite (nth_lookup_Some _ _ _ _ Hn).
  - by apply lookup_lt_Some in Hn.
Qed.

(** What holds at the loop head after [n] frames is [scan_inv n n n]; the
    three indices move one after the other inside an iteration. *)
Definition scan_inv (nc nk nm : nat) (l : truncate_locals) : Prop :=
  cursor_at nc l ∧ store_ok l ∧ time_at nc l ∧ key_at nk l ∧ min_at nm l.

(** Lines 233-242 keep the position and leave the cursor on a frame. *)
Lemma next_part_spec n l :
  scan_inv n n n l → (n < length A)%nat →
  ∃ l1, truncate_next_part l = Some l1 ∧
        scan_inv n n n l1 ∧ (l_cur_frame l1 < l_last_frame l1)%nat.
Proof.
  intros ([Hp Hd] & Hst & Htime & Hkey & Hmin) Hn. unfold truncate_next_part.
  destruct (decide (l_last_frame l ≤ l_cur_frame l)%nat) as [Hend|Hin].
  - replace (l_last_frame l - l_cur_frame l)%nat with 0%nat in Hd by lia.
    simpl in Hd.
    destruct (chain0 !! S (l_part l)) as [p|] eqn:Hnext.
    + assert (l_chain l !! S (l_part l) = Some p) as ->.
      { rewrite <- Hnext. apply store_ok_later; [done|].
        intros i Hi. unfold key_at in Hkey.
        destruct (last_key_before F n).
        - destruct Hkey as (a & i' & _ & Hi' & Hle & _). simplify_eq. lia.
        - destruct Hkey as [_ Hnone]. congruence. }
      eexists. split; [done|]. simpl.
      split; [|by eapply chain0_wf].
      split; [|split; [done|split; [done|split; [|done]]]].
      * split; [eauto|]. simpl.
        rewrite Hd, (drop_S _ _ _ Hnext), chain_addrs_cons. done.
      * unfold key_at in *. destruct (last_key_before F n); [|done].
        destruct Hkey as (a & i & ? & ? & ? & ? & ?).
        exists a, i. simpl. repeat split; auto with lia.
    + exfalso. rewrite (drop_ge chain0) in Hd by (by apply lookup_ge_None).
      apply (f_equal length) in Hd. rewrite length_drop in Hd.
      simpl in Hd. lia.
  - exists l. split; [done|]. split; [done|lia].
Qed.

(** Lines 244-250. *)
Lemma update_key_spec n l :
  scan_inv n n n l → (l_cur_frame l < l_last_frame l)%nat →
  scan_inv n (S n) n (truncate_update_key (fmem (l_cur_frame l)) l).
Proof.
  intros (Hcur & Hst & Htime & Hkey & Hmin) Hlt.
  destruct (cursor_frame _ _ Hcur Hlt) as [HF Hn].
  unfold truncate_update_key.
  destruct (key_frame (fmem (l_cur_frame l))) eqn:Hk.
  - split; [done|]. split; [|split; [done|split; [|done]]].
    + destruct Hst as (Hsame & Hun & Hle). split; [done|]. split; [done|].
      simpl. intros i Hi. destruct (Hle i Hi) as (i' & Hi' & Hii').
      exists (l_part l). split; [done|].
      unfold key_at in Hkey. destruct (last_key_before F n).
      * destruct Hkey as (a & i2 & _ & Hi2 & Hle2 & _). simplify_eq. lia.
      * destruct Hkey as [_ Hnone]. congruence.
    + unfold key_at. cbn [last_key_before]. rewrite HF, Hk. simpl.
      exists (l_cur_frame l), (l_part l). repeat split; auto.
      * destruct Hcur as [(p & Hp & Hlast) Hd]. exists p.
        rewrite <- Hlast. repeat split; auto.
      * apply Htime.
  - split; [done|]. split; [done|]. split; [done|]. split; [|done].
    unfold key_at in *. cbn [last_key_before]. by rewrite HF, Hk.
Qed.

(** Lines 252-263. *)
Lemma update_min_spec n l :
  scan_inv n (S n) n l → (l_cur_frame l < l_last_frame l)%nat →
  ∃ l', truncate_update_min (fmem (l_cur_frame l)) rt l = Returned l' ∧
        scan_inv n (S n) (S n) l' ∧
        l_cur_frame l' = l_cur_frame l ∧ l_last_frame l' = l_last_frame l ∧
        l_dts l' = l_dts l ∧ l_index l' = l_index l.
Proof.
  intros (Hcur & Hst & Htime & Hkey & Hmin) Hlt.
  destruct (cursor_frame _ _ Hcur Hlt) as [HF Hn].
  unfold truncate_update_min.
  assert (uint64 (l_dts l + pts_delay (fmem (l_cur_frame l))) = pts_at F start n) as ->.
  { unfold pts_at. rewrite HF. by destruct Htime as [-> _]. }
  fold (diff_at F start rt n).
  assert (l_min_diff l = best_diff F start rt (best F start rt n)) as Hmd.
  { unfold min_at in Hmin. destruct (best F start rt n) as [[s k]|]; simpl.
    - by destruct Hmin as (? & ? & ? & _ & _ & _ & _ & ? & _).
    - by destruct Hmin as [_ ?]. }
  rewrite Hmd.
  assert (best F start rt (S n) =
          match last_key_before F (S n) with
          | Some k => if diff_at F start rt n <? best_diff F start rt (best F start rt n)
                      then Some (n, k) else best F start rt n
          | None => best F start rt n
          end) as Hbest by reflexivity.
  pose proof Hkey as Hkey'. unfold key_at in Hkey'.
  destruct (last_key_before F (S n)) as [k|] eqn:Hlk.
  - destruct Hkey' as (a & i & Ha & Hi & Hle & Hpos & Hidx).
    rewrite Ha, Hi, bool_decide_true, andb_true_r by done.
    destruct (diff_at F start rt n <? best_diff F start rt (best F start rt n)).
    + destruct Hst as (Hsame & Hun & Hmk).
      pose proof Hpos as (p & Hp & Halt & Hdrop).
      destruct (Forall2_lookup_r _ _ _ _ _ Hsame Hp) as (p' & Hp' & Hlast & Hsrc).
      rewrite Hp'. eexists. split; [done|]. simpl.
      assert (set_first_frame a p' = set_first_frame a p) as Hset.
      { unfold set_first_frame. by rewrite Hlast, Hsrc. }
      assert (i < length (l_chain l))%nat as Hlen by by eapply lookup_lt_Some.
      split; [|done].
      split; [done|]. split; [|split; [done|split]].
      * split; [|split]; simpl.
        -- rewrite <- (list_insert_id chain0 i p) by done.
           apply Forall2_insert; [done|]. by split.
        -- intros j Hj. specialize (Hj i eq_refl).
           rewrite list_lookup_insert_ne by lia. apply Hun.
           intros i0 Hi0. destruct (Hmk i0 Hi0) as (i' & Hi' & ?). simplify_eq. lia.
        -- intros i0 [= <-]. eauto.
      * unfold key_at. rewrite Hlk. simpl. exists a, i. done.
      * unfold min_at. rewrite Hbest. exists a, i, p. simpl.
        rewrite list_lookup_insert_eq by done. rewrite Hset.
        repeat split; auto.
        destruct Htime as [_ Hindex].
        rewrite (uint32_sub_idemp _ _ Hindex _ _ Hidx). f_equal. lia.
    + eexists. split; [done|]. split; [|done].
      split; [done|]. split; [done|]. split; [done|]. split; [done|].
      unfold min_at. by rewrite Hbest.
  - destruct Hkey' as [Ha Hi]. rewrite Ha. rewrite bool_decide_false by tauto.
    rewrite andb_false_r. eexists. split; [done|]. split; [|done].
    split; [done|]. split; [done|]. split; [done|]. split; [done|].
    unfold min_at. by rewrite Hbest.
Qed.

(** Line 265 and the increment of the loop. *)
Lemma advance_spec n l :
  scan_inv n (S n) (S n) l → (l_cur_frame l < l_last_frame l)%nat →
  scan_inv (S n) (S n) (S n) (truncate_advance (fmem (l_cur_frame l)) l).
Proof.
  intros (Hcur & Hst & Htime & Hkey & Hmin) Hlt.
  destruct (cursor_frame _ _ Hcur Hlt) as [HF Hn].
  split; [|split; [done|split; [|done]]].
  - destruct Hcur as [Hp Hd]. split; [done|]. simpl.
    replace (l_last_frame l - l_cur_frame l)%nat
      with (S (l_last_frame l - S (l_cur_frame l))) in Hd by lia.
    simpl in Hd.
    replace (S n) with (n + 1)%nat by lia. rewrite <- drop_drop, Hd. done.
  - destruct Htime as [Hdts Hindex]. split; simpl.
    + by rewrite HF, Hdts.
    + rewrite (uint32_succ_idemp _ _ Hindex). f_equal. lia.
Qed.

Lemma visit_spec n l :
  scan_inv n n n l → (l_cur_frame l < l_last_frame l)%nat →
  ∃ l2, truncate_visit fmem rt l = Returned l2 ∧ scan_inv (S n) (S n) (S n) l2.
Proof.
  intros Hinv Hlt. unfold truncate_visit.
  pose proof (update_key_spec _ _ Hinv Hlt) as Hk.
  assert (l_cur_frame (truncate_update_key (fmem (l_cur_frame l)) l) = l_cur_frame l
          ∧ l_last_frame (truncate_update_key (fmem (l_cur_frame l)) l) = l_last_frame l)
    as [Hc Hl].
  { unfold truncate_update_key. by destruct (key_frame _). }
  destruct (update_min_spec n _ Hk) as (l' & Hl' & Hinv' & Hc' & Hlast' & _).
  { by rewrite Hc, Hl. }
  rewrite Hc in Hl'. rewrite Hl'. eexists. split; [done|].
  rewrite <- Hc, <- Hc'. apply advance_spec; [done|]. rewrite Hc', Hlast', Hc, Hl. done.
Qed.

(** The loop runs to the end of the index when given the fuel for it. *)
Lemma truncate_loop_spec m : ∀ n l fuel,
  scan_inv n n n l → (n + m = length A)%nat → (m < fuel)%nat →
  ∃ l', truncate_loop fuel fmem rt l = Returned l' ∧
        scan_inv (length A) (length A) (length A) l'.
Proof.
  induction m as [|m IH]; intros n l fuel Hinv Hlen Hfuel;
    (destruct fuel as [|fuel]; [lia|]); simpl.
  - assert (n = length A) as -> by lia.
    pose proof Hinv as ([Hp Hd] & Hst & Htime & Hkey & Hmin).
    rewrite drop_all in Hd. symmetry in Hd.
    apply app_eq_nil in Hd as [Hseq Hrest].
    apply (f_equal length) in Hseq. rewrite length_seq in Hseq. simpl in Hseq.
    unfold truncate_next_part. rewrite decide_True by lia.
    assert (l_chain l !! S (l_part l) = chain0 !! S (l_part l)) as ->.
    { apply store_ok_later; [done|]. intros i Hi. unfold key_at in Hkey.
      destruct (last_key_before F (length A)).
      - destruct Hkey as (a & i' & _ & Hi' & Hle & _). simplify_eq. lia.
      - destruct Hkey as [_ Hnone]. congruence. }
    destruct (chain0 !! S (l_part l)) as [p|] eqn:Hnext.
    + exfalso. pose proof (chain0_wf _ _ Hnext) as Hne.
      rewrite (drop_S _ _ _ Hnext), chain_addrs_cons in Hrest.
      apply app_eq_nil in Hrest as [Hseq' _].
      apply (f_equal length) in Hseq'. unfold part_addrs in Hseq'.
      rewrite length_seq in Hseq'. simpl in Hseq'. lia.
    + eexists. split; done.
  - destruct (next_part_spec n l Hinv ltac:(lia)) as (l1 & -> & Hinv1 & Hlt).
    destruct (visit_spec n l1 Hinv1 Hlt) as (l2 & -> & Hinv2).
    apply (IH (S n)); [done|lia|lia].
Qed.

End TruncateScan.

(** ** What [thumb_grabber_truncate_frames] returns *)

Definition track_start (track : media_track_t) : Z :=
  uint64 (clip_start_time track + first_frame_time_offset track).

(** The frame at position [j] of the track's index. *)
Definition track_frame (fmem : frame_mem) (track : media_track_t) (j : nat)
    : input_frame_t :=
  frame_at fmem (track_addrs track) j.

Definition frame_count (track : media_track_t) : nat := length (track_addrs track).

Definition track_best (fmem : frame_mem) (track : media_track_t)
    (requested_time : Z) : option (nat * nat) :=
  best (track_frame fmem track) (track_start track)
    (adjusted_time fmem track requested_time) (frame_count track).

Lemma truncate_loop_fuel_mono fmem rt fuel : ∀ l l' fuel',
  truncate_loop fuel fmem rt l = Returned l' → (fuel ≤ fuel')%nat →
  truncate_loop fuel' fmem rt l = Returned l'.
Proof.
  induction fuel as [|fuel IH]; intros l l' fuel' Hrun Hle; [discriminate|].
  destruct fuel' as [|fuel']; [lia|]. simpl in *.
  destruct (truncate_next_part l) as [l1|]; [|done].
  destruct (truncate_visit fmem rt l1) as [l2| |]; try discriminate.
  apply IH; [done|lia].
Qed.

Lemma truncate_init_inv fmem track index0 key_index0 rt :
  scan_inv fmem (track_chain track) (track_start track) rt index0 0 0 0
    (truncate_init index0 key_index0 track).
Proof.
  split; [|split; [|split; [|split]]].
  - split; [by exists (frames track)|]. reflexivity.
  - split; [|split]; simpl; [|done|done].
    apply Forall2_same_length_lookup. split; [done|].
    intros i x y Hx Hy. by simplify_eq.
  - split; [done|]. simpl. f_equal. lia.
  - done.
  - done.
Qed.

(** The function returns what the selection over positions says: no choice
    is the failure; a choice [(s, k)] leaves the index starting at position
    [k] and the skip count [s - k]. *)
Lemma truncate_frames_spec fuel index0 key_index0 fmem track requested_time :
  linked_parts_nonempty (track_chain track) →
  (frame_count track < fuel)%nat →
  match track_best fmem track requested_time with
  | None =>
    thumb_grabber_truncate_frames fuel index0 key_index0 fmem track requested_time
    = Returned (VOD_UNEXPECTED, track, None)
  | Some (s, k) =>
    ∃ track',
      thumb_grabber_truncate_frames fuel index0 key_index0 fmem track requested_time
      = Returned (VOD_OK, track', Some (uint32 (Z.of_nat s - Z.of_nat k))) ∧
      track_addrs track' = drop k (track_addrs track) ∧
      (first_frame (frames track') < last_frame (frames track'))%nat ∧
      linked_parts_nonempty (track_chain track') ∧
      clip_start_time track' = clip_start_time track ∧
      first_frame_time_offset track' = first_frame_time_offset track ∧
      codec_id track' = codec_id track
  end.
Proof.
  intros Hwf Hfuel. unfold thumb_grabber_truncate_frames.
  destruct (truncate_loop_spec fmem (track_chain track) (track_start track)
              (adjusted_time fmem track requested_time) index0 Hwf
              (frame_count track) 0 (truncate_init index0 key_index0 track) fuel)
    as (l & -> & Hinv); [apply truncate_init_inv|done|done|].
  destruct Hinv as (_ & Hst & _ & _ & Hmin).
  unfold min_at in Hmin. unfold track_best, track_frame, frame_count, track_addrs.
  destruct (best _ _ _ _) as [[s k]|].
  - destruct Hmin as (a & i & p & Hmp & Hp & Hpi & (p' & Hp' & Halt & Hdrop) & _ & ->).
    rewrite Hmp, Hpi. simplify_eq. eexists. split; [done|]. simpl.
    destruct Hst as (_ & Hun & _).
    assert (drop (S i) (l_chain l) = drop (S i) (track_chain track)) as Hlater.
    { apply list_eq. intros j. rewrite !lookup_drop. apply Hun.
      intros i' Hi'. rewrite Hmp in Hi'. simplify_eq. lia. }
    repeat split; auto.
    + rewrite Hdrop. unfold track_chain at 1. simpl.
      by rewrite chain_addrs_cons, Hlater.
    + intros j q. unfold track_chain at 1. simpl. rewrite Hlater, lookup_drop.
      intros Hq. replace (S i + j)%nat with (S (i + j)) in Hq by lia.
      by eapply Hwf.
  - by destruct Hmin as [-> _].
Qed.

(** ** What [thumb_grabber_get_max_frame_size] returns *)

(** The largest size among the frames at [addrs], not below [acc]. *)
Fixpoint max_size (fmem : frame_mem) (addrs : list nat) (acc : Z) : Z :=
  match addrs with
  | [] => acc
  | a :: addrs' => max_size fmem addrs' (Z.max acc (size (fmem a)))
  end.

Lemma max_size_lower fmem addrs : ∀ acc, acc ≤ max_size fmem addrs acc.
Proof.
  induction addrs as [|a addrs IH]; intros acc; simpl; [lia|].
  specialize (IH (Z.max acc (size (fmem a)))). lia.
Qed.

Lemma max_size_upper fmem addrs : ∀ acc j a,
  addrs !! j = Some a → size (fmem a) ≤ max_size fmem addrs acc.
Proof.
  induction addrs as [|a' addrs IH]; intros acc j a Hj; [done|].
  destruct j as [|j]; simpl in *.
  - simplify_eq. pose proof (max_size_lower fmem addrs (Z.max acc (size (fmem a)))). lia.
  - by eapply IH.
Qed.

Lemma max_size_attained fmem addrs : ∀ acc,
  max_size fmem addrs acc = acc ∨
  ∃ j a, addrs !! j = Some a ∧ size (fmem a) = max_size fmem addrs acc.
Proof.
  induction addrs as [|a addrs IH]; intros acc; simpl; [by left|].
  destruct (IH (Z.max acc (size (fmem a)))) as [Heq|(j & a' & Hj & Ha')].
  - rewrite Heq. destruct (Z.max_spec acc (size (fmem a))) as [[_ ->]|[_ ->]].
    + right. by exists 0%nat, a.
    + by left.
  - right. by exists (S j), a'.
Qed.

Lemma max_frame_size_loop_spec fmem limit : ∀ next cur last_ acc,
  (∀ p, p ∈ next → (first_frame p < last_frame p)%nat) →
  (limit ≤ length (seq cur (last_ - cur) ++ chain_addrs next))%nat →
  max_frame_size_loop limit fmem next cur last_ acc
  = Returned (max_size fmem (take limit (seq cur (last_ - cur) ++ chain_addrs next)) acc).
Proof.
  induction limit as [|limit IH]; intros next cur last_ acc Hne Hlen; [done|].
  assert (∀ m a, (if m <? size (fmem a) then size (fmem a) else m)
                 = Z.max m (size (fmem a))) as Hmax.
  { intros m a. destruct (Z.ltb_spec m (size (fmem a))); lia. }
  cbn [max_frame_size_loop].
  destruct (decide (last_ ≤ cur)%nat) as [Hend|Hin].
  - replace (last_ - cur)%nat with 0%nat in * by lia. simpl in Hlen |- *.
    destruct next as [|p next]; [simpl in Hlen; lia|].
    pose proof (Hne p ltac:(by left)) as Hp.
    rewrite chain_addrs_cons in Hlen |- *. unfold part_addrs in Hlen |- *.
    replace (last_frame p - first_frame p)%nat
      with (S (last_frame p - S (first_frame p))) in Hlen |- * by lia.
    simpl in Hlen |- *. rewrite Hmax. apply IH; [|lia].
    intros q Hq. apply Hne. by right.
  - replace (last_ - cur)%nat with (S (last_ - S cur)) in Hlen |- * by lia.
    simpl in Hlen |- *. rewrite Hmax. apply IH; [done|lia].
Qed.

(** ** Memory lemmas *)

Lemma mem_load_length m p n bytes :
  mem_load m p n = Some bytes → length bytes = n.
Proof.
  unfold mem_load. destruct (m !! p.1) as [b|]; [|done].
  case_decide; [|done]. intros [= <-].
  rewrite length_take, length_drop. lia.
Qed.

Lemma mem_store_is_Some m p n bytes old :
  mem_load m p n = Some old → length bytes = n → is_Some (mem_store m p bytes).
Proof.
  unfold mem_load, mem_store. destruct (m !! p.1) as [b|]; [|done].
  case_decide; [|done]. intros _ ->. rewrite decide_True by done. eauto.
Qed.

Lemma mem_store_load m p bytes m' :
  mem_store m p bytes = Some m' → mem_load m' p (length bytes) = Some bytes.
Proof.
  unfold mem_load, mem_store. destruct (m !! p.1) as [b|] eqn:Hb; [|done].
  case_decide as Hlen; [|done]. intros [= <-].
  rewrite list_lookup_insert_eq by by eapply lookup_lt_Some.
  rewrite !length_app, length_take, length_drop.
  rewrite decide_True by lia. f_equal.
  rewrite drop_app_length' by (rewrite length_take; lia).
  by rewrite take_app_length.
Qed.

(** Writing back what was read undoes any write of the same extent. *)
Lemma mem_store_restore m p n old bytes m1 m2 :
  mem_load m p n = Some old → length bytes = n →
  mem_store m p bytes = Some m1 → mem_store m1 p old = Some m2 → m2 = m.
Proof.
  unfold mem_load, mem_store. destruct (m !! p.1) as [b|] eqn:Hb; [|done].
  case_decide as Hlen; [|done]. intros [= <-] Hbytes.
  rewrite decide_True by lia. intros [= <-].
  rewrite list_lookup_insert_eq by by eapply lookup_lt_Some.
  rewrite !length_app, !length_take, !length_drop.
  case_decide; [|done]. intros [= <-].
  rewrite list_insert_insert_eq. apply list_insert_id. rewrite Hb. f_equal.
  replace (n `min` (length b - p.2))%nat with n by lia.
  rewrite take_app_length' by (rewrite length_take; lia).
  rewrite (app_assoc (take p.2 b) bytes).
  rewrite drop_app_length' by (rewrite length_app, length_take; lia).
  subst n. rewrite <- drop_drop. by rewrite !take_drop.
Qed.

(** ** thumb_grabber_decode_frame *)

(** The packet built for the frame under the cursor. *)
Definition frame_packet (fmem : frame_mem) (state : thumb_grabber_state_t)
    (buffer : pointer) : av_packet :=
  let frame := fmem (cur_frame state) in
  mk_packet (Some buffer) (int32 (size frame)) (int64 (dts state))
    (int64 (uint64 (dts state + pts_delay frame))) (duration frame)
    (key_frame frame).

(** Where the frame's bytes end in [buffer]. *)
Definition frame_end (fmem : frame_mem) (state : thumb_grabber_state_t)
    (buffer : pointer) : pointer :=
  ptr_add buffer (Z.to_nat (size (fmem (cur_frame state)))).

(** The world after a decode call that was shown memory [m_call] and
    leaves memory [m_after]. *)
Definition after_decode (w : world) (frame : option nat) (pkt : av_packet)
    (m_call m_after : memory) (avrc : Z) (got_frame : bool)
    (rest : list (Z * bool)) : world :=
  mk_world m_after (EvDecode frame pkt m_call avrc got_frame :: w_trace w)
    (w_start_frame w) (w_alloc w) (w_cleanup w) (w_av_alloc w) (w_av_open w)
    rest (w_encode w) (w_write w).

Definition count_missing (got_frame : bool) (state : thumb_grabber_state_t)
    : thumb_grabber_state_t :=
  if got_frame then state
  else set_missing_frames (uint32 (missing_frames state + 1)) state.

Definition advance_dts (fmem : frame_mem) (state : thumb_grabber_state_t)
    : thumb_grabber_state_t :=
  set_dts (uint64 (dts state + duration (fmem (cur_frame state)))) state.

Lemma decode_frame_spec pad fmem state buffer w avrc got_frame rest original :
  w_decode w = (avrc, got_frame) :: rest →
  mem_load (w_mem w) (frame_end fmem state buffer) pad = Some original →
  ∃ m_zero,
    vod_memzero (w_mem w) (frame_end fmem state buffer) pad = Some m_zero ∧
    thumb_grabber_decode_frame pad fmem state buffer w
    = Returned
        (if avrc <? 0
         then (VOD_BAD_DATA, advance_dts fmem state,
               after_decode w (Some (cur_frame state))
                 (frame_packet fmem state buffer) m_zero m_zero avrc got_frame rest)
         else (VOD_OK, count_missing got_frame (advance_dts fmem state),
               after_decode w (Some (cur_frame state))
                 (frame_packet fmem state buffer) m_zero (w_mem w) avrc got_frame rest)).
Proof.
  intros Hdec Hload.
  destruct (mem_store_is_Some _ _ _ (replicate pad x00) _ Hload) as [m_zero Hzero];
    [by rewrite length_replicate|].
  exists m_zero. split; [done|].
  unfold thumb_grabber_decode_frame. fold (frame_end fmem state buffer).
  rewrite Hload. unfold vod_memzero. rewrite Hzero.
  unfold call_decode. simpl. rewrite Hdec. simpl.
  destruct (avrc <? 0); [done|].
  pose proof (mem_load_length _ _ _ _ Hload) as Hlen.
  destruct (mem_store_is_Some m_zero (frame_end fmem state buffer) pad original
              (replicate pad x00)) as [m_back Hback]; [|done|].
  { pose proof (mem_store_load _ _ _ _ Hzero) as Hz.
    by rewrite length_replicate in Hz. }
  rewrite Hback.
  rewrite (mem_store_restore _ _ _ _ _ _ _ Hload (length_replicate _ _) Hzero Hback).
  unfold count_missing, advance_dts. by destruct got_frame.
Qed.

Lemma decode_frame_Returned pad fmem state buffer w rc state' w' :
  thumb_grabber_decode_frame pad fmem state buffer w = Returned (rc, state', w') →
  ∃ avrc got_frame rest original m_zero,
    w_decode w = (avrc, got_frame) :: rest ∧
    mem_load (w_mem w) (frame_end fmem state buffer) pad = Some original ∧
    vod_memzero (w_mem w) (frame_end fmem state buffer) pad = Some m_zero ∧
    (rc, state', w')
    = (if avrc <? 0
       then (VOD_BAD_DATA, advance_dts fmem state,
             after_decode w (Some (cur_frame state))
               (frame_packet fmem state buffer) m_zero m_zero avrc got_frame rest)
       else (VOD_OK, count_missing got_frame (advance_dts fmem state),
             after_decode w (Some (cur_frame state))
               (frame_packet fmem state buffer) m_zero (w_mem w) avrc got_frame rest)).
Proof.
  intros Hrun.
  destruct (mem_load (w_mem w) (frame_end fmem state buffer) pad) as [original|] eqn:Hload.
  - destruct (w_decode w) as [|[avrc got_frame] rest] eqn:Hdec.
    + exfalso. revert Hrun. unfold thumb_grabber_decode_frame.
      fold (frame_end fmem state buffer). rewrite Hload.
      destruct (vod_memzero _ _ _); [|done].
      unfold call_decode. simpl. by rewrite Hdec.
    + destruct (decode_frame_spec pad fmem state buffer w avrc got_frame rest original
                  Hdec Hload) as (m_zero & Hzero & Heq).
      rewrite Heq in Hrun. injection Hrun as Hrun.
      exists avrc, got_frame, rest, original, m_zero. done.
  - exfalso. revert Hrun. unfold thumb_grabber_decode_frame.
    fold (frame_end fmem state buffer). by rewrite Hload.
Qed.

(** ** thumb_grabber_decode_flush and thumb_grabber_write_frame *)

(** A flush call: the decoder is given the empty packet. *)
Definition flush_event (m : memory) (a : Z * bool) : event :=
  EvDecode None empty_packet m a.1 a.2.

(** The world after the flush calls answered by [answers], in this order. *)
Definition after_flush (w : world) (answers rest : list (Z * bool)) : world :=
  mk_world (w_mem w) (rev (flush_event (w_mem w) <$> answers) ++ w_trace w)
    (w_start_frame w) (w_alloc w) (w_cleanup w) (w_av_alloc w) (w_av_open w)
    rest (w_encode w) (w_write w).

(** The decoder emits a buffered picture. *)
Definition emits_picture (a : Z * bool) : Prop := 0 ≤ a.1 ∧ a.2 = true.

Lemma after_flush_nil w : after_flush w [] (w_decode w) = w.
Proof. by destruct w. Qed.

Lemma set_missing_frames_same state :
  set_missing_frames (missing_frames state) state = state.
Proof. by destruct state. Qed.

Lemma decode_flush_loop_ok good : ∀ fuel state w rest,
  w_decode w = good ++ rest → Forall emits_picture good →
  missing_frames state = Z.of_nat (length good) → (length good ≤ fuel)%nat →
  decode_flush_loop fuel state w
  = Returned (VOD_OK, set_missing_frames 0 state, after_flush w good rest).
Proof.
  induction good as [|[avrc got] good IH]; intros fuel state w rest Hdec Hok Hn Hfuel.
  - simpl in *. rewrite <- Hdec, after_flush_nil.
    assert (set_missing_frames 0 state = state) as ->.
    { rewrite <- (set_missing_frames_same state) at 2. by rewrite Hn. }
    by destruct fuel; simpl; rewrite Hn.
  - destruct fuel as [|fuel]; [simpl in Hfuel; lia|].
    apply Forall_cons in Hok as [[Havrc Hgot] Hok]. simpl in Havrc, Hgot. subst got.
    cbn [decode_flush_loop]. rewrite Hn.
    replace (0 <? Z.of_nat (length ((avrc, true) :: good))) with true
      by (symmetry; apply Z.ltb_lt; simpl; lia).
    unfold call_decode. rewrite Hdec. simpl.
    replace (avrc <? 0) with false by (symmetry; apply Z.ltb_ge; lia).
    rewrite (IH _ _ _ rest); simpl; [|done|done|lia|simpl in Hfuel; lia].
    f_equal. f_equal. unfold after_flush. simpl. by rewrite <- app_assoc.
Qed.

Lemma decode_flush_loop_bad good : ∀ fuel state w avrc got rest,
  w_decode w = good ++ (avrc, got) :: rest → Forall emits_picture good →
  ¬ emits_picture (avrc, got) →
  (Z.of_nat (length good) < missing_frames state) → (length good < fuel)%nat →
  decode_flush_loop fuel state w
  = Returned (if avrc <? 0 then VOD_BAD_DATA else VOD_UNEXPECTED,
              set_missing_frames (missing_frames state - Z.of_nat (length good)) state,
              after_flush w (good ++ [(avrc, got)]) rest).
Proof.
  induction good as [|[avrc' got'] good IH];
    intros fuel state w avrc got rest Hdec Hok Hbad Hn Hfuel;
    (destruct fuel as [|fuel]; [simpl in Hfuel; lia|]); cbn [decode_flush_loop].
  - simpl in Hn. replace (0 <? missing_frames state) with true
      by (symmetry; apply Z.ltb_lt; lia).
    unfold call_decode. rewrite Hdec. simpl. rewrite Z.sub_0_r, set_missing_frames_same.
    destruct (Z.ltb_spec avrc 0); [done|].
    destruct got; [|done]. exfalso. apply Hbad. by split.
  - apply Forall_cons in Hok as [[Havrc Hgot] Hok]. simpl in Havrc, Hgot. subst got'.
    replace (0 <? missing_frames state) with true
      by (symmetry; apply Z.ltb_lt; simpl in Hn; lia).
    unfold call_decode. rewrite Hdec. simpl.
    replace (avrc' <? 0) with false by (symmetry; apply Z.ltb_ge; lia).
    rewrite (IH _ _ _ avrc got rest); simpl; [|done|done|done|simpl in Hn; lia|simpl in Hfuel; lia].
    f_equal. f_equal; [f_equal|].
    + unfold set_missing_frames. simpl. f_equal. simpl in Hn. lia.
    + unfold after_flush. simpl. by rewrite <- !app_assoc.
Qed.

Lemma write_frame_flush_ok state w good rest :
  (0 < length good)%nat → missing_frames state = Z.of_nat (length good) →
  w_decode w = good ++ rest → Forall emits_picture good →
  thumb_grabber_write_frame state w
  = write_frame_encode (set_missing_frames 0 state) (after_flush w good rest).
Proof.
  intros Hpos Hn Hdec Hok. unfold thumb_grabber_write_frame.
  replace (0 <? missing_frames state) with true by (symmetry; apply Z.ltb_lt; lia).
  unfold thumb_grabber_decode_flush.
  rewrite (decode_flush_loop_ok good _ _ _ rest); [done|done|done|done|lia].
Qed.

Lemma write_frame_flush_bad state w good avrc got rest :
  Z.of_nat (length good) < missing_frames state →
  w_decode w = good ++ (avrc, got) :: rest → Forall emits_picture good →
  ¬ emits_picture (avrc, got) →
  thumb_grabber_write_frame state w
  = Returned (if avrc <? 0 then VOD_BAD_DATA else VOD_UNEXPECTED,
              set_missing_frames (missing_frames state - Z.of_nat (length good)) state,
              after_flush w (good ++ [(avrc, got)]) rest).
Proof.
  intros Hn Hdec Hok Hbad. unfold thumb_grabber_write_frame.
  replace (0 <? missing_frames state) with true by (symmetry; apply Z.ltb_lt; lia).
  unfold thumb_grabber_decode_flush.
  rewrite (decode_flush_loop_bad good _ _ _ avrc got rest); [|done|done|done|done|lia].
  by destruct (avrc <? 0).
Qed.

(** C4: a decode call that succeeds without a picture adds one to the
    pending-latency count and returns VOD_OK; when the target frame is
    written with [n > 0] pending, exactly [n] flush calls (empty packet)
    are made and only then the encoder is invoked; a flush call that
    reports an error ends the run with VOD_BAD_DATA, one that succeeds
    without a picture ends it with VOD_UNEXPECTED, in both cases without
    reaching the encoder. *)
Theorem latency_counted_then_flushed_before_encode pad fmem :
  (∀ state buffer w avrc rest original,
     w_decode w = (avrc, false) :: rest → 0 ≤ avrc →
     0 ≤ missing_frames state → missing_frames state + 1 < 2 ^ 32 →
     mem_load (w_mem w) (frame_end fmem state buffer) pad = Some original →
     ∃ state' w',
       thumb_grabber_decode_frame pad fmem state buffer w = Returned (VOD_OK, state', w') ∧
       missing_frames state' = missing_frames state + 1) ∧
  (∀ state w good rest,
     (0 < length good)%nat → missing_frames state = Z.of_nat (length good) →
     w_decode w = good ++ rest → Forall emits_picture good →
     thumb_grabber_write_frame state w
     = write_frame_encode (set_missing_frames 0 state) (after_flush w good rest) ∧
     w_trace (after_flush w good rest)
     = rev (flush_event (w_mem w) <$> good) ++ w_trace w) ∧
  (∀ state w good avrc got rest,
     Z.of_nat (length good) < missing_frames state →
     w_decode w = good ++ (avrc, got) :: rest → Forall emits_picture good →
     ¬ emits_picture (avrc, got) →
     ∃ state',
       thumb_grabber_write_frame state w
       = Returned (if avrc <? 0 then VOD_BAD_DATA else VOD_UNEXPECTED, state',
                   after_flush w (good ++ [(avrc, got)]) rest) ∧
       w_trace (after_flush w (good ++ [(avrc, got)]) rest)
       = rev (flush_event (w_mem w) <$> good ++ [(avrc, got)]) ++ w_trace w).
Proof.
  split; [|split].
  - intros state buffer w avrc rest original Hdec Havrc Hm0 Hm1 Hload.
    destruct (decode_frame_spec pad fmem state buffer w avrc false rest original
                Hdec Hload) as (m_zero & _ & ->).
    replace (avrc <? 0) with false by (symmetry; apply Z.ltb_ge; lia).
    do 2 eexists. split; [done|]. simpl. unfold uint32.
    apply Z.mod_small. lia.
  - intros state w good rest Hpos Hn Hdec Hok. split; [|done].
    by apply write_frame_flush_ok.
  - intros state w good avrc got rest Hn Hdec Hok Hbad.
    eexists. split; [|done]. by apply write_frame_flush_bad.
Qed.

(** C6 (the error path): when the decoder reports an error,
    [thumb_grabber_decode_frame] returns VOD_BAD_DATA with the safety
    margin after the frame still zeroed: the bytes it held on entry are
    not written back. *)
Theorem decode_error_leaves_margin_zeroed pad fmem state buffer w avrc got_frame rest original :
  w_decode w = (avrc, got_frame) :: rest → avrc < 0 →
  mem_load (w_mem w) (frame_end fmem state buffer) pad = Some original →
  ∃ state' w',
    thumb_grabber_decode_frame pad fmem state buffer w
    = Returned (VOD_BAD_DATA, state', w') ∧
    mem_load (w_mem w') (frame_end fmem state buffer) pad = Some (replicate pad x00).
Proof.
  intros Hdec Havrc Hload.
  destruct (decode_frame_spec pad fmem state buffer w avrc got_frame rest original
              Hdec Hload) as (m_zero & Hzero & ->).
  replace (avrc <? 0) with true by (symmetry; apply Z.ltb_lt; lia).
  do 2 eexists. split; [done|]. simpl.
  pose proof (mem_store_load _ _ _ _ Hzero) as Hz.
  by rewrite length_replicate in Hz.
Qed.

(** On the other return path the margin is restored: a decode call that
    reports no error leaves the memory as it was on entry. *)
Lemma decode_success_restores_margin pad fmem state buffer w state' w' :
  thumb_grabber_decode_frame pad fmem state buffer w = Returned (VOD_OK, state', w') →
  w_mem w' = w_mem w.
Proof.
  intros Hrun.
  destruct (decode_frame_Returned _ _ _ _ _ _ _ _ Hrun)
    as (avrc & got & rest & original & m_zero & _ & _ & _ & Heq).
  destruct (avrc <? 0); by simplify_eq.
Qed.

(** ** Deliveries in a run of [thumb_grabber_process] *)

(** Calls other than the encoder and the delivery callback. *)
Definition quiet (e : event) : Prop :=
  match e with
  | EvEncode _ _ _ | EvWrite _ _ => False
  | _ => True
  end.

(** The number of invocations of the delivery callback in a trace. *)
Fixpoint count_writes (tr : list event) : nat :=
  match tr with
  | [] => 0
  | EvWrite _ _ :: tr' => S (count_writes tr')
  | _ :: tr' => count_writes tr'
  end.

(** What a run that returns [rc] has added to the trace (latest first):
    no encoder call at all and a failure; or a failed encoder call as the
    last thing done; or one delivery of the encoder's packet, answered
    [rc], as the last thing done. *)
Definition delivery_shape (rc : vod_status_t) (new : list event) : Prop :=
  (Forall quiet new ∧ rc ≠ VOD_OK) ∨
  (∃ avrc got packet rest,
     new = EvEncode avrc got packet :: rest ∧ Forall quiet rest ∧
     rc = VOD_UNEXPECTED ∧ (avrc < 0 ∨ got = false)) ∨
  (∃ avrc packet rest,
     new = EvWrite packet rc :: EvEncode avrc true packet :: rest ∧
     Forall quiet rest ∧ 0 ≤ avrc).

Lemma count_writes_quiet tr : Forall quiet tr → count_writes tr = 0%nat.
Proof.
  induction 1 as [|e tr He _ IH]; [done|]. by destruct e.
Qed.

Lemma delivery_shape_app rc new old :
  delivery_shape rc new → Forall quiet old → delivery_shape rc (new ++ old).
Proof.
  intros [[Hq Hrc]|[(avrc & got & packet & rest & -> & Hq & Hrc & Hbad)
                   |(avrc & packet & rest & -> & Hq & Havrc)]] Hold.
  - left. split; [by apply Forall_app|done].
  - right. left. exists avrc, got, packet, (rest ++ old).
    repeat split; auto. by apply Forall_app.
  - right. right. exists avrc, packet, (rest ++ old).
    repeat split; auto. by apply Forall_app.
Qed.

Lemma decode_flush_loop_trace fuel : ∀ state w rc state' w',
  decode_flush_loop fuel state w = Returned (rc, state', w') →
  ∃ new, w_trace w' = new ++ w_trace w ∧ Forall quiet new ∧
         (rc ≠ VOD_OK → rc = VOD_BAD_DATA ∨ rc = VOD_UNEXPECTED) ∧
         w_encode w' = w_encode w ∧ w_write w' = w_write w.
Proof.
  induction fuel as [|fuel IH]; intros state w rc state' w'; simpl.
  - destruct (0 <? missing_frames state); [done|]. intros [= <- <- <-].
    exists []. repeat split; auto. done.
  - destruct (0 <? missing_frames state).
    + unfold call_decode. destruct (w_decode w) as [|[avrc got] rest]; [done|].
      destruct (avrc <? 0).
      * intros [= <- <- <-]. eexists [_]. simpl. repeat split; auto.
        repeat constructor.
      * destruct got; simpl.
        -- intros Hrun. destruct (IH _ _ _ _ _ Hrun) as (new & Htr & Hq & Hrc & He & Hw).
           simpl in *. exists (new ++ [EvDecode None empty_packet (w_mem w) avrc true]).
           rewrite <- app_assoc. repeat split; auto.
           apply Forall_app. split; [done|]. repeat constructor.
        -- intros [= <- <- <-]. eexists [_]. simpl. repeat split; auto.
           repeat constructor.
    + intros [= <- <- <-]. exists []. repeat split; auto. done.
Qed.

Lemma write_frame_encode_trace state w rc state' w' :
  write_frame_encode state w = Returned (rc, state', w') →
  ∃ new, w_trace w' = new ++ w_trace w ∧ delivery_shape rc new ∧
         (∃ e rest, new = e :: rest ∧ ¬ quiet e).
Proof.
  unfold write_frame_encode, call_encode.
  destruct (w_encode w) as [|[[avrc got] packet] rest]; [done|].
  destruct (Z.ltb_spec avrc 0).
  - intros [= <- <- <-]. eexists [_]. simpl. split; [done|]. split; [|eauto].
    right. left. exists avrc, got, packet, []. repeat split; auto.
  - destruct got; simpl.
    + unfold call_write. simpl. destruct (w_write w) as [|rc' rest']; [done|].
      intros [= <- <- <-]. eexists [_; _]. simpl. split; [done|]. split; [|eauto].
      right. right. exists avrc, packet, []. repeat split; auto.
    + intros [= <- <- <-]. eexists [_]. simpl. split; [done|]. split; [|eauto].
      right. left. exists avrc, false, packet, []. repeat split; auto.
Qed.

Lemma write_frame_trace state w rc state' w' :
  thumb_grabber_write_frame state w = Returned (rc, state', w') →
  ∃ new, w_trace w' = new ++ w_trace w ∧ delivery_shape rc new.
Proof.
  unfold thumb_grabber_write_frame.
  destruct (0 <? missing_frames state).
  - unfold thumb_grabber_decode_flush.
    destruct (decode_flush_loop _ state w) as [[[rc1 state1] w1]| |] eqn:Hflush; [|done|done].
    destruct (decode_flush_loop_trace _ _ _ _ _ _ Hflush) as (new1 & Htr1 & Hq1 & Hrc1 & _).
    case_bool_decide as Hne.
    + intros [= <- <- <-]. exists new1. split; [done|]. left. split; [done|done].
    + intros Hrun. destruct (write_frame_encode_trace _ _ _ _ _ Hrun) as (new & Htr & Hshape & _).
      exists (new ++ new1). rewrite Htr, Htr1, app_assoc. split; [done|].
      by apply delivery_shape_app.
  - intros Hrun. destruct (write_frame_encode_trace _ _ _ _ _ Hrun) as (new & Htr & Hshape & _).
    by exists new.
Qed.

(** What one step of the loop adds: a step that continues is quiet. *)
Definition step_shape (o : option vod_status_t) (new : list event) : Prop :=
  match o with
  | None => Forall quiet new
  | Some rc => delivery_shape rc new
  end.

Lemma process_start_frame_trace state w o state' w' :
  process_start_frame state w = Returned (o, state', w') →
  ∃ new, w_trace w' = new ++ w_trace w ∧ Forall quiet new ∧
         (∀ rc, o = Some rc → rc ≠ VOD_OK).
Proof.
  unfold process_start_frame. destruct (frame_started state).
  - intros [= <- <- <-]. exists []. split; [done|]. split; [constructor|].
    intros rc [=].
  - destruct (if decide _ then _ else _) as [state1|]; [|done].
    unfold call_start_frame. destruct (w_start_frame w) as [|rc rest]; [done|].
    case_bool_decide as Hrc; intros [= <- <- <-]; eexists [_]; simpl;
      (split; [done|]); (split; [repeat constructor|]); intros rc' [= <-]; done.
Qed.

Lemma process_decode_trace pad fmem state buffer w o state' w' :
  process_decode pad fmem state buffer w = Returned (o, state', w') →
  ∃ new, w_trace w' = new ++ w_trace w ∧ step_shape o new.
Proof.
  unfold process_decode.
  destruct (thumb_grabber_decode_frame pad fmem state buffer w)
    as [[[rc1 state1] w1]| |] eqn:Hdec; [|done|done].
  destruct (decode_frame_Returned _ _ _ _ _ _ _ _ Hdec)
    as (avrc & got & rest & original & m_zero & _ & _ & _ & Heq).
  assert (w_trace w1 = [EvDecode (Some (cur_frame state))
                          (frame_packet fmem state buffer) m_zero avrc got]
                       ++ w_trace w ∧ (rc1 ≠ VOD_OK → rc1 = VOD_BAD_DATA)) as [Htr1 Hrc1].
  { destruct (avrc <? 0); by simplify_eq. }
  case_bool_decide as Hne.
  - intros [= <- <- <-]. eexists. split; [done|]. left. split; [|done].
    repeat constructor.
  - destruct (skip_count state1 <=? 0).
    + destruct (thumb_grabber_write_frame state1 w1) as [[[rc2 state2] w2]| |] eqn:Hwr;
        [|done|done].
      intros [= <- <- <-].
      destruct (write_frame_trace _ _ _ _ _ Hwr) as (new & Htr & Hshape).
      eexists. rewrite Htr, Htr1, app_assoc. split; [done|].
      apply delivery_shape_app; [done|]. repeat constructor.
    + intros [= <- <- <-]. eexists. split; [done|]. repeat constructor.
Qed.

Lemma process_read_trace pad fmem processed_data state w r o state' w' :
  process_read pad fmem processed_data state w r = Returned (o, state', w') →
  ∃ new, w_trace w' = new ++ w_trace w ∧ step_shape o new.
Proof.
  unfold process_read.
  case_bool_decide as Hrc.
  - assert (∀ rc, rc ≠ VOD_OK → step_shape (Some rc)
              [EvRead (frames_source (cur_frame_part state)) r]) as Hshape.
    { intros rc Hne. left. split; [|done]. repeat constructor. }
    case_bool_decide as Hagain.
    + intros [= <- <- <-]. eexists [_]. split; [done|]. by apply Hshape.
    + destruct (negb processed_data && negb (first_time state));
        intros [= <- <- <-]; eexists [_]; (split; [done|]); by apply Hshape.
  - unfold source_buffer. simpl.
    destruct (r_done r); simpl.
    + case_bool_decide as Hpos.
      * destruct (frame_buffer state) as [fb|]; [|done].
        destruct (vod_memcpy _ _ _ _) as [m|]; [|done].
        intros Hrun. destruct (process_decode_trace _ _ _ _ _ _ _ _ Hrun)
          as (new & Htr & Hshape).
        exists (new ++ [EvRead (frames_source (cur_frame_part state)) r]).
        rewrite <- app_assoc. split; [done|].
        destruct o; simpl in *.
        -- apply delivery_shape_app; [done|]. repeat constructor.
        -- apply Forall_app. split; [done|]. repeat constructor.
      * intros Hrun. destruct (process_decode_trace _ _ _ _ _ _ _ _ Hrun)
          as (new & Htr & Hshape).
        exists (new ++ [EvRead (frames_source (cur_frame_part state)) r]).
        rewrite <- app_assoc. split; [done|].
        destruct o; simpl in *.
        -- apply delivery_shape_app; [done|]. repeat constructor.
        -- apply Forall_app. split; [done|]. repeat constructor.
    + destruct (frame_buffer state) as [fb|] eqn:Hfb.
      * rewrite Hfb. destruct (vod_memcpy _ _ _ _) as [m|]; [|done].
        intros [= <- <- <-]. eexists [_]. split; [done|]. repeat constructor.
      * unfold call_alloc. simpl. destruct (w_alloc w) as [|a rest]; [done|].
        destruct a as [garbage|]; simpl.
        -- destruct (vod_memcpy _ _ _ _) as [m|]; [|done].
           intros [= <- <- <-]. eexists [_; _]. split; [done|]. repeat constructor.
        -- intros [= <- <- <-]. eexists [_; _]. split; [done|].
           left. split; [|done]. repeat constructor.
Qed.

Lemma process_loop_trace pad fmem reads : ∀ processed_data state w rc state' w' reads',
  process_loop pad fmem reads processed_data state w = Returned (rc, state', w', reads') →
  ∃ new, w_trace w' = new ++ w_trace w ∧ delivery_shape rc new.
Proof.
  induction reads as [|r reads IH]; intros processed_data state w rc state' w' reads';
    cbn [process_loop];
    destruct (process_start_frame state w) as [[[o1 state1] w1]| |] eqn:Hstart;
    try done;
    destruct (process_start_frame_trace _ _ _ _ _ Hstart) as (new1 & Htr1 & Hq1 & Hrc1);
    (destruct o1 as [rc1|];
     [intros [= <- <- <- <-]; exists new1; split; [done|]; left; split; [done|by apply Hrc1]|]);
    [done|].
  destruct (process_read pad fmem processed_data state1 w1 r)
    as [[[o2 state2] w2]| |] eqn:Hread; [|done|done].
  destruct (process_read_trace _ _ _ _ _ _ _ _ _ Hread) as (new2 & Htr2 & Hshape2).
  destruct o2 as [rc2|].
  - intros [= <- <- <- <-]. exists (new2 ++ new1).
    rewrite Htr2, Htr1, app_assoc. split; [done|]. by apply delivery_shape_app.
  - intros Hrun. destruct (IH _ _ _ _ _ _ _ Hrun) as (new & Htr & Hshape).
    exists (new ++ new2 ++ new1). rewrite Htr, Htr2, Htr1, !app_assoc.
    split; [done|]. rewrite <- app_assoc. apply delivery_shape_app; [done|].
    by apply Forall_app.
Qed.

(** ** The byte source reports "again" *)

Lemma process_read_again pad fmem processed_data state w r :
  r_rc r = VOD_AGAIN →
  process_read pad fmem processed_data state w r
  = Returned (if negb processed_data && negb (first_time state)
              then (Some VOD_BAD_DATA, state,
                    log (EvRead (frames_source (cur_frame_part state)) r) w)
              else (Some VOD_AGAIN, set_first_time false state,
                    log (EvRead (frames_source (cur_frame_part state)) r) w)).
Proof.
  intros Hrc. unfold process_read. rewrite Hrc.
  rewrite bool_decide_true by done. rewrite bool_decide_false by naive_solver.
  by destruct (negb processed_data && negb (first_time state)).
Qed.

(** The iterations of the loop of [thumb_grabber_process] that end in
    [continue]: from [state] and [w], the answers [rs] of the byte source
    are consumed, one by each iteration, and leave [state'] and [w'].
    The flag is [processed_data] as the first of them finds it. *)
Inductive loop_continues (pad : nat) (fmem : frame_mem)
  : bool → thumb_grabber_state_t → world → list read_answer
    → thumb_grabber_state_t → world → Prop :=
| continues_done processed_data state w :
    loop_continues pad fmem processed_data state w [] state w
| continues_more processed_data state w state0 w0 r state1 w1 rs state' w' :
    process_start_frame state w = Returned (None, state0, w0) →
    process_read pad fmem processed_data state0 w0 r = Returned (None, state1, w1) →
    loop_continues pad fmem true state1 w1 rs state' w' →
    loop_continues pad fmem processed_data state w (r :: rs) state' w'.

(** The loop, run over such answers, goes on from where they leave it,
    with [processed_data] set once one of them was consumed. *)
Lemma loop_continues_run pad fmem processed_data state w rs state' w' rest :
  loop_continues pad fmem processed_data state w rs state' w' →
  process_loop pad fmem (rs ++ rest) processed_data state w
  = process_loop pad fmem rest (processed_data || bool_decide (rs ≠ [])) state' w'.
Proof.
  induction 1 as [pd state w|pd state w state0 w0 r state1 w1 rs state' w'
                   Hstart Hread _ IH].
  - by rewrite orb_false_r.
  - rewrite <- app_comm_cons. cbn [process_loop]. rewrite Hstart, Hread, IH.
    rewrite (bool_decide_true (r :: rs ≠ [])) by done.
    by rewrite orb_true_r.
Qed.





(** ** What the steps of the engine leave unchanged *)

(** The calls made once the target frame is decoded. *)
Definition engine_tail (e : event) : Prop :=
  match e with
  | EvDecode None _ _ _ _ | EvEncode _ _ _ | EvWrite _ _ => True
  | _ => False
  end.

(** The world but for its trace and the answers left to the codec and the
    callback. *)
Definition same_surroundings (w w' : world) : Prop :=
  w_mem w' = w_mem w ∧ w_alloc w' = w_alloc w ∧ w_start_frame w' = w_start_frame w.

Lemma decode_flush_loop_frame fuel : ∀ state w rc state' w',
  decode_flush_loop fuel state w = Returned (rc, state', w') →
  ∃ y new, state' = set_missing_frames y state ∧
           w_trace w' = new ++ w_trace w ∧ Forall engine_tail new ∧
           same_surroundings w w'.
Proof.
  induction fuel as [|fuel IH]; intros state w rc state' w'; simpl.
  - destruct (0 <? missing_frames state); [done|]. intros [= <- <- <-].
    exists (missing_frames state), []. by rewrite set_missing_frames_same.
  - destruct (0 <? missing_frames state).
    + unfold call_decode. destruct (w_decode w) as [|[avrc got] rest]; [done|].
      destruct (avrc <? 0).
      * intros [= <- <- <-]. eexists (missing_frames state), [_].
        rewrite set_missing_frames_same. repeat split; auto. repeat constructor.
      * destruct got; simpl.
        -- intros Hrun. destruct (IH _ _ _ _ _ Hrun) as (y & new & -> & Htr & Hq & Hs).
           simpl in *. exists y, (new ++ [EvDecode None empty_packet (w_mem w) avrc true]).
           rewrite <- app_assoc. repeat split; auto; try apply Hs.
           apply Forall_app. split; [done|]. repeat constructor.
        -- intros [= <- <- <-]. eexists (missing_frames state), [_].
           rewrite set_missing_frames_same. repeat split; auto. repeat constructor.
    + intros [= <- <- <-]. exists (missing_frames state), [].
      by rewrite set_missing_frames_same.
Qed.

Lemma write_frame_encode_frame state w rc state' w' :
  write_frame_encode state w = Returned (rc, state', w') →
  ∃ x new, state' = set_output_packet x state ∧
           w_trace w' = new ++ w_trace w ∧ Forall engine_tail new ∧
           same_surroundings w w'.
Proof.
  unfold write_frame_encode, call_encode.
  destruct (w_encode w) as [|[[avrc got] packet] rest]; [done|].
  destruct (avrc <? 0).
  - intros [= <- <- <-]. eexists packet, [_]. repeat split; auto. repeat constructor.
  - destruct got; simpl.
    + unfold call_write. simpl. destruct (w_write w) as [|rc' rest']; [done|].
      intros [= <- <- <-]. eexists packet, [_; _]. repeat split; auto. repeat constructor.
    + intros [= <- <- <-]. eexists packet, [_]. repeat split; auto. repeat constructor.
Qed.

Lemma write_frame_frame state w rc state' w' :
  thumb_grabber_write_frame state w = Returned (rc, state', w') →
  ∃ x y new, state' = set_output_packet x (set_missing_frames y state) ∧
             w_trace w' = new ++ w_trace w ∧ Forall engine_tail new ∧
             same_surroundings w w'.
Proof.
  unfold thumb_grabber_write_frame.
  destruct (0 <? missing_frames state).
  - unfold thumb_grabber_decode_flush.
    destruct (decode_flush_loop _ state w) as [[[rc1 state1] w1]| |] eqn:Hflush; [|done|done].
    destruct (decode_flush_loop_frame _ _ _ _ _ _ Hflush) as (y & new1 & -> & Htr1 & Hq1 & Hs1).
    case_bool_decide as Hne.
    + intros [= <- <- <-]. exists (output_packet state), y, new1. done.
    + intros Hrun. destruct (write_frame_encode_frame _ _ _ _ _ Hrun)
        as (x & new & -> & Htr & Hq & Hs).
      exists x, y, (new ++ new1). rewrite Htr, Htr1, app_assoc.
      repeat split; auto.
      * by apply Forall_app.
      * destruct Hs as (-> & _), Hs1 as (-> & _). done.
      * destruct Hs as (_ & -> & _), Hs1 as (_ & -> & _). done.
      * destruct Hs as (_ & _ & ->), Hs1 as (_ & _ & ->). done.
  - intros Hrun. destruct (write_frame_encode_frame _ _ _ _ _ Hrun)
      as (x & new & -> & Htr & Hq & Hs).
    exists x, (missing_frames state), new. by rewrite set_missing_frames_same.
Qed.

(** [process_decode] decodes the frame under the cursor from [buffer]; it
    either returns, the cursor where it was, or continues on the next
    frame with the memory as it was. *)
Lemma process_decode_frame pad fmem state buffer w o state' w' :
  process_decode pad fmem state buffer w = Returned (o, state', w') →
  ∃ x y z m avrc got tail,
    w_trace w'
    = tail ++ EvDecode (Some (cur_frame state)) (frame_packet fmem state buffer)
                m avrc got :: w_trace w ∧
    vod_memzero (w_mem w) (frame_end fmem state buffer) pad = Some m ∧
    Forall engine_tail tail ∧
    w_alloc w' = w_alloc w ∧ w_start_frame w' = w_start_frame w ∧
    match o with
    | Some _ => state' = set_output_packet x (set_missing_frames y (set_dts z state))
    | None =>
      state' = set_frame_started false
                 (set_cur_frame (S (cur_frame state))
                    (set_skip_count (skip_count state - 1)
                       (set_missing_frames y (set_dts z state)))) ∧
      tail = [] ∧ w_mem w' = w_mem w ∧ 0 < skip_count state
    end.
Proof.
  unfold process_decode.
  destruct (thumb_grabber_decode_frame pad fmem state buffer w)
    as [[[rc1 state1] w1]| |] eqn:Hdec; [|done|done].
  destruct (decode_frame_Returned _ _ _ _ _ _ _ _ Hdec)
    as (avrc & got & rest & original & m_zero & _ & _ & Hzero & Heq).
  assert (∃ y, state1 = set_missing_frames y
                          (set_dts (uint64 (dts state
                                            + duration (fmem (cur_frame state)))) state) ∧
               w_trace w1 = EvDecode (Some (cur_frame state))
                              (frame_packet fmem state buffer) m_zero avrc got
                            :: w_trace w ∧
               w_alloc w1 = w_alloc w ∧ w_start_frame w1 = w_start_frame w ∧
               (rc1 = VOD_OK → w_mem w1 = w_mem w))
    as (y & -> & Htr1 & Hal1 & Hsf1 & Hmem1).
  { destruct (avrc <? 0); simplify_eq.
    - eexists. rewrite set_missing_frames_same. done.
    - destruct got; simpl.
      + eexists. rewrite set_missing_frames_same. done.
      + eexists. done. }
  case_bool_decide as Hne.
  - intros [= <- <- <-]. exists (output_packet state), y,
      (uint64 (dts state + duration (fmem (cur_frame state)))), m_zero, avrc, got, []. simpl.
    rewrite Htr1. repeat split; auto; try reflexivity.
  - simpl. destruct (Z.leb_spec (skip_count state) 0).
    + destruct (thumb_grabber_write_frame _ w1) as [[[rc2 state2] w2]| |] eqn:Hwr;
        [|done|done].
      intros [= <- <- <-].
      destruct (write_frame_frame _ _ _ _ _ Hwr) as (x & y' & new & -> & Htr & Hq & Hs).
      exists x, y',
        (uint64 (dts state + duration (fmem (cur_frame state)))), m_zero, avrc, got, new. rewrite Htr, Htr1.
      destruct Hs as (_ & -> & ->). repeat split; auto; try reflexivity.
    + intros [= <- <- <-]. exists (output_packet state), y,
      (uint64 (dts state + duration (fmem (cur_frame state)))), m_zero, avrc, got, []. simpl.
      rewrite Htr1. repeat split; auto; try reflexivity.
Qed.

(** The world in which a successful read leaves its buffer. *)
Definition after_read (state : thumb_grabber_state_t) (w : world) (r : read_answer)
    : world :=
  set_mem (w_mem w ++ [r_buffer r])
    (log (EvRead (frames_source (cur_frame_part state)) r) w).

(** The pointer a successful read hands out. *)
Definition read_pointer (w : world) : pointer := (length (w_mem w), 0%nat).

Definition scratch_size (pad : nat) (state : thumb_grabber_state_t) : Z :=
  uint32 (max_frame_size state + Z.of_nat pad).

(** The ways through lines 529-601. *)
Lemma process_read_cases pad fmem processed_data state w r o state' w' :
  process_read pad fmem processed_data state w r = Returned (o, state', w') →
  (r_rc r ≠ VOD_OK ∧
   w' = log (EvRead (frames_source (cur_frame_part state)) r) w ∧
   ∃ rc, o = Some rc ∧ rc ≠ VOD_OK ∧
         (state' = state ∨ state' = set_first_time false state)) ∨
  (r_rc r = VOD_OK ∧ r_done r = false ∧
   ∃ w_b,
     (frame_buffer state ≠ None ∧ w_b = after_read state w r ∨
      frame_buffer state = None ∧
      ∃ b, call_alloc (scratch_size pad state) (after_read state w r) = Some (b, w_b) ∧
           match b with
           | None => o = Some VOD_ALLOC_FAILED ∧
                     state' = set_frame_buffer None state ∧ w' = w_b
           | Some _ => o = None
           end) ∧
     (o = None →
      ∃ fb m,
        (frame_buffer state = Some fb ∨
         frame_buffer state = None ∧
         call_alloc (scratch_size pad state) (after_read state w r) = Some (Some fb, w_b)) ∧
        vod_memcpy (w_mem w_b) (ptr_add fb (Z.to_nat (cur_frame_pos state)))
          (read_pointer w) (Z.to_nat (r_size r)) = Some m ∧
        state' = set_cur_frame_pos (uint32 (cur_frame_pos state + r_size r))
                   (set_frame_buffer (Some fb) state) ∧
        w' = set_mem m w_b) ∧
     (∀ rc, o = Some rc → rc = VOD_ALLOC_FAILED ∧ frame_buffer state = None)) ∨
  (r_rc r = VOD_OK ∧ r_done r = true ∧
   ∃ state_d buffer w_d,
     process_decode pad fmem state_d buffer w_d = Returned (o, state', w') ∧
     (cur_frame_pos state = 0 ∧ state_d = state ∧ buffer = read_pointer w ∧
      w_d = after_read state w r ∨
      cur_frame_pos state ≠ 0 ∧ state_d = set_cur_frame_pos 0 state ∧
      frame_buffer state = Some buffer ∧
      ∃ m, vod_memcpy (w_mem w ++ [r_buffer r])
             (ptr_add buffer (Z.to_nat (cur_frame_pos state)))
             (read_pointer w) (Z.to_nat (r_size r)) = Some m ∧
           w_d = set_mem m (after_read state w r))).
Proof.
  unfold process_read.
  case_bool_decide as Hrc.
  - intros Hrun. left. split; [done|].
    case_bool_decide as Hagain.
    + simplify_eq. split; [done|]. eauto.
    + destruct (negb processed_data && negb (first_time state)); simplify_eq;
        (split; [done|]); eexists; split; [done| |done|]; split; auto; done.
  - unfold source_buffer. simpl.
    fold (after_read state w r). fold (read_pointer w). fold (scratch_size pad state).
    destruct (r_done r); simpl.
    + case_bool_decide as Hpos.
      * destruct (frame_buffer state) as [fb|]; [|done].
        destruct (vod_memcpy _ _ _ _) as [m|] eqn:Hcpy; [|done].
        intros Hrun. right. right. split; [done|]. split; [done|].
        do 3 eexists. split; [done|]. right.
        split; [done|]. split; [done|]. split; [done|]. eauto.
      * intros Hrun. right. right. split; [done|]. split; [done|].
        do 3 eexists. split; [done|]. by left.
    + destruct (frame_buffer state) as [fb|] eqn:Hfb.
      * rewrite Hfb. destruct (vod_memcpy _ _ _ _) as [m|] eqn:Hcpy; [|done].
        intros [= <- <- <-]. right. left. split; [done|]. split; [done|].
        exists (after_read state w r).
        split; [by left|]. split; [|done].
        intros _. exists fb, m. split; [by left|]. split; [done|]. split; [|done].
        f_equal. destruct state; simpl in *; by subst.
      * destruct (call_alloc _ _) as [[b w_b]|] eqn:Halloc; [|done].
        simpl. destruct b as [fb|].
        -- destruct (vod_memcpy _ _ _ _) as [m|] eqn:Hcpy; [|done].
           intros [= <- <- <-]. right. left. split; [done|]. split; [done|].
           exists w_b.
           split; [right; split; [done|]; eexists; split; [done|done]|].
           split; [|done].
           intros _. exists fb, m. split; [by right|]. done.
        -- intros [= <- <- <-]. right. left. split; [done|]. split; [done|].
           exists w_b.
           split; [right; split; [done|]; eexists; split; [done|done]|].
           split; [done|]. intros rc [= <-]. done.
Qed.

(** What lines 507-527 do. *)
Lemma process_start_frame_cases state w o state' w' :
  process_start_frame state w = Returned (o, state', w') →
  (frame_started state = true ∧ o = None ∧ state' = state ∧ w' = w) ∨
  (frame_started state = false ∧
   ∃ state1 rc,
     ((cur_frame state < last_frame (cur_frame_part state))%nat ∧ state1 = state ∨
      (last_frame (cur_frame_part state) ≤ cur_frame state)%nat ∧
      ∃ p next, cur_frame_part_next state = p :: next ∧
                state1 = set_cur_frame (first_frame p)
                           (set_cur_frame_part p next state)) ∧
     w_trace w' = EvStartFrame (frames_source (cur_frame_part state1))
                    (cur_frame state1) rc :: w_trace w ∧
     w_mem w' = w_mem w ∧ w_alloc w' = w_alloc w ∧
     (rc ≠ VOD_OK ∧ o = Some rc ∧ state' = state1 ∨
      rc = VOD_OK ∧ o = None ∧ state' = set_frame_started true state1)).
Proof.
  unfold process_start_frame. destruct (frame_started state) eqn:Hfs.
  - intros [= <- <- <-]. by left.
  - destruct (decide (last_frame (cur_frame_part state) ≤ cur_frame state)%nat) as [Hend|Hin].
    + destruct (cur_frame_part_next state) as [|p next] eqn:Hnext; [done|].
      unfold call_start_frame. destruct (w_start_frame w) as [|rc rest]; [done|].
      case_bool_decide as Hrc; intros [= <- <- <-]; right; (split; [done|]);
        exists (set_cur_frame (first_frame p) (set_cur_frame_part p next state)), rc;
        (split; [right; split; [done|]; eauto|]); simpl; repeat split; auto.
    + unfold call_start_frame. destruct (w_start_frame w) as [|rc rest]; [done|].
      case_bool_decide as Hrc; intros [= <- <- <-]; right; (split; [done|]);
        exists state, rc;
        (split; [left; split; [lia|done]|]); simpl; repeat split; auto.
Qed.

(** ** The frames the engine decodes *)

(** The addresses the cursor has still before it. *)
Definition cursor_addrs (state : thumb_grabber_state_t) : list nat :=
  seq (cur_frame state) (last_frame (cur_frame_part state) - cur_frame state)
  ++ chain_addrs (cur_frame_part_next state).

(** The cursor stands inside the frame list [R], on a frame when a frame
    is being acquired. *)
Definition cursor_within (R : list nat) (state : thumb_grabber_state_t) : Prop :=
  (∀ p, p ∈ cur_frame_part_next state → (first_frame p < last_frame p)%nat) ∧
  (∃ pre, R = pre ++ cursor_addrs state) ∧
  (frame_started state = true →
   (cur_frame state < last_frame (cur_frame_part state))%nat).

(** The frames handed to the decoder, as recorded in a trace. *)
Fixpoint decoded_frames (tr : list event) : list nat :=
  match tr with
  | [] => []
  | EvDecode (Some a) _ _ _ _ :: tr' => a :: decoded_frames tr'
  | _ :: tr' => decoded_frames tr'
  end.

Lemma decoded_frames_app tr1 tr2 :
  decoded_frames (tr1 ++ tr2) = decoded_frames tr1 ++ decoded_frames tr2.
Proof.
  induction tr1 as [|e tr1 IH]; [done|].
  destruct e as [| | | | | | |[a|]| |]; simpl; by rewrite ?IH.
Qed.

Lemma decoded_frames_tail tr : Forall engine_tail tr → decoded_frames tr = [].
Proof.
  induction 1 as [|e tr He _ IH]; [done|].
  by destruct e as [| | | | | | |[a|]| |].
Qed.

Lemma start_frame_within R state w o state' w' :
  cursor_within R state →
  process_start_frame state w = Returned (o, state', w') →
  cursor_within R state' ∧ (o = None → frame_started state' = true) ∧
  decoded_frames (w_trace w') = decoded_frames (w_trace w).
Proof.
  intros Hcw Hrun. pose proof Hcw as (Hne & [pre Hpre] & Hon).
  destruct (process_start_frame_cases _ _ _ _ _ Hrun)
    as [(Hfs & -> & -> & ->)|(Hfs & state1 & rc & Hcur & Htr & _ & _ & Hout)]; [done|].
  assert (cursor_within R state1 ∧
          (cur_frame state1 < last_frame (cur_frame_part state1))%nat ∧
          frame_started state1 = false) as ((Hne1 & Hpre1 & _) & Hin1 & Hfs1).
  { destruct Hcur as [[Hin ->]|(Hend & p & next & Hnext & ->)]; [done|].
    assert (first_frame p < last_frame p)%nat as Hp.
    { apply Hne. rewrite Hnext. by left. }
    split; [|done]. split; [|split]; simpl.
    - intros q Hq. apply Hne. rewrite Hnext. by right.
    - exists pre. rewrite Hpre. unfold cursor_addrs. simpl. rewrite Hnext.
      replace (last_frame (cur_frame_part state) - cur_frame state)%nat
        with 0%nat by lia. done.
    - done. }
  rewrite Htr. simpl.
  destruct Hout as [(_ & -> & ->)|(_ & -> & ->)]; (split; [|done]); done.
Qed.

Lemma process_decode_within pad fmem R state buffer w o state' w' :
  cursor_within R state → frame_started state = true →
  process_decode pad fmem state buffer w = Returned (o, state', w') →
  cursor_within R state' ∧
  ∃ new, w_trace w' = new ++ w_trace w ∧ ∀ a, a ∈ decoded_frames new → a ∈ R.
Proof.
  intros (Hne & [pre Hpre] & Hon) Hfs Hrun. specialize (Hon Hfs).
  destruct (process_decode_frame _ _ _ _ _ _ _ _ Hrun)
    as (x & y & z & m & avrc & got & tail & Htr & _ & Htail & _ & _ & Hst).
  assert (cur_frame state ∈ R) as Hcur.
  { rewrite Hpre. unfold cursor_addrs.
    replace (last_frame (cur_frame_part state) - cur_frame state)%nat
      with (S (last_frame (cur_frame_part state) - S (cur_frame state))) by lia.
    simpl. rewrite !elem_of_app, elem_of_cons. auto. }
  split.
  - destruct o as [rc|].
    + subst state'. by split; [|split; [exists pre|]].
    + destruct Hst as (-> & _). split; [done|]. split; [|done].
      exists (pre ++ [cur_frame state]). rewrite Hpre. unfold cursor_addrs. simpl.
      replace (last_frame (cur_frame_part state) - cur_frame state)%nat
        with (S (last_frame (cur_frame_part state) - S (cur_frame state))) by lia.
      simpl. by rewrite <- app_assoc.
  - eexists (tail ++ [_]). rewrite <- app_assoc. split; [done|].
    intros a. rewrite decoded_frames_app, (decoded_frames_tail _ Htail). simpl.
    by intros ->%list_elem_of_singleton.
Qed.

Lemma process_read_within pad fmem R processed_data state w r o state' w' :
  cursor_within R state → frame_started state = true →
  process_read pad fmem processed_data state w r = Returned (o, state', w') →
  cursor_within R state' ∧
  ∃ new, w_trace w' = new ++ w_trace w ∧ ∀ a, a ∈ decoded_frames new → a ∈ R.
Proof.
  intros Hin Hfs Hrun.
  destruct (process_read_cases _ _ _ _ _ _ _ _ _ Hrun)
    as [(_ & -> & rc & _ & _ & Hst)
       |[(_ & _ & w_b & Hwb & Hcont & Hfail)
        |(_ & _ & state_d & buffer & w_d & Hdec & Hd)]].
  - split; [by destruct Hst as [->| ->]|].
    eexists [_]. split; [done|]. simpl. by intros a ?%elem_of_nil.
  - assert (∃ new, w_trace w_b = new ++ w_trace w ∧ decoded_frames new = [])
      as (new & Htr & Hnew).
    { destruct Hwb as [[_ ->]|(_ & b & Halloc & _)].
      - by eexists [_].
      - revert Halloc. unfold call_alloc. simpl.
        destruct (w_alloc w); [done|]. intros [= <- <-]. by eexists [_; _]. }
    destruct o as [rc|].
    + destruct (Hfail rc eq_refl) as [-> Hnone].
      destruct Hwb as [[Hsome _]|(_ & b & Halloc & Hb)]; [done|].
      destruct b as [fb|]; [done|].
      destruct Hb as (_ & -> & ->). split; [done|].
      exists new. split; [done|]. rewrite Hnew. by intros a ?%elem_of_nil.
    + destruct (Hcont eq_refl) as (fb & m & _ & _ & -> & ->). split; [done|].
      exists new. split; [done|]. rewrite Hnew. by intros a ?%elem_of_nil.
  - assert (cursor_within R state_d ∧ frame_started state_d = true ∧
            w_trace w_d = [EvRead (frames_source (cur_frame_part state)) r] ++ w_trace w)
      as (Hin_d & Hfs_d & Htr_d).
    { destruct Hd as [(_ & -> & _ & ->)|(_ & -> & _ & m & _ & ->)]; done. }
    destruct (process_decode_within _ _ _ _ _ _ _ _ _ Hin_d Hfs_d Hdec)
      as (Hin' & new & Htr & Hnew).
    split; [done|]. eexists (new ++ [_]). rewrite Htr, Htr_d, <- app_assoc.
    split; [done|]. intros a. rewrite decoded_frames_app. simpl.
    rewrite app_nil_r. apply Hnew.
Qed.

Lemma process_loop_within pad fmem R reads : ∀ processed_data state w rc state' w' reads',
  cursor_within R state →
  process_loop pad fmem reads processed_data state w = Returned (rc, state', w', reads') →
  cursor_within R state' ∧
  ∃ new, w_trace w' = new ++ w_trace w ∧ ∀ a, a ∈ decoded_frames new → a ∈ R.
Proof.
  induction reads as [|r reads IH];
    intros processed_data state w rc state' w' reads' Hin;
    cbn [process_loop];
    destruct (process_start_frame state w) as [[[o1 state1] w1]| |] eqn:Hstart;
    try done;
    destruct (start_frame_within _ _ _ _ _ _ Hin Hstart) as (Hin1 & Hfs1 & Hdec1);
    (destruct o1 as [rc1|];
     [intros [= <- <- <- <-]; split; [done|];
      destruct (process_start_frame_trace _ _ _ _ _ Hstart) as (new1 & Htr1 & _);
      exists new1; split; [done|];
      rewrite Htr1, decoded_frames_app in Hdec1;
      apply (f_equal length) in Hdec1; rewrite length_app in Hdec1;
      destruct (decoded_frames new1); [by intros a ?%elem_of_nil|simpl in Hdec1; lia]|]);
    [done|].
  destruct (process_start_frame_trace _ _ _ _ _ Hstart) as (new1 & Htr1 & _).
  assert (decoded_frames new1 = []) as Hnew1.
  { rewrite Htr1, decoded_frames_app in Hdec1.
    apply (f_equal length) in Hdec1. rewrite length_app in Hdec1.
    destruct (decoded_frames new1); [done|simpl in Hdec1; lia]. }
  destruct (process_read pad fmem processed_data state1 w1 r)
    as [[[o2 state2] w2]| |] eqn:Hread; [|done|done].
  destruct (process_read_within _ _ _ _ _ _ _ _ _ _ Hin1 (Hfs1 eq_refl) Hread)
    as (Hin2 & new2 & Htr2 & Hnew2).
  destruct o2 as [rc2|].
  - intros [= <- <- <- <-]. split; [done|]. exists (new2 ++ new1).
    rewrite Htr2, Htr1, app_assoc. split; [done|].
    intros a. rewrite decoded_frames_app, Hnew1, app_nil_r. apply Hnew2.
  - intros Hrun. destruct (IH _ _ _ _ _ _ _ Hin2 Hrun) as (Hin' & new & Htr & Hnew).
    split; [done|]. exists (new ++ new2 ++ new1).
    rewrite Htr, Htr2, Htr1, !app_assoc. split; [done|].
    intros a. rewrite !decoded_frames_app, Hnew1, app_nil_r, elem_of_app.
    intros [?|?]; auto.
Qed.

(** The engine at work: [thumb_grabber_process] invoked again and again
    on the state it left, each time with what the byte source then has. *)
Inductive engine_runs (pad : nat) (fmem : frame_mem)
  : thumb_grabber_state_t → world → thumb_grabber_state_t → world → Prop :=
| runs_done state w : engine_runs pad fmem state w state w
| runs_more state w reads rc state1 w1 reads1 state2 w2 :
    thumb_grabber_process pad fmem state w reads = Returned (rc, state1, w1, reads1) →
    engine_runs pad fmem state1 w1 state2 w2 →
    engine_runs pad fmem state w state2 w2.

Lemma engine_runs_within pad fmem R state w state' w' :
  engine_runs pad fmem state w state' w' → cursor_within R state →
  cursor_within R state' ∧
  ∃ new, w_trace w' = new ++ w_trace w ∧ ∀ a, a ∈ decoded_frames new → a ∈ R.
Proof.
  induction 1 as [state w|state w reads rc state1 w1 reads1 state2 w2 Hrun _ IH];
    intros Hin.
  - split; [done|]. exists []. split; [done|]. by intros a ?%elem_of_nil.
  - destruct (process_loop_within _ _ _ _ _ _ _ _ _ _ _ Hin Hrun)
      as (Hin1 & new1 & Htr1 & Hnew1).
    destruct (IH Hin1) as (Hin2 & new2 & Htr2 & Hnew2).
    split; [done|]. exists (new2 ++ new1). rewrite Htr2, Htr1, app_assoc.
    split; [done|]. intros a. rewrite decoded_frames_app, elem_of_app.
    intros [?|?]; auto.
Qed.

(** ** Times of a track *)

(** The durations of the first [n] frames, added up. *)
Fixpoint elapsed (F : nat → input_frame_t) (n : nat) : Z :=
  match n with
  | O => 0
  | S m => elapsed F m + duration (F m)
  end.

(** The decode timestamp of frame [j] (of the end of the track for
    [j = frame_count track]). *)
Definition decode_time (fmem : frame_mem) (track : media_track_t) (j : nat) : Z :=
  clip_start_time track + first_frame_time_offset track
  + elapsed (track_frame fmem track) j.

Definition presentation_time (fmem : frame_mem) (track : media_track_t) (j : nat) : Z :=
  decode_time fmem track j + pts_delay (track_frame fmem track j).

(** How far frame [j] is presented from the requested time, the latter
    adjusted by the first frame's pts delay. *)
Definition time_distance (fmem : frame_mem) (track : media_track_t)
    (requested_time : Z) (j : nat) : Z :=
  Z.abs (presentation_time fmem track j
         - (requested_time + pts_delay (track_frame fmem track 0))).

(** The distance as the scan computes it for frame [j], in 64 bits. *)
Definition scan_distance (fmem : frame_mem) (track : media_track_t)
    (requested_time : Z) (j : nat) : Z :=
  diff_at (track_frame fmem track) (track_start track)
    (adjusted_time fmem track requested_time) j.

(** Frame [j] can be chosen: a key frame is at or before it. *)
Definition selectable (fmem : frame_mem) (track : media_track_t) (j : nat) : Prop :=
  (j < frame_count track)%nat ∧ candidate (track_frame fmem track) j.

(** Every part of the index holds a frame. *)
Definition parts_nonempty (track : media_track_t) : Prop :=
  (first_frame (frames track) < last_frame (frames track))%nat ∧
  linked_parts_nonempty (track_chain track).

(** The fields are in the range of their types and the times of the track
    stay clear of the end of the 64-bit range. *)
Definition timeline_fits (fmem : frame_mem) (track : media_track_t) : Prop :=
  0 ≤ decode_time fmem track 0 ∧
  (∀ j, (j < frame_count track)%nat →
        0 ≤ duration (track_frame fmem track j) ∧
        0 ≤ pts_delay (track_frame fmem track j) < 2 ^ 32) ∧
  decode_time fmem track (frame_count track) + 2 ^ 32 ≤ ULLONG_MAX.

Definition within_span (fmem : frame_mem) (track : media_track_t)
    (requested_time : Z) : Prop :=
  decode_time fmem track 0 ≤ requested_time
  ≤ decode_time fmem track (frame_count track).

Lemma elapsed_mono F n m :
  (∀ j, (j < m)%nat → 0 ≤ duration (F j)) → (n ≤ m)%nat → elapsed F n ≤ elapsed F m.
Proof.
  intros Hdur Hle. induction Hle as [|m Hle IH]; [lia|].
  simpl. specialize (Hdur m ltac:(lia)) as Hm.
  assert (elapsed F n ≤ elapsed F m); [|lia].
  apply IH. intros j Hj. apply Hdur. lia.
Qed.

Lemma elapsed_nonneg F n :
  (∀ j, (j < n)%nat → 0 ≤ duration (F j)) → 0 ≤ elapsed F n.
Proof. intros Hdur. by apply (elapsed_mono F 0 n); [|lia]. Qed.

Lemma dts_at_decode_time fmem track n :
  timeline_fits fmem track → (n ≤ frame_count track)%nat →
  dts_at (track_frame fmem track) (track_start track) n = decode_time fmem track n.
Proof.
  intros (Hstart & Hfld & Hend) Hn. unfold decode_time in *. simpl in Hstart.
  assert (∀ j, (j < frame_count track)%nat → 0 ≤ duration (track_frame fmem track j))
    as Hdur by (intros j Hj; by apply Hfld).
  induction n as [|n IH]; simpl.
  - unfold track_start, uint64.
    pose proof (elapsed_nonneg (track_frame fmem track) (frame_count track) Hdur).
    unfold ULLONG_MAX in Hend. rewrite Z.mod_small; lia.
  - rewrite IH by lia. unfold uint64.
    pose proof (elapsed_mono (track_frame fmem track) (S n) (frame_count track) Hdur Hn)
      as Hle. simpl in Hle.
    pose proof (elapsed_nonneg (track_frame fmem track) n
                  (λ j Hj, Hdur j ltac:(lia))).
    specialize (Hdur n ltac:(lia)).
    unfold ULLONG_MAX in Hend. rewrite Z.mod_small; lia.
Qed.

Lemma pts_at_presentation_time fmem track j :
  timeline_fits fmem track → (j < frame_count track)%nat →
  pts_at (track_frame fmem track) (track_start track) j = presentation_time fmem track j ∧
  0 ≤ presentation_time fmem track j < ULLONG_MAX.
Proof.
  intros Hfit Hj. unfold pts_at, presentation_time.
  rewrite dts_at_decode_time by (done || lia).
  pose proof Hfit as (Hstart & Hfld & Hend).
  assert (∀ i, (i < frame_count track)%nat → 0 ≤ duration (track_frame fmem track i))
    as Hdur by (intros i Hi; by apply Hfld).
  pose proof (elapsed_mono (track_frame fmem track) j (frame_count track) Hdur ltac:(lia)).
  pose proof (elapsed_nonneg (track_frame fmem track) j (λ i Hi, Hdur i ltac:(lia))).
  destruct (Hfld j Hj) as (_ & Hdelay).
  unfold decode_time in *. simpl in Hstart. unfold ULLONG_MAX in *. unfold uint64.
  rewrite Z.mod_small; lia.
Qed.

Lemma track_frame_0 fmem track :
  (first_frame (frames track) < last_frame (frames track))%nat →
  track_frame fmem track 0 = fmem (first_frame (frames track)) ∧
  (0 < frame_count track)%nat.
Proof.
  intros Hne. unfold track_frame, frame_at, frame_count, track_addrs, track_chain.
  rewrite chain_addrs_cons. unfold part_addrs.
  replace (last_frame (frames track) - first_frame (frames track))%nat
    with (S (last_frame (frames track) - S (first_frame (frames track)))) by lia.
  simpl. split; [done|lia].
Qed.

Lemma scan_distance_time_distance fmem track requested_time j :
  parts_nonempty track → timeline_fits fmem track →
  within_span fmem track requested_time → (j < frame_count track)%nat →
  scan_distance fmem track requested_time j = time_distance fmem track requested_time j ∧
  scan_distance fmem track requested_time j < ULLONG_MAX.
Proof.
  intros [Hfirst _] Hfit Hspan Hj.
  destruct (track_frame_0 fmem track Hfirst) as [H0 Hpos].
  destruct (pts_at_presentation_time fmem track j Hfit Hj) as [Hpts Hrange].
  pose proof Hfit as (Hstart & Hfld & Hend).
  destruct (Hfld 0%nat Hpos) as (_ & Hdelay0).
  assert (adjusted_time fmem track requested_time
          = requested_time + pts_delay (track_frame fmem track 0)) as Hadj.
  { unfold adjusted_time. rewrite <- H0. unfold uint64.
    unfold within_span, ULLONG_MAX in *. rewrite Z.mod_small; lia. }
  unfold scan_distance, diff_at, time_distance. rewrite Hpts, Hadj.
  unfold within_span, ULLONG_MAX in *.
  destruct (Z.leb_spec (requested_time + pts_delay (track_frame fmem track 0))
              (presentation_time fmem track j)); lia.
Qed.

(** ** The claims on selection and sizing *)

Lemma truncate_frames_fuel_mono fuel fuel' index0 key_index0 fmem track requested_time x :
  thumb_grabber_truncate_frames fuel index0 key_index0 fmem track requested_time
  = Returned x →
  (fuel ≤ fuel')%nat →
  thumb_grabber_truncate_frames fuel' index0 key_index0 fmem track requested_time
  = Returned x.
Proof.
  unfold thumb_grabber_truncate_frames. intros Hrun Hle.
  destruct (truncate_loop fuel _ _ _) as [l| |] eqn:Hloop; [|done|done].
  by rewrite (truncate_loop_fuel_mono _ _ _ _ _ _ Hloop Hle).
Qed.

Lemma track_frame_lookup fmem track j a :
  track_addrs track !! j = Some a → track_frame fmem track j = fmem a.
Proof.
  intros Hj. unfold track_frame, frame_at. by rewrite (nth_lookup_Some _ _ _ _ Hj).
Qed.

(** C1 (as amended): for an index whose parts all hold frames and that
    has a key frame, and a requested time within the track's span,
    [thumb_grabber_truncate_frames] chooses, among the frames at or after
    the first key frame (the selectable ones), the one whose presentation
    time is closest to the requested time adjusted by the first frame's
    pts delay; of two equally close ones it chooses the earlier.  The
    chosen frame is at position [s] of the index; the function leaves the
    index starting at position [k] and writes [s - k]. *)
Theorem closest_selectable_frame_chosen
    fuel index0 key_index0 fmem track requested_time :
  parts_nonempty track → timeline_fits fmem track →
  within_span fmem track requested_time →
  Z.of_nat (frame_count track) < 2 ^ 32 →
  (∃ k, (k < frame_count track)%nat ∧ key_frame (track_frame fmem track k) = true) →
  (frame_count track < fuel)%nat →
  ∃ track' k s,
    thumb_grabber_truncate_frames fuel index0 key_index0 fmem track requested_time
    = Returned (VOD_OK, track', Some (Z.of_nat s - Z.of_nat k)) ∧
    track_addrs track' = drop k (track_addrs track) ∧
    (k ≤ s)%nat ∧ selectable fmem track s ∧
    (∀ j, selectable fmem track j →
          time_distance fmem track requested_time s
          ≤ time_distance fmem track requested_time j) ∧
    (∀ j, selectable fmem track j → (j < s)%nat →
          time_distance fmem track requested_time s
          < time_distance fmem track requested_time j).
Proof.
  intros Hne Hfit Hspan Hcount (k0 & Hk0 & Hkey0) Hfuel.
  pose proof (truncate_frames_spec fuel index0 key_index0 fmem track requested_time
                (proj2 Hne) Hfuel) as Hspec.
  pose proof (best_spec (track_frame fmem track) (track_start track)
                (adjusted_time fmem track requested_time) (frame_count track)) as Hbest.
  fold (track_best fmem track requested_time) in Hbest.
  assert (∀ j, (j < frame_count track)%nat →
               diff_at (track_frame fmem track) (track_start track)
                 (adjusted_time fmem track requested_time) j
               = time_distance fmem track requested_time j ∧
               time_distance fmem track requested_time j < ULLONG_MAX) as Hdist.
  { intros j Hj.
    destruct (scan_distance_time_distance fmem track requested_time j Hne Hfit Hspan Hj)
      as [Heq Hlt].
    unfold scan_distance in *. by rewrite <- Heq. }
  destruct (track_best fmem track requested_time) as [[s k]|].
  - destruct Hspec as (track' & Hrun & Haddrs & _).
    destruct Hbest as (Hs & Hlast & _ & Hmin & Hfirst).
    destruct (last_key_before_Some _ _ _ Hlast) as (Hks & Hkey & _).
    exists track', k, s. split.
    { rewrite Hrun. do 3 f_equal. unfold uint32. apply Z.mod_small. lia. }
    split; [done|]. split; [lia|]. split.
    { split; [done|]. exists k. split; [lia|done]. }
    split.
    + intros j [Hj Hc]. destruct (Hdist s Hs) as [<- _], (Hdist j Hj) as [<- _].
      by apply Hmin.
    + intros j [Hj Hc] Hjs. destruct (Hdist s Hs) as [<- _], (Hdist j Hj) as [<- _].
      by apply Hfirst.
  - exfalso. specialize (Hbest k0 Hk0).
    destruct (Hdist k0 Hk0) as [Heq Hlt]. rewrite Heq in Hbest.
    assert (ULLONG_MAX ≤ time_distance fmem track requested_time k0); [|lia].
    apply Hbest. exists k0. split; [lia|done].
Qed.

(** C8: for a limit of [skip + 1] frames, not more than the index holds,
    [thumb_grabber_get_max_frame_size] returns a size that no frame among
    the first [skip + 1] exceeds and that one of them has, whatever parts
    they lie in. *)
Theorem max_frame_size_is_maximum fmem track skip :
  linked_parts_nonempty (track_chain track) →
  0 ≤ skip → skip + 1 ≤ Z.of_nat (frame_count track) →
  (∀ j, (j < frame_count track)%nat → 0 ≤ size (track_frame fmem track j)) →
  ∃ m, thumb_grabber_get_max_frame_size fmem track (skip + 1) = Returned m ∧
       (∀ j, Z.of_nat j ≤ skip → size (track_frame fmem track j) ≤ m) ∧
       (∃ j, Z.of_nat j ≤ skip ∧ size (track_frame fmem track j) = m).
Proof.
  intros Hwf Hskip Hlimit Hsize. unfold thumb_grabber_get_max_frame_size.
  assert (track_addrs track
          = seq (first_frame (frames track))
              (last_frame (frames track) - first_frame (frames track))
            ++ chain_addrs (frames_next track)) as Haddrs by done.
  rewrite max_frame_size_loop_spec; cycle 1.
  { intros p [i Hp]%list_elem_of_lookup. by apply (Hwf i). }
  { rewrite <- Haddrs. unfold frame_count in Hlimit. lia. }
  rewrite <- Haddrs. eexists. split; [done|].
  assert (∀ j, Z.of_nat j ≤ skip →
               ∃ a, take (Z.to_nat (skip + 1)) (track_addrs track) !! j = Some a ∧
                    track_frame fmem track j = fmem a) as Hj.
  { intros j Hj. destruct (lookup_lt_is_Some_2 (track_addrs track) j) as [a Ha].
    { unfold frame_count in Hlimit. lia. }
    exists a. split; [|by apply track_frame_lookup].
    rewrite lookup_take_lt by lia. done. }
  split.
  - intros j Hjs. destruct (Hj j Hjs) as (a & Ha & ->). by eapply max_size_upper.
  - destruct (max_size_attained fmem (take (Z.to_nat (skip + 1)) (track_addrs track)) 0)
      as [Hzero|(j & a & Ha & Heq)].
    + exists 0%nat. split; [lia|]. rewrite Hzero.
      destruct (Hj 0%nat ltac:(lia)) as (a & Ha & Hfa).
      pose proof (max_size_upper fmem _ 0 _ _ Ha) as Hle. rewrite Hzero in Hle.
      specialize (Hsize 0%nat ltac:(lia)). rewrite Hfa in *. lia.
    + exists j. pose proof (lookup_lt_Some _ _ _ Ha) as Hlt.
      rewrite length_take in Hlt.
      split; [lia|]. rewrite <- Heq. f_equal.
      apply track_frame_lookup. rewrite lookup_take_lt in Ha by lia. done.
Qed.

(** A state is built only after a successful selection, with the cursor
    on the first frame of the index the selection left. *)
Lemma init_state_Some fmem decoder_codec fuel index0 key_index0 track requested_time
    w rc track' state0 w0 :
  thumb_grabber_init_state fmem decoder_codec fuel index0 key_index0 track
    requested_time w = Returned (rc, track', Some state0, w0) →
  ∃ skip m,
    thumb_grabber_truncate_frames fuel index0 key_index0 fmem track requested_time
    = Returned (VOD_OK, track', Some skip) ∧
    rc = VOD_OK ∧
    state0 = mk_state [] (frames track') (frames_next track')
               (first_frame (frames track')) skip true false 0 0 m None 0.
Proof.
  unfold thumb_grabber_init_state, thumb_grabber_init_codec.
  destruct (negb (decoder_codec (codec_id track))); [done|].
  destruct (thumb_grabber_truncate_frames _ _ _ _ _ _) as [[[rc1 track1] skip1]| |];
    [|done|done].
  case_bool_decide as Hrc; [done|].
  destruct skip1 as [skip|]; [|done].
  intros Hrun. exists skip.
  repeat (case_match; simplify_eq/=; try done).
  eexists. split; [by f_equal|done].
Qed.

Lemma init_state_gate fmem decoder_codec fuel index0 key_index0 track requested_time w :
  decoder_codec (codec_id track) = false →
  thumb_grabber_init_state fmem decoder_codec fuel index0 key_index0 track
    requested_time w = Returned (VOD_BAD_REQUEST, track, None, w).
Proof. intros Hdc. unfold thumb_grabber_init_state. by rewrite Hdc. Qed.

(** C9 (as amended): when the index holds frames, none of which is a
    key frame, [thumb_grabber_truncate_frames] fails with VOD_UNEXPECTED,
    and [thumb_grabber_init_state] returns before any allocation (the
    world is as it was): with that failure when a decoder is registered
    for the track's codec, with VOD_BAD_REQUEST when none is.  Every part
    of the index holds a frame, so that [first_frame] of the first part,
    which line 229 reads before any test, is a frame of the index. *)
Theorem no_frame_or_no_key_frame_fails
    fmem decoder_codec fuel index0 key_index0 track requested_time w :
  parts_nonempty track → (frame_count track < fuel)%nat →
  (∀ j, (j < frame_count track)%nat → key_frame (track_frame fmem track j) = false) →
  thumb_grabber_truncate_frames fuel index0 key_index0 fmem track requested_time
  = Returned (VOD_UNEXPECTED, track, None) ∧
  thumb_grabber_init_state fmem decoder_codec fuel index0 key_index0 track
    requested_time w
  = Returned (if decoder_codec (codec_id track) then VOD_UNEXPECTED else VOD_BAD_REQUEST,
              track, None, w).
Proof.
  intros [_ Hwf] Hfuel Hno.
  assert (thumb_grabber_truncate_frames fuel index0 key_index0 fmem track requested_time
          = Returned (VOD_UNEXPECTED, track, None)) as Htrunc.
  { pose proof (truncate_frames_spec fuel index0 key_index0 fmem track requested_time
                  Hwf Hfuel) as Hspec.
    pose proof (best_spec (track_frame fmem track) (track_start track)
                  (adjusted_time fmem track requested_time) (frame_count track)) as Hbest.
    fold (track_best fmem track requested_time) in Hbest.
    destruct (track_best fmem track requested_time) as [[s k]|]; [|done].
    exfalso. destruct Hbest as (Hs & Hlast & _).
    destruct (last_key_before_Some _ _ _ Hlast) as (Hks & Hkey & _).
    rewrite Hno in Hkey by lia. done. }
  split; [done|].
  unfold thumb_grabber_init_state. rewrite Htrunc.
  by destruct (decoder_codec (codec_id track)).
Qed.

(** C2: after a successful [thumb_grabber_truncate_frames] the index left
    in the track starts with a key frame, at position [k] of the original
    index; it is the last key frame at or before the chosen frame, which
    is at position [s] and is the closest selectable frame for the scan;
    the skip count written is [s - k]; and whenever the engine is set up
    by [thumb_grabber_init_state] on this track and run, every frame it
    hands to the decoder is a frame of the index left, none before
    position [k]. *)
Theorem truncation_starts_at_key_frame
    fuel index0 key_index0 fmem track requested_time track' skip :
  linked_parts_nonempty (track_chain track) →
  Z.of_nat (frame_count track) < 2 ^ 32 →
  thumb_grabber_truncate_frames fuel index0 key_index0 fmem track requested_time
  = Returned (VOD_OK, track', Some skip) →
  ∃ k s,
    track_addrs track' = drop k (track_addrs track) ∧
    (first_frame (frames track') < last_frame (frames track'))%nat ∧
    key_frame (fmem (first_frame (frames track'))) = true ∧
    track_frame fmem track k = fmem (first_frame (frames track')) ∧
    (k ≤ s < frame_count track)%nat ∧
    (∀ j, (k < j ≤ s)%nat → key_frame (track_frame fmem track j) = false) ∧
    (∀ j, selectable fmem track j →
          scan_distance fmem track requested_time s
          ≤ scan_distance fmem track requested_time j) ∧
    (∀ j, selectable fmem track j → (j < s)%nat →
          scan_distance fmem track requested_time s
          < scan_distance fmem track requested_time j) ∧
    skip = Z.of_nat s - Z.of_nat k ∧
    ∀ pad decoder_codec w_init rc track'' state0 w0 state w,
      thumb_grabber_init_state fmem decoder_codec fuel index0 key_index0 track
        requested_time w_init = Returned (rc, track'', Some state0, w0) →
      engine_runs pad fmem state0 w0 state w →
      ∃ new, w_trace w = new ++ w_trace w0 ∧
             ∀ a, a ∈ decoded_frames new → a ∈ drop k (track_addrs track).
Proof.
  intros Hwf Hcount Hrun.
  pose proof (truncate_frames_fuel_mono fuel (fuel `max` S (frame_count track))
                _ _ _ _ _ _ Hrun ltac:(lia)) as Hrun'.
  pose proof (truncate_frames_spec (fuel `max` S (frame_count track))
                index0 key_index0 fmem track requested_time Hwf ltac:(lia)) as Hspec.
  pose proof (best_spec (track_frame fmem track) (track_start track)
                (adjusted_time fmem track requested_time) (frame_count track)) as Hbest.
  fold (track_best fmem track requested_time) in Hbest.
  destruct (track_best fmem track requested_time) as [[s k]|];
    [|rewrite Hspec in Hrun'; done].
  destruct Hspec as (track1 & Hrun1 & Haddrs & Hfirst & Hwf' & _).
  rewrite Hrun1 in Hrun'. injection Hrun' as -> <-.
  destruct Hbest as (Hs & Hlast & _ & Hmin & Hties).
  destruct (last_key_before_Some _ _ _ Hlast) as (Hks & Hkey & Hnokey).
  assert (track_addrs track !! k = Some (first_frame (frames track'))) as Hk.
  { rewrite <- (Nat.add_0_r k), <- lookup_drop, <- Haddrs.
    unfold track_addrs, track_chain. rewrite chain_addrs_cons. unfold part_addrs.
    replace (last_frame (frames track') - first_frame (frames track'))%nat
      with (S (last_frame (frames track') - S (first_frame (frames track')))) by lia.
    done. }
  pose proof (track_frame_lookup fmem _ _ _ Hk) as Hfk.
  exists k, s. split; [done|]. split; [done|]. split; [by rewrite <- Hfk|].
  split; [done|]. split; [lia|]. split; [intros j Hj; apply Hnokey; lia|].
  split; [intros j [Hj Hc]; by apply Hmin|].
  split; [intros j [Hj Hc] Hjs; by apply Hties|].
  split; [unfold uint32; apply Z.mod_small; lia|].
  intros pad decoder_codec w_init rc track'' state0 w0 state w Hinit Hruns.
  destruct (init_state_Some _ _ _ _ _ _ _ _ _ _ _ _ Hinit) as (skip' & m & Htr & -> & ->).
  rewrite Hrun in Htr. injection Htr as <- <-.
  destruct (engine_runs_within pad fmem (track_addrs track') _ _ _ _ Hruns)
    as (_ & new & Hnew & Hdec).
  { split; [|split]; simpl; [|by exists []|done].
    intros p [i Hp]%list_elem_of_lookup. by apply (Hwf' i). }
  exists new. split; [done|]. by rewrite <- Haddrs.
Qed.

(** ** The scratch frame buffer *)

(** The number of [vod_alloc] calls in a trace. *)
Fixpoint count_allocs (tr : list event) : nat :=
  match tr with
  | [] => 0
  | EvAlloc _ _ :: tr' => S (count_allocs tr')
  | _ :: tr' => count_allocs tr'
  end.

Lemma count_allocs_app tr1 tr2 :
  count_allocs (tr1 ++ tr2) = (count_allocs tr1 + count_allocs tr2)%nat.
Proof.
  induction tr1 as [|e tr1 IH]; [done|]. destruct e; simpl; by rewrite ?IH.
Qed.

Lemma count_allocs_tail tr : Forall engine_tail tr → count_allocs tr = 0%nat.
Proof.
  induction 1 as [|e tr He _ IH]; [done|]. by destruct e.
Qed.

Lemma process_read_complete_direct pad fmem processed_data state w r :
  r_rc r = VOD_OK → r_done r = true → cur_frame_pos state = 0 →
  process_read pad fmem processed_data state w r
  = process_decode pad fmem state (read_pointer w) (after_read state w r).
Proof.
  intros Hrc Hdone Hpos. unfold process_read.
  rewrite Hrc, Hdone, Hpos. rewrite !bool_decide_false by naive_solver. done.
Qed.

Lemma process_decode_allocs pad fmem state buffer w o state' w' :
  process_decode pad fmem state buffer w = Returned (o, state', w') →
  frame_buffer state' = frame_buffer state ∧ cur_frame_pos state' = cur_frame_pos state ∧
  ∃ new, w_trace w' = new ++ w_trace w ∧ count_allocs new = 0%nat.
Proof.
  intros Hrun.
  destruct (process_decode_frame _ _ _ _ _ _ _ _ Hrun)
    as (x & y & z & m & avrc & got & tail & Htr & _ & Htail & _ & _ & Hst).
  split; [|split].
  - destruct o; [by subst|]. by destruct Hst as (-> & _).
  - destruct o; [by subst|]. by destruct Hst as (-> & _).
  - eexists (tail ++ [_]). rewrite <- app_assoc. split; [done|].
    rewrite count_allocs_app, (count_allocs_tail _ Htail). done.
Qed.

(** A read allocates exactly when it brings an incomplete chunk while the
    scratch buffer is still NULL. *)
Lemma process_read_allocs pad fmem processed_data state w r o state' w' :
  process_read pad fmem processed_data state w r = Returned (o, state', w') →
  ∃ new, w_trace w' = new ++ w_trace w ∧
         count_allocs new
         = (if bool_decide (r_rc r = VOD_OK) && negb (r_done r)
               && bool_decide (frame_buffer state = None)
            then 1 else 0)%nat.
Proof.
  intros Hrun.
  destruct (process_read_cases _ _ _ _ _ _ _ _ _ Hrun)
    as [(Hrc & -> & _)
       |[(Hrc & Hdone & w_b & Hwb & Hcont & Hfail)
        |(Hrc & Hdone & state_d & buffer & w_d & Hdec & Hd)]].
  - eexists [_]. split; [done|]. by rewrite bool_decide_false.
  - rewrite Hdone, bool_decide_true by done. simpl.
    assert (∃ new, w_trace w_b = new ++ w_trace w ∧
                   count_allocs new
                   = (if bool_decide (frame_buffer state = None) then 1 else 0)%nat)
      as (new & Htr & Hnew).
    { destruct Hwb as [[Hsome ->]|(Hnone & b & Halloc & _)].
      - eexists [_]. split; [done|]. by rewrite bool_decide_false.
      - revert Halloc. unfold call_alloc. simpl.
        destruct (w_alloc w); [done|]. intros [= <- <-]. eexists [_; _].
        split; [done|]. by rewrite (bool_decide_true (_ = None)). }
    exists new. split; [|done].
    destruct o as [rc|].
    + destruct (Hfail rc eq_refl) as [-> Hnone].
      destruct Hwb as [[Hsome _]|(_ & b & Halloc & Hb)]; [done|].
      destruct b as [fb|]; [done|]. by destruct Hb as (_ & _ & ->).
    + by destruct (Hcont eq_refl) as (fb & m & _ & _ & _ & ->).
  - rewrite Hdone, andb_false_r. simpl.
    destruct (process_decode_allocs _ _ _ _ _ _ _ _ Hdec) as (_ & _ & new & Htr & Hnew).
    eexists (new ++ [_]). rewrite Htr, <- app_assoc. split.
    + by destruct Hd as [(_ & _ & _ & ->)|(_ & _ & _ & m & _ & ->)].
    + by rewrite count_allocs_app, Hnew.
Qed.

(** As long as every chunk read completes its frame, the run works on the
    buffers of the source alone. *)
Lemma process_loop_no_scratch pad fmem reads : ∀ processed_data state w rc state' w' reads',
  frame_buffer state = None → cur_frame_pos state = 0 →
  (∀ r, r ∈ reads → r_rc r = VOD_OK → r_done r = true) →
  process_loop pad fmem reads processed_data state w = Returned (rc, state', w', reads') →
  frame_buffer state' = None ∧
  ∃ new, w_trace w' = new ++ w_trace w ∧ count_allocs new = 0%nat.
Proof.
  induction reads as [|r reads IH];
    intros processed_data state w rc state' w' reads' Hfb Hpos Hdone;
    cbn [process_loop];
    destruct (process_start_frame state w) as [[[o1 state1] w1]| |] eqn:Hstart;
    try done;
    (assert (frame_buffer state1 = None ∧ cur_frame_pos state1 = 0 ∧
             ∃ new1, w_trace w1 = new1 ++ w_trace w ∧ count_allocs new1 = 0%nat)
      as (Hfb1 & Hpos1 & new1 & Htr1 & Hnew1);
     [destruct (process_start_frame_cases _ _ _ _ _ Hstart)
        as [(_ & _ & -> & ->)|(_ & s1 & rc1 & Hcur & Htr & _ & _ & Hout)];
      [by split; [|split; [|exists []]]|];
      assert (frame_buffer s1 = None ∧ cur_frame_pos s1 = 0) as [??]
        by (destruct Hcur as [[_ ->]|(_ & p & next & _ & ->)]; done);
      split; [by destruct Hout as [(_ & _ & ->)|(_ & _ & ->)]|];
      split; [by destruct Hout as [(_ & _ & ->)|(_ & _ & ->)]|];
      by eexists [_]|]);
    (destruct o1 as [rc1|]; [intros [= <- <- <- <-]; split; [done|]; by exists new1|]);
    [done|].
  destruct (process_read pad fmem processed_data state1 w1 r)
    as [[[o2 state2] w2]| |] eqn:Hread; [|done|done].
  destruct (process_read_allocs _ _ _ _ _ _ _ _ _ Hread) as (new2 & Htr2 & Hnew2).
  assert (count_allocs new2 = 0%nat) as Hnew2'.
  { rewrite Hnew2. case_bool_decide as Hrc; [|done].
    rewrite (Hdone r ltac:(by left) Hrc). done. }
  assert (frame_buffer state2 = None ∧ cur_frame_pos state2 = 0) as [Hfb2 Hpos2].
  { destruct (process_read_cases _ _ _ _ _ _ _ _ _ Hread)
      as [(_ & _ & rc' & _ & _ & Hst)
         |[(Hrc & Hnd & _)
          |(_ & _ & state_d & buffer & w_d & Hdec & Hd)]].
    - by destruct Hst as [->| ->].
    - rewrite (Hdone r ltac:(by left) Hrc) in Hnd. done.
    - destruct (process_decode_allocs _ _ _ _ _ _ _ _ Hdec) as (-> & -> & _).
      by destruct Hd as [(_ & -> & _)|(? & _)]. }
  destruct o2 as [rc2|].
  - intros [= <- <- <- <-]. split; [done|]. exists (new2 ++ new1).
    rewrite Htr2, Htr1, app_assoc. split; [done|].
    rewrite count_allocs_app. lia.
  - intros Hrun.
    destruct (IH _ _ _ _ _ _ _ Hfb2 Hpos2 (λ r' Hr', Hdone r' ltac:(by right)) Hrun)
      as (Hfb' & new & Htr & Hnew).
    split; [done|]. exists (new ++ new2 ++ new1).
    rewrite Htr, Htr2, Htr1, !app_assoc. split; [done|].
    rewrite !count_allocs_app. lia.
Qed.

(** C10: a read that completes a frame while nothing is buffered for it
    (fill position zero) hands the buffer of the byte source itself to the
    decode step: no copy, no allocation, the scratch pointer untouched.
    A read calls [vod_alloc] exactly when it brings an incomplete chunk
    while the scratch buffer is NULL; so a run in which every chunk read
    completes its frame never allocates it. *)
Theorem complete_reads_bypass_scratch_buffer pad fmem :
  (∀ processed_data state w r,
     r_rc r = VOD_OK → r_done r = true → cur_frame_pos state = 0 →
     process_read pad fmem processed_data state w r
     = process_decode pad fmem state (read_pointer w) (after_read state w r) ∧
     pkt_data (frame_packet fmem state (read_pointer w)) = Some (read_pointer w) ∧
     w_mem (after_read state w r) = w_mem w ++ [r_buffer r] ∧
     w_trace (after_read state w r)
     = EvRead (frames_source (cur_frame_part state)) r :: w_trace w) ∧
  (∀ processed_data state w r o state' w',
     process_read pad fmem processed_data state w r = Returned (o, state', w') →
     ∃ new, w_trace w' = new ++ w_trace w ∧
            count_allocs new
            = (if bool_decide (r_rc r = VOD_OK) && negb (r_done r)
                  && bool_decide (frame_buffer state = None)
               then 1 else 0)%nat) ∧
  (∀ state w reads rc state' w' reads',
     frame_buffer state = None → cur_frame_pos state = 0 →
     (∀ r, r ∈ reads → r_rc r = VOD_OK → r_done r = true) →
     thumb_grabber_process pad fmem state w reads = Returned (rc, state', w', reads') →
     frame_buffer state' = None ∧
     ∃ new, w_trace w' = new ++ w_trace w ∧ count_allocs new = 0%nat).
Proof.
  split; [|split].
  - intros processed_data state w r Hrc Hdone Hpos.
    split; [by apply process_read_complete_direct|done].
  - intros processed_data state w r o state' w'. apply process_read_allocs.
  - intros state w reads rc state' w' reads'. apply process_loop_no_scratch.
Qed.

(** ** Assembling a frame from chunks *)

(** The bytes a read delivers. *)
Definition chunk_of (r : read_answer) : list byte :=
  take (Z.to_nat (r_size r)) (r_buffer r).

(** A successful read of a chunk that lies in the buffer handed out. *)
Definition delivers (done : bool) (r : read_answer) : Prop :=
  r_rc r = VOD_OK ∧ r_done r = done ∧ 0 ≤ r_size r ∧
  (Z.to_nat (r_size r) ≤ length (r_buffer r))%nat.

(** The scratch buffer, once allocated, is a block of its own of the size
    asked for, and starts with the bytes buffered so far. *)
Definition scratch_holds (pad : nat) (state : thumb_grabber_state_t) (w : world)
    (prefix : list byte) : Prop :=
  match frame_buffer state with
  | Some fb =>
    fb.2 = 0%nat ∧
    ∃ blk, w_mem w !! fb.1 = Some blk ∧
           length blk = Z.to_nat (scratch_size pad state) ∧
           take (length prefix) blk = prefix
  | None => prefix = []
  end.

Lemma chunk_of_length r done : delivers done r → length (chunk_of r) = Z.to_nat (r_size r).
Proof. intros (_ & _ & _ & Hlen). unfold chunk_of. rewrite length_take. lia. Qed.

Lemma vod_memcpy_chunk (m : memory) b blk pos src buf n :
  m !! b = Some blk → m !! src = Some buf →
  (n ≤ length buf)%nat → (pos + n ≤ length blk)%nat →
  vod_memcpy m (b, pos) (src, 0%nat) n
  = Some (<[b := take pos blk ++ take n buf ++ drop (pos + n) blk]> m).
Proof.
  intros Hb Hsrc Hn Hpos. unfold vod_memcpy, mem_load, mem_store. simpl.
  rewrite Hsrc, decide_True by lia. rewrite Hb. rewrite drop_0, length_take.
  replace (n `min` length buf)%nat with n by lia.
  by rewrite decide_True by lia.
Qed.

Lemma mem_load_block (m : memory) b blk n :
  m !! b = Some blk → (n ≤ length blk)%nat → mem_load m (b, 0%nat) n = Some (take n blk).
Proof.
  intros Hb Hn. unfold mem_load. simpl. rewrite Hb, decide_True by lia.
  by rewrite drop_0.
Qed.

(** A store at or after the end of a range leaves the range as it was. *)
Lemma mem_store_load_before m b off bytes m' n :
  mem_store m (b, off) bytes = Some m' → (n ≤ off)%nat →
  mem_load m' (b, 0%nat) n = mem_load m (b, 0%nat) n.
Proof.
  unfold mem_store, mem_load. simpl.
  destruct (m !! b) as [blk|] eqn:Hb; [|done].
  case_decide as Hlen; [|done]. intros [= <-] Hn.
  rewrite list_lookup_insert_eq by by eapply lookup_lt_Some.
  rewrite !length_app, length_take, length_drop.
  rewrite !drop_0. rewrite take_app_le by (rewrite length_take; lia).
  rewrite take_take. replace (n `min` off)%nat with n by lia.
  repeat case_decide; try done; lia.
Qed.

Section Assemble.

Variable pad : nat.
Variable fmem : frame_mem.

(** An incomplete chunk is appended to the scratch buffer. *)
Lemma process_read_buffers processed_data state w r prefix :
  delivers false r → scratch_holds pad state w prefix →
  cur_frame_pos state = Z.of_nat (length prefix) →
  0 ≤ max_frame_size state → max_frame_size state + Z.of_nat pad < 2 ^ 32 →
  Z.of_nat (length prefix) + r_size r ≤ max_frame_size state →
  (frame_buffer state = None → ∃ garbage rest, w_alloc w = Some garbage :: rest) →
  ∃ state' w',
    process_read pad fmem processed_data state w r = Returned (None, state', w') ∧
    scratch_holds pad state' w' (prefix ++ chunk_of r) ∧
    cur_frame_pos state' = Z.of_nat (length (prefix ++ chunk_of r)) ∧
    frame_buffer state' ≠ None ∧
    frame_started state' = frame_started state ∧
    max_frame_size state' = max_frame_size state ∧
    cur_frame state' = cur_frame state.
Proof.
  intros Hr Hscratch Hpos Hmfs Hfit Htotal Halloc.
  pose proof (chunk_of_length _ _ Hr) as Hclen.
  destruct Hr as (Hrc & Hdone & Hsize & Hbuf).
  assert (Z.to_nat (scratch_size pad state)
          = (Z.to_nat (max_frame_size state) + pad)%nat) as Hss.
  { unfold scratch_size, uint32. rewrite Z.mod_small by lia. lia. }
  assert (uint32 (Z.of_nat (length prefix) + r_size r)
          = Z.of_nat (length (prefix ++ chunk_of r))) as Hpos'.
  { rewrite length_app, Hclen. unfold uint32. rewrite Z.mod_small by lia. lia. }
  unfold process_read. rewrite Hrc, Hdone. rewrite bool_decide_false by naive_solver.
  unfold source_buffer. simpl.
  unfold scratch_holds in Hscratch.
  destruct (frame_buffer state) as [[b off]|] eqn:Hfb.
  - destruct Hscratch as (Hoff & blk & Hblk & Hlen & Htake). simpl in Hoff, Hblk. subst off.
    rewrite Hfb. unfold ptr_add. simpl. rewrite Hpos, Nat2Z.id.
    rewrite (vod_memcpy_chunk _ b blk (length prefix) (length (w_mem w)) (r_buffer r));
      [| |by apply list_lookup_middle|done|lia].
    2: { rewrite lookup_app_l; [done|]. by eapply lookup_lt_Some. }
    do 2 eexists. split; [done|]. simpl. rewrite Hfb.
    split; [|split; [by rewrite Hpos'|done]]. unfold scratch_holds. simpl. rewrite Hfb.
    split; [done|]. eexists. split; [|split].
    + apply list_lookup_insert_eq. rewrite length_app. apply lookup_lt_Some in Hblk. lia.
    + rewrite !length_app, !length_take, length_drop. unfold scratch_size in *. simpl. lia.
    + fold (chunk_of r). rewrite Htake, app_assoc.
      apply take_app_length'. by rewrite !length_app.
  - subst prefix. simpl in *.
    destruct (Halloc eq_refl) as (garbage & rest & Hal).
    unfold call_alloc. simpl. rewrite Hal. simpl. unfold ptr_add. simpl.
    rewrite Hpos. simpl.
    rewrite (vod_memcpy_chunk _ (length (w_mem w ++ [r_buffer r]))
               (resize (Z.to_nat (scratch_size pad state)) x00 garbage) 0
               (length (w_mem w)) (r_buffer r));
      [|by apply list_lookup_middle| |done|rewrite length_resize; lia].
    2: { rewrite <- app_assoc. by apply list_lookup_middle. }
    do 2 eexists. split; [done|]. simpl.
    split; [|split; [by rewrite <- Hpos'|done]]. unfold scratch_holds. simpl.
    split; [done|]. eexists. split; [|split].
    + apply list_lookup_insert_eq. rewrite !length_app. simpl. lia.
    + rewrite !length_app, !length_take, length_drop, length_resize.
      unfold scratch_size in *. simpl. lia.
    + fold (chunk_of r). simpl. apply take_app_length.
Qed.

End Assemble.

(** The bytes a sequence of reads delivers, in order. *)
Definition bytes_of (rs : list read_answer) : list byte := concat (chunk_of <$> rs).

(** How the loop goes on after the decode step of an iteration. *)
Definition after_process_decode (pad : nat) (fmem : frame_mem)
    (rest : list read_answer)
    (r : outcome (option vod_status_t * thumb_grabber_state_t * world))
    : outcome (vod_status_t * thumb_grabber_state_t * world * list read_answer) :=
  match r with
  | Returned (Some rc, state, w) => Returned (rc, state, w, rest)
  | Returned (None, state, w) => process_loop pad fmem rest true state w
  | Fault => Fault
  | Exhausted => Exhausted
  end.

Lemma process_start_frame_started state w :
  frame_started state = true → process_start_frame state w = Returned (None, state, w).
Proof. intros Hfs. unfold process_start_frame. by rewrite Hfs. Qed.

(** ** The decode step of a complete read *)

(** Lines 573-581: what the decode step is given when [read] has answered
    [r], marked complete.  When part of the frame was buffered, the chunk
    is appended to the scratch buffer, the fill position is reset and the
    scratch buffer is taken; else the buffer of the source is taken. *)
Definition decode_input (state : thumb_grabber_state_t) (w : world) (r : read_answer)
    : outcome (thumb_grabber_state_t * pointer * world) :=
  if bool_decide (cur_frame_pos state ≠ 0) then
    match frame_buffer state with
    | None => Fault
    | Some frame_buffer_ =>
      match vod_memcpy (w_mem (after_read state w r))
              (ptr_add frame_buffer_ (Z.to_nat (cur_frame_pos state)))
              (read_pointer w) (Z.to_nat (r_size r)) with
      | None => Fault
      | Some m => Returned (set_cur_frame_pos 0 state, frame_buffer_,
                            set_mem m (after_read state w r))
      end
    end
  else Returned (state, read_pointer w, after_read state w r).

(** This is what [process_read] does with a complete read. *)
Lemma process_read_complete pad fmem processed_data state w r :
  r_rc r = VOD_OK → r_done r = true →
  process_read pad fmem processed_data state w r
  = match decode_input state w r with
    | Returned (state_d, buffer, w_d) => process_decode pad fmem state_d buffer w_d
    | Fault => Fault
    | Exhausted => Exhausted
    end.
Proof.
  intros Hrc Hdone. unfold process_read, decode_input, source_buffer.
  rewrite Hrc, Hdone. rewrite bool_decide_false by naive_solver. simpl.
  case_bool_decide; [|done].
  destruct (frame_buffer state) as [fb|]; [|done].
  unfold after_read, read_pointer. simpl.
  by destruct (vod_memcpy _ _ _ _).
Qed.

(** With the chunks before it in the scratch buffer, a complete read
    gives the decode step the chunks in order. *)
Lemma decode_input_assembles pad state w r prefix :
  delivers true r → scratch_holds pad state w prefix →
  cur_frame_pos state = Z.of_nat (length prefix) →
  0 ≤ max_frame_size state → max_frame_size state + Z.of_nat pad < 2 ^ 32 →
  Z.of_nat (length prefix) + r_size r ≤ max_frame_size state →
  ∃ state_d buffer w_d,
    decode_input state w r = Returned (state_d, buffer, w_d) ∧
    mem_load (w_mem w_d) buffer (length (prefix ++ chunk_of r))
    = Some (prefix ++ chunk_of r) ∧
    buffer.2 = 0%nat ∧ cur_frame_pos state_d = 0 ∧
    cur_frame state_d = cur_frame state.
Proof.
  intros Hr Hscratch Hpos Hmfs Hfit Htotal.
  pose proof (chunk_of_length _ _ Hr) as Hclen.
  destruct Hr as (Hrc & Hdone & Hsize & Hbuf).
  assert (Z.to_nat (scratch_size pad state)
          = (Z.to_nat (max_frame_size state) + pad)%nat) as Hss.
  { unfold scratch_size, uint32. rewrite Z.mod_small by lia. lia. }
  unfold decode_input, after_read, read_pointer. simpl.
  case_bool_decide as Hnz.
  - unfold scratch_holds in Hscratch.
    destruct (frame_buffer state) as [[b off]|] eqn:Hfb.
    + destruct Hscratch as (Hoff & blk & Hblk & Hlen & Htake). simpl in Hoff, Hblk. subst off.
      unfold ptr_add. simpl. rewrite Hpos, Nat2Z.id.
      rewrite (vod_memcpy_chunk _ b blk (length prefix) (length (w_mem w)) (r_buffer r));
        [| |by apply list_lookup_middle|done|lia].
      2: { rewrite lookup_app_l; [done|]. by eapply lookup_lt_Some. }
      eexists _, _, _. split; [done|]. simpl. split; [|done].
      rewrite (mem_load_block _ b (take (length prefix) blk ++ chunk_of r
                                   ++ drop (length prefix + Z.to_nat (r_size r)) blk)).
      * f_equal. rewrite Htake, app_assoc. apply take_app_length.
      * apply list_lookup_insert_eq. rewrite length_app.
        apply lookup_lt_Some in Hblk. lia.
      * rewrite Htake, !length_app. lia.
    + subst prefix. simpl in Hpos. done.
  - assert (prefix = []) as ->.
    { destruct prefix; [done|]. simpl in Hpos. lia. }
    eexists _, _, _. split; [done|]. simpl. split; [|done].
    rewrite (mem_load_block _ (length (w_mem w)) (r_buffer r));
      [by rewrite Hclen|by apply list_lookup_middle|].
    rewrite Hclen. lia.
Qed.

(** Incomplete chunks of a frame being acquired are iterations that go
    on, and leave the chunks in the scratch buffer. *)
Lemma loop_continues_buffers pad fmem rs : ∀ processed_data state w prefix,
  frame_started state = true →
  Forall (delivers false) rs →
  scratch_holds pad state w prefix →
  cur_frame_pos state = Z.of_nat (length prefix) →
  0 ≤ max_frame_size state → max_frame_size state + Z.of_nat pad < 2 ^ 32 →
  Z.of_nat (length (prefix ++ bytes_of rs)) ≤ max_frame_size state →
  (frame_buffer state = None → rs ≠ [] →
   ∃ garbage rest', w_alloc w = Some garbage :: rest') →
  ∃ state' w',
    loop_continues pad fmem processed_data state w rs state' w' ∧
    scratch_holds pad state' w' (prefix ++ bytes_of rs) ∧
    cur_frame_pos state' = Z.of_nat (length (prefix ++ bytes_of rs)) ∧
    frame_started state' = true ∧
    max_frame_size state' = max_frame_size state ∧
    cur_frame state' = cur_frame state ∧
    (rs ≠ [] → frame_buffer state' ≠ None).
Proof.
  induction rs as [|r rs IH];
    intros processed_data state w prefix Hfs Hrs Hscratch Hpos Hmfs Hfit Htotal Halloc.
  - exists state, w. unfold bytes_of. simpl. rewrite app_nil_r.
    split; [constructor|done].
  - apply Forall_cons in Hrs as [Hr Hrs].
    unfold bytes_of in Htotal |- *. cbn [fmap list_fmap concat] in Htotal |- *.
    fold (bytes_of rs) in Htotal |- *.
    destruct (process_read_buffers pad fmem processed_data state w r prefix)
      as (state1 & w1 & Hread & Hscratch1 & Hpos1 & Hfb1 & Hfs1 & Hmfs1 & Hcur1); try done.
    { rewrite !length_app, (chunk_of_length _ _ Hr) in Htotal.
      destruct Hr as (_ & _ & ? & _). lia. }
    { intros Hnone. by apply Halloc. }
    assert (Z.of_nat (length ((prefix ++ chunk_of r) ++ bytes_of rs))
            ≤ max_frame_size state1) as Htotal1
      by (rewrite Hmfs1, <- !app_assoc; done).
    destruct (IH true state1 w1 (prefix ++ chunk_of r) ltac:(by rewrite Hfs1) Hrs
                Hscratch1 Hpos1 ltac:(by rewrite Hmfs1) ltac:(by rewrite Hmfs1)
                Htotal1 ltac:(intros Hn; by destruct (Hfb1 Hn)))
      as (state' & w' & Hgo & Hscratch' & Hpos' & Hfs' & Hmfs' & Hcur' & Hfb').
    exists state', w'. rewrite <- !app_assoc in Hscratch', Hpos'.
    split; [|split; [done|split; [done|split; [done|split; [congruence|split;
      [congruence|]]]]]].
    + eapply continues_more; [by apply process_start_frame_started|done|done].
    + intros _. destruct rs as [|r' rs']; [|by apply Hfb'].
      inversion Hgo; by subst.
Qed.

(** The whole of a frame's chunks: the incomplete ones go on, the
    complete one gives the decode step the frame. *)
Lemma loop_assembles pad fmem rs rf : ∀ processed_data state w prefix,
  frame_started state = true →
  Forall (delivers false) rs → delivers true rf →
  scratch_holds pad state w prefix →
  cur_frame_pos state = Z.of_nat (length prefix) →
  0 ≤ max_frame_size state → max_frame_size state + Z.of_nat pad < 2 ^ 32 →
  Z.of_nat (length (prefix ++ bytes_of rs ++ chunk_of rf)) ≤ max_frame_size state →
  (frame_buffer state = None → rs ≠ [] →
   ∃ garbage rest', w_alloc w = Some garbage :: rest') →
  ∃ state_n w_n state_d buffer w_d,
    loop_continues pad fmem processed_data state w rs state_n w_n ∧
    frame_started state_n = true ∧
    decode_input state_n w_n rf = Returned (state_d, buffer, w_d) ∧
    mem_load (w_mem w_d) buffer (length (prefix ++ bytes_of rs ++ chunk_of rf))
    = Some (prefix ++ bytes_of rs ++ chunk_of rf) ∧
    buffer.2 = 0%nat ∧ cur_frame_pos state_d = 0 ∧
    cur_frame state_d = cur_frame state.
Proof.
  intros processed_data state w prefix Hfs Hrs Hrf Hscratch Hpos Hmfs Hfit Htotal Halloc.
  pose proof (chunk_of_length _ _ Hrf) as Hclen.
  destruct (loop_continues_buffers pad fmem rs processed_data state w prefix)
    as (state_n & w_n & Hgo & Hscratch_n & Hpos_n & Hfs_n & Hmfs_n & Hcur_n & _);
    try done.
  { rewrite !length_app in Htotal. rewrite !length_app. lia. }
  destruct (decode_input_assembles pad state_n w_n rf (prefix ++ bytes_of rs))
    as (state_d & buffer & w_d & Hin & Hload & Hoff & Hpos_d & Hcur_d);
    try done; try (by rewrite Hmfs_n).
  { rewrite Hmfs_n. rewrite !length_app in Htotal. rewrite !length_app.
    destruct Hrf as (_ & _ & ? & _). lia. }
  exists state_n, w_n, state_d, buffer, w_d. rewrite <- !app_assoc in Hload.
  split; [done|]. split; [done|]. split; [done|]. split; [done|].
  split; [done|]. split; [done|]. congruence.
Qed.

(** What a run does once the iterations that go on are over and a
    complete read arrives. *)
Lemma process_run_decodes pad fmem state w rs state_n w_n state_s w_s rf rest
    state_d buffer w_d :
  loop_continues pad fmem false state w rs state_n w_n →
  process_start_frame state_n w_n = Returned (None, state_s, w_s) →
  r_rc rf = VOD_OK → r_done rf = true →
  decode_input state_s w_s rf = Returned (state_d, buffer, w_d) →
  thumb_grabber_process pad fmem state w (rs ++ rf :: rest)
  = after_process_decode pad fmem rest (process_decode pad fmem state_d buffer w_d).
Proof.
  intros Hgo Hstart Hrc Hdone Hin. unfold thumb_grabber_process.
  rewrite (loop_continues_run _ _ _ _ _ _ _ _ _ Hgo). cbn [process_loop].
  rewrite Hstart, (process_read_complete _ _ _ _ _ _ Hrc Hdone), Hin.
  unfold after_process_decode.
  by destruct (process_decode _ _ _ _ _) as [[[[rc|] ?] ?]| |].
Qed.

(** The decode call on an assembled frame: the memory the decoder is
    shown holds the frame at the packet's data pointer. *)
Lemma decode_frame_shows pad fmem state buffer w bytes avrc got rest original :
  mem_load (w_mem w) buffer (length bytes) = Some bytes →
  buffer.2 = 0%nat →
  size (fmem (cur_frame state)) = Z.of_nat (length bytes) →
  w_decode w = (avrc, got) :: rest →
  mem_load (w_mem w) (frame_end fmem state buffer) pad = Some original →
  ∃ m_call state' w',
    thumb_grabber_decode_frame pad fmem state buffer w
    = Returned (if avrc <? 0 then VOD_BAD_DATA else VOD_OK, state', w') ∧
    w_trace w'
    = EvDecode (Some (cur_frame state)) (frame_packet fmem state buffer)
        m_call avrc got :: w_trace w ∧
    mem_load m_call buffer (length bytes) = Some bytes ∧
    mem_load m_call (frame_end fmem state buffer) pad = Some (replicate pad x00).
Proof.
  intros Hload Hoff Hsize Hdec Hpad.
  destruct (decode_frame_spec pad fmem state buffer w avrc got rest original Hdec Hpad)
    as (m_zero & Hzero & Hrun).
  exists m_zero. rewrite Hrun. destruct (avrc <? 0); eexists _, _.
  all: split; [done|]. all: split; [done|]. all: split.
  all: try (rewrite <- Hload; destruct buffer as [b off]; simpl in Hoff; subst off;
            unfold vod_memzero, frame_end, ptr_add in Hzero; simpl in Hzero;
            apply (mem_store_load_before _ _ _ _ _ _ Hzero); rewrite Hsize; lia).
  all: unfold vod_memzero in Hzero;
    rewrite <- (length_replicate pad x00) at 1; by eapply mem_store_load.
Qed.

(** ** The invocations of a request *)

(** The last call made was one to the byte source. *)
Definition suspended (w : world) : Prop :=
  match w_trace w with
  | EvRead _ _ :: _ | EvStartFrame _ _ _ :: _ => True
  | _ => False
  end.

(** The invocations of [thumb_grabber_process] that wait for the byte
    source: each returns VOD_AGAIN on an answer of the source, and the
    next one takes up the state it left. *)
Inductive engine_waits (pad : nat) (fmem : frame_mem)
  : thumb_grabber_state_t → world → thumb_grabber_state_t → world → Prop :=
| waits_done state w : engine_waits pad fmem state w state w
| waits_more state w reads state1 w1 reads1 state2 w2 :
    thumb_grabber_process pad fmem state w reads
    = Returned (VOD_AGAIN, state1, w1, reads1) →
    suspended w1 →
    engine_waits pad fmem state1 w1 state2 w2 →
    engine_waits pad fmem state w state2 w2.

(** Invocations that wait for the byte source call neither the encoder
    nor the callback. *)
Lemma engine_waits_quiet pad fmem state w state' w' :
  engine_waits pad fmem state w state' w' →
  ∃ new, w_trace w' = new ++ w_trace w ∧ Forall quiet new.
Proof.
  induction 1 as [state w|state w reads state1 w1 reads1 state2 w2 Hrun Hsusp _ IH].
  - by exists [].
  - destruct IH as (new2 & Htr2 & Hq2).
    destruct (process_loop_trace _ _ _ _ _ _ _ _ _ _ Hrun) as (new1 & Htr1 & Hshape).
    exists (new2 ++ new1). rewrite Htr2, Htr1, app_assoc. split; [done|].
    apply Forall_app. split; [done|].
    destruct Hshape as [[Hq _]|[(avrc & got & packet & rest & -> & _ & [=] & _)
                               |(avrc & packet & rest & -> & _)]]; [done|].
    unfold suspended in Hsusp. by rewrite Htr1 in Hsusp.
Qed.

(** ** Delivery *)

(** C3 (as amended), in three parts.

    In every invocation of [thumb_grabber_process] that returns, the
    delivery callback is invoked at most once.  One that returns VOD_OK
    has ended with exactly one delivery, answered VOD_OK, of the packet
    the encoder has just produced, and nothing is done after it.
    Whenever the callback is invoked, it is with the encoder's packet, as
    the last thing done, and the invocation returns the callback's own
    answer.  If the encoder yields no packet, the invocation returns
    VOD_UNEXPECTED and the callback is not invoked.

    Once the target frame is decoded (and the pictures owed flushed), the
    invocation does return, whatever the encoder answers: with
    VOD_UNEXPECTED, the encoder call being the last thing done, when the
    encoder fails or yields no packet; else with the answer of the
    callback, whatever it is, given the encoder's packet.

    Over the invocations of a request of which all but the last have
    returned VOD_AGAIN on an answer of the byte source, the callback is
    invoked at most once, and exactly once when the last returns
    VOD_OK. *)
Theorem delivery_at_most_once pad fmem :
  (∀ state w reads rc state' w' reads',
     thumb_grabber_process pad fmem state w reads = Returned (rc, state', w', reads') →
     ∃ new,
       w_trace w' = new ++ w_trace w ∧
       (count_writes new ≤ 1)%nat ∧
       (rc = VOD_OK →
        ∃ avrc packet rest,
          new = EvWrite packet VOD_OK :: EvEncode avrc true packet :: rest ∧
          Forall quiet rest) ∧
       (∀ data rc', EvWrite data rc' ∈ new →
          rc' = rc ∧
          ∃ avrc rest, new = EvWrite data rc :: EvEncode avrc true data :: rest ∧
                       Forall quiet rest) ∧
       (∀ avrc packet, EvEncode avrc false packet ∈ new →
          rc = VOD_UNEXPECTED ∧ count_writes new = 0%nat)) ∧
  (∀ state w rs state_n w_n state_s w_s rf rest state_d buffer w_d
     state1 w1 state2 w2 avrc got packet w3,
     loop_continues pad fmem false state w rs state_n w_n →
     process_start_frame state_n w_n = Returned (None, state_s, w_s) →
     r_rc rf = VOD_OK → r_done rf = true →
     decode_input state_s w_s rf = Returned (state_d, buffer, w_d) →
     thumb_grabber_decode_frame pad fmem state_d buffer w_d
     = Returned (VOD_OK, state1, w1) →
     skip_count state1 ≤ 0 →
     (if 0 <? missing_frames state1 then thumb_grabber_decode_flush state1 w1
      else Returned (VOD_OK, state1, w1)) = Returned (VOD_OK, state2, w2) →
     call_encode w2 = Some (avrc, got, packet, w3) →
     w_trace w3 = EvEncode avrc got packet :: w_trace w2 ∧
     (avrc < 0 ∨ got = false →
      thumb_grabber_process pad fmem state w (rs ++ rf :: rest)
      = Returned (VOD_UNEXPECTED, set_output_packet packet state2, w3, rest)) ∧
     (0 ≤ avrc → got = true →
      ∀ rc w4, call_write packet w3 = Some (rc, w4) →
        w_trace w4 = EvWrite packet rc :: w_trace w3 ∧
        thumb_grabber_process pad fmem state w (rs ++ rf :: rest)
        = Returned (rc, set_output_packet packet state2, w4, rest))) ∧
  (∀ state0 w0 state w reads rc state' w' reads',
     engine_waits pad fmem state0 w0 state w →
     thumb_grabber_process pad fmem state w reads = Returned (rc, state', w', reads') →
     ∃ new,
       w_trace w' = new ++ w_trace w0 ∧
       (count_writes new ≤ 1)%nat ∧
       (rc = VOD_OK → count_writes new = 1%nat)).
Proof.
  assert (∀ l e, Forall quiet l → e ∈ l → quiet e) as Hin.
  { intros l e Hq He. by eapply Forall_forall. }
  split; [|split].
  - intros state w reads rc state' w' reads' Hrun.
    destruct (process_loop_trace _ _ _ _ _ _ _ _ _ _ Hrun) as (new & Htr & Hshape).
    exists new. split; [done|].
    destruct Hshape as [[Hq Hrc]|[(avrc & got & packet & rest & -> & Hq & -> & Hbad)
                                 |(avrc & packet & rest & -> & Hq & Havrc)]].
    + rewrite (count_writes_quiet _ Hq). split; [lia|]. split; [done|]. split.
      * intros data rc' He. destruct (Hin _ _ Hq He).
      * intros avrc packet He. destruct (Hin _ _ Hq He).
    + simpl. rewrite (count_writes_quiet _ Hq). split; [lia|]. split; [done|]. split.
      * intros data rc' He. apply elem_of_cons in He as [[=]|He].
        destruct (Hin _ _ Hq He).
      * done.
    + simpl. rewrite (count_writes_quiet _ Hq). split; [lia|]. split; [|split].
      * intros ->. eauto.
      * intros data rc' He. apply elem_of_cons in He as [[= -> ->]|He]; [eauto|].
        apply elem_of_cons in He as [[=]|He]. destruct (Hin _ _ Hq He).
      * intros avrc' packet' He. apply elem_of_cons in He as [[=]|He].
        apply elem_of_cons in He as [[=]|He]. destruct (Hin _ _ Hq He).
  - intros state w rs state_n w_n state_s w_s rf rest state_d buffer w_d
      state1 w1 state2 w2 avrc got packet w3
      Hgo Hstart Hrc Hdone Hinput Hdec Hskip Hflush Henc.
    assert (thumb_grabber_process pad fmem state w (rs ++ rf :: rest)
            = match write_frame_encode state2 w2 with
              | Returned (rc, state, w) => Returned (rc, state, w, rest)
              | Fault => Fault
              | Exhausted => Exhausted
              end) as ->.
    { rewrite (process_run_decodes _ _ _ _ _ _ _ _ _ _ rest _ _ _
                 Hgo Hstart Hrc Hdone Hinput).
      unfold process_decode. rewrite Hdec. simpl.
      rewrite (proj2 (Z.leb_le _ _) Hskip). unfold thumb_grabber_write_frame.
      destruct (0 <? missing_frames state1).
      - rewrite Hflush. simpl.
        by destruct (write_frame_encode state2 w2) as [[[? ?] ?]| |].
      - injection Hflush as <- <-.
        by destruct (write_frame_encode state1 w1) as [[[? ?] ?]| |]. }
    unfold write_frame_encode. rewrite Henc.
    unfold call_encode in Henc. destruct (w_encode w2) as [|[[? ?] ?] enc]; [done|].
    injection Henc as -> -> -> <-. split; [done|]. split.
    + intros [Hneg| ->].
      * by rewrite (proj2 (Z.ltb_lt _ _) Hneg).
      * by destruct (avrc <? 0).
    + intros Hok -> rc w4 Hwrite.
      rewrite (proj2 (Z.ltb_ge _ _) Hok). simpl. simpl in Hwrite. rewrite Hwrite.
      split; [|done]. unfold call_write in Hwrite. simpl in Hwrite.
      destruct (w_write w2); [done|]. by injection Hwrite as <- <-.
  - intros state0 w0 state w reads rc state' w' reads' Hwaits Hrun.
    destruct (engine_waits_quiet _ _ _ _ _ _ Hwaits) as (new0 & Htr0 & Hq0).
    destruct (process_loop_trace _ _ _ _ _ _ _ _ _ _ Hrun) as (new & Htr & Hshape).
    exists (new ++ new0). rewrite Htr, Htr0, app_assoc. split; [done|].
    assert (count_writes (new ++ new0) = count_writes new) as ->.
    { clear -Hq0. induction new as [|e new IH]; simpl.
      - by apply count_writes_quiet.
      - destruct e; by rewrite ?IH. }
    destruct Hshape as [[Hq Hrc]|[(avrc & got & packet & rest & -> & Hq & -> & Hbad)
                                 |(avrc & packet & rest & -> & Hq & Havrc)]];
      simpl; rewrite (count_writes_quiet _ Hq); split; try lia; done.
Qed.

(** ** A frame that arrives in chunks *)

(** C7: when the bytes of a frame arrive in chunks, the last of which
    alone is marked complete, the incomplete chunks are iterations of the
    loop that go on; the complete one then gives the decode step a
    buffer that starts with the chunks concatenated in order, that is,
    with the frame as the source delivered it, whatever the sizes of the
    chunks, and the fill position is zero again.  The decode call is made
    on this buffer: when the decoder answers, the call returns, and the
    memory the decoder was shown holds these bytes at the packet's data
    pointer, followed by the zeroed margin. *)
Theorem fragmented_frame_reassembled pad fmem state w state0 w0 rs rf rest :
  process_start_frame state w = Returned (None, state0, w0) →
  cur_frame_pos state0 = 0 → scratch_holds pad state0 w0 [] →
  Forall (delivers false) rs → delivers true rf →
  0 ≤ max_frame_size state0 → max_frame_size state0 + Z.of_nat pad < 2 ^ 32 →
  Z.of_nat (length (bytes_of rs ++ chunk_of rf)) ≤ max_frame_size state0 →
  (frame_buffer state0 = None → rs ≠ [] →
   ∃ garbage rest', w_alloc w0 = Some garbage :: rest') →
  ∃ state_n w_n state_s w_s state_d buffer w_d,
    loop_continues pad fmem false state w rs state_n w_n ∧
    process_start_frame state_n w_n = Returned (None, state_s, w_s) ∧
    decode_input state_s w_s rf = Returned (state_d, buffer, w_d) ∧
    thumb_grabber_process pad fmem state w (rs ++ rf :: rest)
    = after_process_decode pad fmem rest (process_decode pad fmem state_d buffer w_d) ∧
    mem_load (w_mem w_d) buffer (length (bytes_of rs ++ chunk_of rf))
    = Some (bytes_of rs ++ chunk_of rf) ∧
    cur_frame_pos state_d = 0 ∧
    cur_frame state_d = cur_frame state0 ∧
    ∀ avrc got dec_rest original,
      size (fmem (cur_frame state_d)) = Z.of_nat (length (bytes_of rs ++ chunk_of rf)) →
      w_decode w_d = (avrc, got) :: dec_rest →
      mem_load (w_mem w_d) (frame_end fmem state_d buffer) pad = Some original →
      ∃ m_call state' w',
        thumb_grabber_decode_frame pad fmem state_d buffer w_d
        = Returned (if avrc <? 0 then VOD_BAD_DATA else VOD_OK, state', w') ∧
        w_trace w'
        = EvDecode (Some (cur_frame state_d)) (frame_packet fmem state_d buffer)
            m_call avrc got :: w_trace w_d ∧
        mem_load m_call buffer (length (bytes_of rs ++ chunk_of rf))
        = Some (bytes_of rs ++ chunk_of rf) ∧
        mem_load m_call (frame_end fmem state_d buffer) pad = Some (replicate pad x00).
Proof.
  intros Hstart Hpos Hscratch Hrs Hrf Hmfs Hfit Htotal Halloc.
  assert (frame_started state0 = true) as Hfs.
  { destruct (process_start_frame_cases _ _ _ _ _ Hstart)
      as [(? & _ & -> & _)|(_ & s1 & rc & _ & _ & _ & _ & [(_ & ? & _)|(_ & _ & ->)])];
      done. }
  destruct (loop_assembles pad fmem rs rf false state0 w0 [])
    as (state_n & w_n & state_d & buffer & w_d & Hgo & Hfs_n & Hin & Hload & Hoff
        & Hpos_d & Hcur_d); try done.
  assert (∃ state_m w_m,
            loop_continues pad fmem false state w rs state_m w_m ∧
            process_start_frame state_m w_m = Returned (None, state_n, w_n))
    as (state_m & w_m & Hgo' & Hstart').
  { inversion Hgo as [|pd s0 w0' s1 w1 r s2 w2 rs' s' w'' Hs Hr Hrest]; subst.
    - exists state, w. split; [constructor|done].
    - exists state_n, w_n. split; [|by apply process_start_frame_started].
      rewrite (process_start_frame_started _ _ Hfs) in Hs. injection Hs as <- <-.
      by eapply continues_more. }
  exists state_m, w_m, state_n, w_n, state_d, buffer, w_d.
  split; [done|]. split; [done|]. split; [done|]. split.
  { destruct Hrf as (Hrc & Hdone & _). by eapply process_run_decodes. }
  split; [done|]. split; [done|]. split; [done|].
  intros avrc got dec_rest original Hsize Hdec Hpad.
  by eapply decode_frame_shows.
Qed.

(** ** The theorems at work on concrete inputs *)

Lemma single_part_linked_nonempty p : linked_parts_nonempty [p].
Proof. intros i q Hq. destruct i; discriminate Hq. Defined.

(** C1, on the first scenario of the specification: five frames, key
    frame first, requested time 25; positions 2 and 3 are equally close
    and position 2 is chosen. *)
Lemma closest_selectable_frame_chosen_witness :
  (parts_nonempty Scenario.track5 ∧
   timeline_fits Scenario.mem5 Scenario.track5 ∧
   within_span Scenario.mem5 Scenario.track5 25) ∧
  ∃ track' k s,
    thumb_grabber_truncate_frames 6 0 0 Scenario.mem5 Scenario.track5 25
    = Returned (VOD_OK, track', Some (Z.of_nat s - Z.of_nat k)) ∧
    track_addrs track' = drop k (track_addrs Scenario.track5) ∧
    (k ≤ s)%nat ∧ selectable Scenario.mem5 Scenario.track5 s ∧
    (∀ j, selectable Scenario.mem5 Scenario.track5 j →
          time_distance Scenario.mem5 Scenario.track5 25 s
          ≤ time_distance Scenario.mem5 Scenario.track5 25 j) ∧
    (∀ j, selectable Scenario.mem5 Scenario.track5 j → (j < s)%nat →
          time_distance Scenario.mem5 Scenario.track5 25 s
          < time_distance Scenario.mem5 Scenario.track5 25 j).
Proof.
  assert (parts_nonempty Scenario.track5) as Hne.
  { split; [simpl; lia|apply single_part_linked_nonempty]. }
  assert (timeline_fits Scenario.mem5 Scenario.track5) as Hfit.
  { split; [|split].
    - vm_compute. discriminate.
    - intros j _. simpl. lia.
    - vm_compute. discriminate. }
  assert (within_span Scenario.mem5 Scenario.track5 25) as Hspan.
  { split; vm_compute; discriminate. }
  split; [done|].
  apply (closest_selectable_frame_chosen 6 0 0 Scenario.mem5 Scenario.track5 25
           Hne Hfit Hspan).
  - vm_compute. reflexivity.
  - exists 0%nat. split; [vm_compute; lia|reflexivity].
  - vm_compute. lia.
Defined.

(** C1 as stated fails when frames precede the first key frame: with two
    frames of which only the second is a key frame and requested time 0
    (the start of the span), the first frame is presented at distance 0,
    yet the function chooses the second, at distance 10. *)
Lemma closest_frame_counterexample :
  within_span Scenario.mem_late_key Scenario.track2 0 ∧
  key_frame (track_frame Scenario.mem_late_key Scenario.track2 1) = true ∧
  thumb_grabber_truncate_frames 3 0 0 Scenario.mem_late_key Scenario.track2 0
  = Returned (VOD_OK, mk_track (mk_part 1 2 0) [] 0 0 0, Some 0) ∧
  track_addrs (mk_track (mk_part 1 2 0) [] 0 0 0)
  = drop 1 (track_addrs Scenario.track2) ∧
  time_distance Scenario.mem_late_key Scenario.track2 0 0 = 0 ∧
  time_distance Scenario.mem_late_key Scenario.track2 0 1 = 10 ∧
  ¬ (∀ j, (j < frame_count Scenario.track2)%nat →
          time_distance Scenario.mem_late_key Scenario.track2 0 1
          ≤ time_distance Scenario.mem_late_key Scenario.track2 0 j).
Proof.
  split; [split; vm_compute; discriminate|].
  repeat split; try (vm_compute; reflexivity).
  intros Hall. specialize (Hall 0%nat ltac:(vm_compute; lia)).
  vm_compute in Hall. by apply Hall.
Qed.

(** C2, on the third scenario of the specification: parts A (frames 0..2,
    key frame first) and B (frames 3..4), a requested time past the end;
    frame 4 is chosen, the index stays at the key frame, skip count 4. *)
Lemma truncation_starts_at_key_frame_witness :
  (linked_parts_nonempty (track_chain Scenario.track_ab) ∧
   Z.of_nat (frame_count Scenario.track_ab) < 2 ^ 32 ∧
   thumb_grabber_truncate_frames 10 7 9 Scenario.mem5 Scenario.track_ab 1000
   = Returned (VOD_OK, Scenario.track_ab, Some 4)) ∧
  ∃ k s,
    track_addrs Scenario.track_ab = drop k (track_addrs Scenario.track_ab) ∧
    key_frame (Scenario.mem5 (first_frame (frames Scenario.track_ab))) = true ∧
    (k ≤ s < frame_count Scenario.track_ab)%nat ∧
    4 = Z.of_nat s - Z.of_nat k.
Proof.
  assert (linked_parts_nonempty (track_chain Scenario.track_ab)) as Hwf.
  { intros i p Hp. destruct i as [|i]; [|destruct i; discriminate Hp].
    injection Hp as <-. simpl. lia. }
  assert (Z.of_nat (frame_count Scenario.track_ab) < 2 ^ 32) as Hcount
    by (vm_compute; reflexivity).
  assert (thumb_grabber_truncate_frames 10 7 9 Scenario.mem5 Scenario.track_ab 1000
          = Returned (VOD_OK, Scenario.track_ab, Some 4)) as Hrun
    by (vm_compute; reflexivity).
  split; [exact (conj Hwf (conj Hcount Hrun))|].
  destruct (truncation_starts_at_key_frame 10 7 9 Scenario.mem5 Scenario.track_ab 1000
              Scenario.track_ab 4 Hwf Hcount Hrun)
    as (k & s & Haddrs & _ & Hkey & _ & Hks & _ & _ & _ & Hskip & _).
  exists k, s. exact (conj Haddrs (conj Hkey (conj Hks Hskip))).
Defined.

(** C8, on the same index: the largest of the first four frames, which
    lie in both parts, has 103 bytes. *)
Lemma max_frame_size_is_maximum_witness :
  (linked_parts_nonempty (track_chain Scenario.track_ab) ∧
   3 + 1 ≤ Z.of_nat (frame_count Scenario.track_ab)) ∧
  ∃ m, thumb_grabber_get_max_frame_size Scenario.mem5 Scenario.track_ab (3 + 1)
       = Returned m ∧
       (∀ j, Z.of_nat j ≤ 3 → size (track_frame Scenario.mem5 Scenario.track_ab j) ≤ m) ∧
       (∃ j, Z.of_nat j ≤ 3 ∧ size (track_frame Scenario.mem5 Scenario.track_ab j) = m).
Proof.
  assert (linked_parts_nonempty (track_chain Scenario.track_ab)) as Hwf.
  { intros i p Hp. destruct i as [|i]; [|destruct i; discriminate Hp].
    injection Hp as <-. simpl. lia. }
  assert (3 + 1 ≤ Z.of_nat (frame_count Scenario.track_ab)) as Hlimit
    by (vm_compute; discriminate).
  split; [exact (conj Hwf Hlimit)|].
  apply (max_frame_size_is_maximum Scenario.mem5 Scenario.track_ab 3 Hwf);
    [lia|exact Hlimit|].
  intros j _. simpl. lia.
Defined.

(** C9, on two frames that are no key frames, a decoder being
    registered. *)
Lemma no_frame_or_no_key_frame_fails_witness :
  thumb_grabber_truncate_frames 3 0 0 Scenario.mem_no_key Scenario.track2 5
  = Returned (VOD_UNEXPECTED, Scenario.track2, None) ∧
  thumb_grabber_init_state Scenario.mem_no_key (λ _, true) 3 0 0 Scenario.track2 5
    (mk_world [] [] [] [] [] [] [] [] [] [])
  = Returned (VOD_UNEXPECTED, Scenario.track2, None,
              mk_world [] [] [] [] [] [] [] [] [] []).
Proof.
  apply (no_frame_or_no_key_frame_fails Scenario.mem_no_key (λ _, true) 3 0 0
           Scenario.track2 5 (mk_world [] [] [] [] [] [] [] [] [] [])).
  - split; [simpl; lia|apply single_part_linked_nonempty].
  - vm_compute. lia.
  - intros j _. reflexivity.
Defined.

(** C9 as stated fails when no decoder is registered for the track's
    codec: on two frames that are no key frames the selection, run by
    itself, fails with VOD_UNEXPECTED, but [thumb_grabber_init_state]
    returns VOD_BAD_REQUEST. *)
Lemma init_state_gate_counterexample :
  frame_count Scenario.track2 = 2%nat ∧
  (∀ j, key_frame (track_frame Scenario.mem_no_key Scenario.track2 j) = false) ∧
  thumb_grabber_truncate_frames 3 0 0 Scenario.mem_no_key Scenario.track2 5
  = Returned (VOD_UNEXPECTED, Scenario.track2, None) ∧
  thumb_grabber_init_state Scenario.mem_no_key (λ _, false) 3 0 0 Scenario.track2 5
    (mk_world [] [] [] [] [] [] [] [] [] [])
  = Returned (VOD_BAD_REQUEST, Scenario.track2, None,
              mk_world [] [] [] [] [] [] [] [] [] []) ∧
  VOD_BAD_REQUEST ≠ VOD_UNEXPECTED.
Proof. repeat split; try (vm_compute; reflexivity). discriminate. Qed.

(** C3, on an encoder that yields no packet, on a callback that reports
    a failure, and on the request of two invocations of which the first
    waits for the byte source. *)
Lemma delivery_at_most_once_witness :
  (∃ state' w',
     thumb_grabber_process Tiny.pad Tiny.mem3 Tiny.state0 Tiny.world_no_packet
       ([] ++ Tiny.whole :: [])
     = Returned (VOD_UNEXPECTED, state', w', []) ∧
     count_writes (w_trace w') = 0%nat) ∧
  (∃ state' w',
     thumb_grabber_process Tiny.pad Tiny.mem3 Tiny.state0 Tiny.world_refused
       ([] ++ Tiny.whole :: [])
     = Returned (VOD_STATUS 7, state', w', []) ∧
     count_writes (w_trace w') = 1%nat) ∧
  (∃ state' w' new,
     thumb_grabber_process Pair.pad Pair.mem2 Pair.waiting.1 Pair.waiting.2 Pair.reads2
     = Returned (VOD_OK, state', w', []) ∧
     w_trace w' = new ++ w_trace Pair.w0 ∧ count_writes new = 1%nat).
Proof.
  destruct (delivery_at_most_once Tiny.pad Tiny.mem3) as (_ & Hends & _).
  destruct (delivery_at_most_once Pair.pad Pair.mem2) as (_ & _ & Hrequest).
  split; [|split].
  - epose proof (Hends Tiny.state0 Tiny.world_no_packet [] Tiny.state0
                   Tiny.world_no_packet _ _ Tiny.whole [] _ _ _ _ _ _ _ _ _ _ _)
      as Hrun.
    edestruct Hrun as (Htr & Hfail & _).
    + constructor.
    + vm_compute. reflexivity.
    + reflexivity.
    + reflexivity.
    + vm_compute. reflexivity.
    + vm_compute. reflexivity.
    + vm_compute. discriminate.
    + vm_compute. reflexivity.
    + vm_compute. reflexivity.
    + eexists _, _. split; [apply Hfail; by right|]. rewrite Htr. reflexivity.
  - epose proof (Hends Tiny.state0 Tiny.world_refused [] Tiny.state0
                   Tiny.world_refused _ _ Tiny.whole [] _ _ _ _ _ _ _ _ _ _ _)
      as Hrun.
    edestruct Hrun as (Htr & _ & Hdelivers).
    + constructor.
    + vm_compute. reflexivity.
    + reflexivity.
    + reflexivity.
    + vm_compute. reflexivity.
    + vm_compute. reflexivity.
    + vm_compute. discriminate.
    + vm_compute. reflexivity.
    + vm_compute. reflexivity.
    + edestruct Hdelivers as (Htr' & Hrun').
      * vm_compute. discriminate.
      * reflexivity.
      * vm_compute. reflexivity.
      * eexists _, _. split; [exact Hrun'|]. rewrite Htr', Htr. reflexivity.
  - edestruct (Hrequest Pair.state0 Pair.w0 Pair.waiting.1 Pair.waiting.2 Pair.reads2
                 VOD_OK) as (new & Htr & _ & Hone).
    + eapply (waits_more _ _ _ _ Pair.reads1); [vm_compute; reflexivity|exact I|].
      apply waits_done.
    + vm_compute. reflexivity.
    + eexists _, _, new. split; [vm_compute; reflexivity|]. split; [exact Htr|].
      by apply Hone.
Defined.

(** C3 as stated fails when the callback itself reports a failure: it has
    been invoked exactly once, and the run does not succeed.  And when
    the callback answers VOD_AGAIN and the engine is invoked again, the
    frame is read, decoded and encoded again and the callback is invoked
    a second time. *)
Lemma delivery_refused_counterexample :
  match thumb_grabber_process Tiny.pad Tiny.mem3 Tiny.state0 Tiny.world_refused
          [Tiny.whole] with
  | Returned (rc, _, w', _) =>
    rc = VOD_STATUS 7 ∧ rc ≠ VOD_OK ∧ count_writes (w_trace w') = 1%nat
  | _ => False
  end ∧
  match thumb_grabber_process Tiny.pad Tiny.mem3 Tiny.state0 Tiny.world_retry
          [Tiny.whole] with
  | Returned (rc1, state1, w1, _) =>
    rc1 = VOD_AGAIN ∧ count_writes (w_trace w1) = 1%nat ∧
    match thumb_grabber_process Tiny.pad Tiny.mem3 state1 w1 [Tiny.whole] with
    | Returned (rc2, _, w2, _) => rc2 = VOD_OK ∧ count_writes (w_trace w2) = 2%nat
    | _ => False
    end
  | _ => False
  end.
Proof. vm_compute. repeat split. discriminate. Qed.

(** C4, on a decode call without a picture and on two flushes. *)
Lemma latency_counted_then_flushed_before_encode_witness :
  (∃ state' w',
     thumb_grabber_decode_frame Tiny.pad Tiny.mem3 Tiny.started (0%nat, 0%nat)
       Tiny.world_late = Returned (VOD_OK, state', w') ∧
     missing_frames state' = missing_frames Tiny.started + 1) ∧
  (thumb_grabber_write_frame Tiny.pending2 (Tiny.world_flush (0, true))
   = write_frame_encode (set_missing_frames 0 Tiny.pending2)
       (after_flush (Tiny.world_flush (0, true)) [(0, true); (0, true)] []) ∧
   w_trace (after_flush (Tiny.world_flush (0, true)) [(0, true); (0, true)] [])
   = rev (flush_event [] <$> [(0, true); (0, true)]) ++ []) ∧
  (∃ state',
     thumb_grabber_write_frame Tiny.pending2 (Tiny.world_flush (0, false))
     = Returned (VOD_UNEXPECTED, state',
                 after_flush (Tiny.world_flush (0, false))
                   ([(0, true)] ++ [(0, false)]) []) ∧
     w_trace (after_flush (Tiny.world_flush (0, false)) ([(0, true)] ++ [(0, false)]) [])
     = rev (flush_event [] <$> [(0, true)] ++ [(0, false)]) ++ []).
Proof.
  destruct (latency_counted_then_flushed_before_encode Tiny.pad Tiny.mem3)
    as (Hcount & Hflush & Hbad).
  split; [|split].
  - apply (Hcount Tiny.started (0%nat, 0%nat) Tiny.world_late 0 [] [xaa; xbb]);
      [reflexivity|lia|vm_compute; discriminate|vm_compute; reflexivity|reflexivity].
  - apply (Hflush Tiny.pending2 (Tiny.world_flush (0, true)) [(0, true); (0, true)] []);
      [simpl; lia|reflexivity|reflexivity|].
    repeat constructor; simpl; lia.
  - apply (Hbad Tiny.pending2 (Tiny.world_flush (0, false)) [(0, true)] 0 false []);
      [vm_compute; reflexivity|reflexivity| |].
    + repeat constructor; simpl; lia.
    + intros [_ Hgot]. discriminate Hgot.
Defined.

(** C6, the failing input: the two bytes after the frame are aa bb on
    entry and 00 00 when the function returns VOD_BAD_DATA. *)
Lemma decode_error_leaves_margin_zeroed_witness :
  mem_load (w_mem Tiny.world_corrupt)
    (frame_end Tiny.mem3 Tiny.started (0%nat, 0%nat)) Tiny.pad = Some [xaa; xbb] ∧
  ∃ state' w',
    thumb_grabber_decode_frame Tiny.pad Tiny.mem3 Tiny.started (0%nat, 0%nat)
      Tiny.world_corrupt = Returned (VOD_BAD_DATA, state', w') ∧
    mem_load (w_mem w') (frame_end Tiny.mem3 Tiny.started (0%nat, 0%nat)) Tiny.pad
    = Some (replicate Tiny.pad x00).
Proof.
  split; [reflexivity|].
  apply (decode_error_leaves_margin_zeroed Tiny.pad Tiny.mem3 Tiny.started
           (0%nat, 0%nat) Tiny.world_corrupt (-1) false [] [xaa; xbb]);
    [reflexivity|lia|reflexivity].
Defined.



(** C7, on the frame 01 02 03 delivered as 01 and 02 03. *)
Lemma fragmented_frame_reassembled_witness :
  (Forall (delivers false) [Tiny.part1] ∧ delivers true Tiny.part2 ∧
   bytes_of [Tiny.part1] ++ chunk_of Tiny.part2 = [x01; x02; x03]) ∧
  ∃ state_n w_n state_s w_s state_d buffer w_d,
    loop_continues Tiny.pad Tiny.mem3 false Tiny.started Tiny.world_ok
      [Tiny.part1] state_n w_n ∧
    process_start_frame state_n w_n = Returned (None, state_s, w_s) ∧
    decode_input state_s w_s Tiny.part2 = Returned (state_d, buffer, w_d) ∧
    thumb_grabber_process Tiny.pad Tiny.mem3 Tiny.started Tiny.world_ok
      ([Tiny.part1] ++ Tiny.part2 :: [])
    = after_process_decode Tiny.pad Tiny.mem3 []
        (process_decode Tiny.pad Tiny.mem3 state_d buffer w_d) ∧
    mem_load (w_mem w_d) buffer
      (length (bytes_of [Tiny.part1] ++ chunk_of Tiny.part2))
    = Some (bytes_of [Tiny.part1] ++ chunk_of Tiny.part2) ∧
    cur_frame_pos state_d = 0.
Proof.
  assert (delivers false Tiny.part1) as H1.
  { split; [reflexivity|]. split; [reflexivity|]. split; [simpl; lia|simpl; lia]. }
  assert (delivers true Tiny.part2) as H2.
  { split; [reflexivity|]. split; [reflexivity|]. split; [simpl; lia|simpl; lia]. }
  split.
  { split; [by constructor|]. split; [exact H2|reflexivity]. }
  destruct (fragmented_frame_reassembled Tiny.pad Tiny.mem3 Tiny.started Tiny.world_ok
              Tiny.started Tiny.world_ok [Tiny.part1] Tiny.part2 [])
    as (state_n & w_n & state_s & w_s & state_d & buffer & w_d
        & Hgo & Hstart & Hin & Hrun & Hload & Hpos & _).
  - reflexivity.
  - reflexivity.
  - reflexivity.
  - by constructor.
  - exact H2.
  - vm_compute. discriminate.
  - vm_compute. reflexivity.
  - vm_compute. discriminate.
  - intros _ _. by exists [], [].
  - exists state_n, w_n, state_s, w_s, state_d, buffer, w_d.
    exact (conj Hgo (conj Hstart (conj Hin (conj Hrun (conj Hload Hpos))))).
Defined.

(** C10, on the frame delivered in one read. *)
Lemma complete_reads_bypass_scratch_buffer_witness :
  (process_read Tiny.pad Tiny.mem3 false Tiny.started Tiny.world_ok Tiny.whole
   = process_decode Tiny.pad Tiny.mem3 Tiny.started (read_pointer Tiny.world_ok)
       (after_read Tiny.started Tiny.world_ok Tiny.whole) ∧
   pkt_data (frame_packet Tiny.mem3 Tiny.started (read_pointer Tiny.world_ok))
   = Some (read_pointer Tiny.world_ok) ∧
   w_mem (after_read Tiny.started Tiny.world_ok Tiny.whole)
   = w_mem Tiny.world_ok ++ [r_buffer Tiny.whole] ∧
   w_trace (after_read Tiny.started Tiny.world_ok Tiny.whole)
   = EvRead (frames_source (cur_frame_part Tiny.started)) Tiny.whole
     :: w_trace Tiny.world_ok) ∧
  ∃ rc state' w' reads',
    thumb_grabber_process Tiny.pad Tiny.mem3 Tiny.state0 Tiny.world_ok [Tiny.whole]
    = Returned (rc, state', w', reads') ∧
    frame_buffer state' = None ∧
    ∃ new, w_trace w' = new ++ w_trace Tiny.world_ok ∧ count_allocs new = 0%nat.
Proof.
  destruct (complete_reads_bypass_scratch_buffer Tiny.pad Tiny.mem3)
    as (Hdirect & _ & Hrun).
  split.
  - apply (Hdirect false Tiny.started Tiny.world_ok Tiny.whole); reflexivity.
  - eexists _, _, _, _. split; [vm_compute; reflexivity|].
    eapply (Hrun Tiny.state0 Tiny.world_ok [Tiny.whole]).
    + reflexivity.
    + reflexivity.
    + intros r Hr _. apply list_elem_of_singleton in Hr. by subst r.
    + vm_compute. reflexivity.
Defined.

(** * Further properties of the code *)

(** ** The locals the function does not initialise *)

(** Two sets of locals that differ at most in [index] and
    [last_key_frame_index], and once a key frame was seen have the same
    distance between the two. *)
Definition same_but_index (l l' : truncate_locals) : Prop :=
  l_chain l = l_chain l' ∧
  l_last_key_frame_part l = l_last_key_frame_part l' ∧
  l_min_part l = l_min_part l' ∧
  l_part l = l_part l' ∧
  l_last_key_frame l = l_last_key_frame l' ∧
  l_cur_frame l = l_cur_frame l' ∧
  l_last_frame l = l_last_frame l' ∧
  l_dts l = l_dts l' ∧
  l_min_diff l = l_min_diff l' ∧
  l_min_index l = l_min_index l' ∧
  (l_last_key_frame l ≠ None →
   uint32 (l_index l - l_last_key_frame_index l)
   = uint32 (l_index l' - l_last_key_frame_index l')).

Definition outcome_rel {A} (R : A → A → Prop) (x y : outcome A) : Prop :=
  match x, y with
  | Returned a, Returned b => R a b
  | Fault, Fault => True
  | Exhausted, Exhausted => True
  | _, _ => False
  end.

Lemma truncate_next_part_same l l' :
  same_but_index l l' →
  option_Forall2 same_but_index (truncate_next_part l) (truncate_next_part l').
Proof.
  intros (Hc & Hkp & Hmp & Hp & Hk & Hcf & Hlf & Hd & Hmd & Hmi & Hidx).
  unfold truncate_next_part. rewrite <- Hlf, <- Hcf, <- Hc, <- Hp.
  destruct (decide (l_last_frame l ≤ l_cur_frame l)%nat).
  - destruct (l_chain l !! S (l_part l)) as [p|]; constructor.
    by repeat split.
  - constructor. by repeat split.
Qed.

Lemma uint32_index_step a b a' b' :
  uint32 (a - b) = uint32 (a' - b') →
  uint32 (uint32 (a + 1) - b) = uint32 (uint32 (a' + 1) - b').
Proof.
  unfold uint32. intros Heq. rewrite !Zminus_mod_idemp_l.
  replace (a + 1 - b) with ((a - b) + 1) by lia.
  replace (a' + 1 - b') with ((a' - b') + 1) by lia.
  rewrite <- (Zplus_mod_idemp_l (a - b)), <- (Zplus_mod_idemp_l (a' - b')).
  by rewrite Heq.
Qed.

Local Ltac same_done :=
  repeat split; rewrite ?Z.sub_diag; try done;
  intros ?; apply uint32_index_step; rewrite ?Z.sub_diag; auto.

Lemma truncate_visit_same fmem rt l l' :
  same_but_index l l' →
  outcome_rel same_but_index (truncate_visit fmem rt l) (truncate_visit fmem rt l').
Proof.
  intros (Hc & Hkp & Hmp & Hp & Hk & Hcf & Hlf & Hd & Hmd & Hmi & Hidx).
  destruct l as [chain kpart mpart part key cur last_ d md ki mi ix],
           l' as [chain' kpart' mpart' part' key' cur' last_' d' md' ki' mi' ix'].
  simpl in *. subst.
  unfold truncate_visit, truncate_update_key, truncate_update_min, truncate_advance.
  simpl.
  destruct (key_frame (fmem cur')); simpl.
  - destruct (_ <? _); simpl.
    + destruct (chain' !! part'); simpl; [|done].
      unfold same_but_index; simpl. same_done.
    + unfold same_but_index; simpl. same_done.
  - destruct (_ <? _); simpl.
    + case_bool_decide as Hkey; simpl.
      * destruct kpart' as [mp|]; [|done].
        destruct key' as [key|]; [|done].
        destruct (chain' !! mp); simpl; [|done].
        specialize (Hidx Hkey).
        unfold same_but_index; simpl. same_done.
      * unfold same_but_index; simpl. same_done.
    + unfold same_but_index; simpl. same_done.
Qed.

Lemma truncate_loop_same fmem rt fuel : ∀ l l',
  same_but_index l l' →
  outcome_rel same_but_index (truncate_loop fuel fmem rt l) (truncate_loop fuel fmem rt l').
Proof.
  induction fuel as [|fuel IH]; intros l l' Hrel; [done|].
  cbn [truncate_loop].
  destruct (truncate_next_part_same l l' Hrel) as [l1 l1' Hrel1|]; [|done].
  pose proof (truncate_visit_same fmem rt l1 l1' Hrel1) as Hvisit.
  destruct (truncate_visit fmem rt l1) as [l2| |],
           (truncate_visit fmem rt l1') as [l2'| |]; try done.
  by apply IH.
Qed.

(** X1: Whatever [index] and [last_key_frame_index] hold on entry, the
    function returns the same status, leaves the same index in the track
    and writes the same skip count: only the distance between the two
    counters is ever used, and only once a key frame has set the second
    from the first. *)
Theorem truncate_ignores_uninitialised_locals
    fuel index0 key_index0 index0' key_index0' fmem track requested_time :
  thumb_grabber_truncate_frames fuel index0 key_index0 fmem track requested_time
  = thumb_grabber_truncate_frames fuel index0' key_index0' fmem track requested_time.
Proof.
  unfold thumb_grabber_truncate_frames.
  pose proof (truncate_loop_same fmem (adjusted_time fmem track requested_time) fuel
                (truncate_init index0 key_index0 track)
                (truncate_init index0' key_index0' track)) as Hloop.
  destruct (truncate_loop fuel _ _ (truncate_init index0 key_index0 track)) as [l| |],
           (truncate_loop fuel _ _ (truncate_init index0' key_index0' track)) as [l'| |];
    try done; try (exfalso; apply Hloop; by repeat split).
  destruct Hloop as (Hc & _ & Hmp & _ & _ & _ & _ & _ & _ & Hmi & _);
    [by repeat split|].
  by rewrite Hc, Hmp, Hmi.
Qed.

(** ** A limit beyond the end of the index *)

Lemma max_frame_size_loop_past_end fmem limit : ∀ next cur last_ acc,
  (∀ p, p ∈ next → (first_frame p < last_frame p)%nat) →
  (length (seq cur (last_ - cur) ++ chain_addrs next) < limit)%nat →
  max_frame_size_loop limit fmem next cur last_ acc = Fault.
Proof.
  induction limit as [|limit IH]; intros next cur last_ acc Hne Hlen; [lia|].
  cbn [max_frame_size_loop].
  destruct (decide (last_ ≤ cur)%nat) as [Hend|Hin].
  - destruct next as [|p next]; [done|].
    assert (first_frame p < last_frame p)%nat as Hp by (apply Hne; by left).
    apply IH; [intros q Hq; apply Hne; by right|].
    replace (last_ - cur)%nat with 0%nat in Hlen by lia.
    rewrite chain_addrs_cons in Hlen. unfold part_addrs in Hlen.
    rewrite !length_app, !length_seq in *. simpl in Hlen. lia.
  - apply IH; [done|]. rewrite !length_app, !length_seq in *. lia.
Qed.

(** X2: [thumb_grabber_get_max_frame_size] does not look for the end of the
    index: asked for more frames than the index holds it follows the NULL
    [next] of the last part, and asked for no more than that it returns. *)
Theorem max_frame_size_limit_past_end fmem track limit :
  linked_parts_nonempty (track_chain track) →
  (thumb_grabber_get_max_frame_size fmem track limit = Fault
   ↔ Z.of_nat (frame_count track) < limit) ∧
  (limit ≤ Z.of_nat (frame_count track) →
   thumb_grabber_get_max_frame_size fmem track limit
   = Returned (max_size fmem (take (Z.to_nat limit) (track_addrs track)) 0)).
Proof.
  intros Hwf.
  assert (∀ p, p ∈ frames_next track → (first_frame p < last_frame p)%nat) as Hne.
  { intros p [i Hp]%list_elem_of_lookup. by apply (Hwf i). }
  assert (track_addrs track
          = seq (first_frame (frames track))
              (last_frame (frames track) - first_frame (frames track))
            ++ chain_addrs (frames_next track)) as Haddrs by done.
  assert (limit ≤ Z.of_nat (frame_count track) →
          thumb_grabber_get_max_frame_size fmem track limit
          = Returned (max_size fmem (take (Z.to_nat limit) (track_addrs track)) 0))
    as Hin.
  { intros Hle. unfold thumb_grabber_get_max_frame_size.
    rewrite max_frame_size_loop_spec; [by rewrite <- Haddrs|done|].
    rewrite <- Haddrs. unfold frame_count in Hle. lia. }
  split; [|done]. split.
  - intros Hfault. destruct (Z.le_gt_cases limit (Z.of_nat (frame_count track)));
      [|lia]. by rewrite Hin in Hfault.
  - intros Hlt. unfold thumb_grabber_get_max_frame_size.
    apply max_frame_size_loop_past_end; [done|].
    rewrite <- Haddrs. unfold frame_count in Hlt. lia.
Qed.

(** ** Asking for the time of a frame *)

(** X3: When the requested time, adjusted, is the very presentation time of a
    selectable frame and no selectable frame before it is presented at
    that time, the function chooses this frame: it leaves the index
    starting at the last key frame at or before it and writes the number
    of frames from there to it. *)
Theorem frame_time_selects_frame
    fuel index0 key_index0 fmem track requested_time j :
  parts_nonempty track → timeline_fits fmem track →
  within_span fmem track requested_time →
  Z.of_nat (frame_count track) < 2 ^ 32 →
  (frame_count track < fuel)%nat →
  selectable fmem track j →
  time_distance fmem track requested_time j = 0 →
  (∀ i, selectable fmem track i → (i < j)%nat →
        time_distance fmem track requested_time i ≠ 0) →
  ∃ track' k,
    thumb_grabber_truncate_frames fuel index0 key_index0 fmem track requested_time
    = Returned (VOD_OK, track', Some (Z.of_nat j - Z.of_nat k)) ∧
    track_addrs track' = drop k (track_addrs track) ∧
    (k ≤ j)%nat ∧ key_frame (track_frame fmem track k) = true ∧
    ∀ i, (k < i ≤ j)%nat → key_frame (track_frame fmem track i) = false.
Proof.
  intros Hne Hfit Hspan Hcount Hfuel [Hj Hcand] Hzero Hfirst.
  pose proof (truncate_frames_spec fuel index0 key_index0 fmem track requested_time
                (proj2 Hne) Hfuel) as Hspec.
  pose proof (best_spec (track_frame fmem track) (track_start track)
                (adjusted_time fmem track requested_time) (frame_count track)) as Hbest.
  fold (track_best fmem track requested_time) in Hbest.
  assert (∀ i, (i < frame_count track)%nat →
               diff_at (track_frame fmem track) (track_start track)
                 (adjusted_time fmem track requested_time) i
               = time_distance fmem track requested_time i ∧
               time_distance fmem track requested_time i < ULLONG_MAX) as Hdist.
  { intros i Hi.
    destruct (scan_distance_time_distance fmem track requested_time i Hne Hfit Hspan Hi)
      as [Heq Hlt].
    unfold scan_distance in *. by rewrite <- Heq. }
  assert (∀ i, 0 ≤ time_distance fmem track requested_time i) as Hpos.
  { intros i. unfold time_distance. lia. }
  destruct (track_best fmem track requested_time) as [[s k]|].
  - destruct Hspec as (track' & Hrun & Haddrs & _).
    destruct Hbest as (Hs & Hlast & _ & Hmin & Hties).
    destruct (last_key_before_Some _ _ _ Hlast) as (Hks & Hkey & Hnokey).
    assert (candidate (track_frame fmem track) s) as Hcs.
    { exists k. split; [lia|done]. }
    assert (time_distance fmem track requested_time s = 0) as Hs0.
    { specialize (Hmin j Hj Hcand).
      destruct (Hdist s Hs) as [Hes _], (Hdist j Hj) as [Hej _].
      rewrite Hes, Hej, Hzero in Hmin. specialize (Hpos s). lia. }
    assert (s = j) as ->.
    { destruct (Nat.lt_trichotomy s j) as [Hlt|[Heq|Hgt]]; [|done|].
      - by destruct (Hfirst s (conj Hs Hcs) Hlt).
      - specialize (Hties j Hgt Hcand).
        destruct (Hdist s Hs) as [Hes _], (Hdist j Hj) as [Hej _].
        rewrite Hes, Hej, Hzero, Hs0 in Hties. lia. }
    exists track', k. split.
    { rewrite Hrun. do 3 f_equal. unfold uint32. apply Z.mod_small. lia. }
    split; [done|]. split; [lia|]. split; [done|].
    intros i Hi. apply Hnokey. lia.
  - exfalso. specialize (Hbest j Hj Hcand).
    destruct (Hdist j Hj) as [Heq Hlt]. rewrite Heq in Hbest. lia.
Qed.

(** ** The decode calls of a request, in order *)

(** The frames handed to the decoder with their packets, latest first. *)
Fixpoint decode_calls (tr : list event) : list (nat * av_packet) :=
  match tr with
  | [] => []
  | EvDecode (Some a) pkt _ _ _ :: tr' => (a, pkt) :: decode_calls tr'
  | _ :: tr' => decode_calls tr'
  end.

(** The engine's [dts] after the frames at [addrs], from [d]. *)
Fixpoint dts_after (fmem : frame_mem) (d : Z) (addrs : list nat) : Z :=
  match addrs with
  | [] => d
  | a :: addrs' => dts_after fmem (uint64 (d + duration (fmem a))) addrs'
  end.

(** The packet of the frame at [a] when the engine's [dts] is [d], but
    for where its bytes lie. *)
Definition packet_of (fmem : frame_mem) (d : Z) (a : nat) (pkt : av_packet) : Prop :=
  pkt_dts pkt = int64 d ∧ pkt_pts pkt = int64 (uint64 (d + pts_delay (fmem a))) ∧
  pkt_size pkt = int32 (size (fmem a)) ∧ pkt_duration pkt = duration (fmem a) ∧
  pkt_key pkt = key_frame (fmem a).

(** [calls], earliest first, are the decode calls of the frames at
    [addrs], one each and in this order, with [dts] starting at [d]. *)
Fixpoint expect_calls (fmem : frame_mem) (d : Z) (addrs : list nat)
    (calls : list (nat * av_packet)) : Prop :=
  match addrs, calls with
  | [], [] => True
  | a :: addrs', (a', pkt) :: calls' =>
    a' = a ∧ packet_of fmem d a pkt ∧
    expect_calls fmem (uint64 (d + duration (fmem a))) addrs' calls'
  | _, _ => False
  end.

Lemma decode_calls_app tr1 tr2 :
  decode_calls (tr1 ++ tr2) = decode_calls tr1 ++ decode_calls tr2.
Proof.
  induction tr1 as [|e tr1 IH]; [done|].
  destruct e as [| | | | | | |[a|]| |]; simpl; by rewrite ?IH.
Qed.

Lemma decode_calls_tail tr : Forall engine_tail tr → decode_calls tr = [].
Proof.
  induction 1 as [|e tr He _ IH]; [done|].
  by destruct e as [| | | | | | |[a|]| |].
Qed.

Lemma dts_after_snoc fmem addrs : ∀ d a,
  dts_after fmem d (addrs ++ [a])
  = uint64 (dts_after fmem d addrs + duration (fmem a)).
Proof. induction addrs as [|b addrs IH]; intros d a; simpl; [done|apply IH]. Qed.

Lemma expect_calls_snoc fmem addrs : ∀ d calls a pkt,
  expect_calls fmem d addrs calls →
  packet_of fmem (dts_after fmem d addrs) a pkt →
  expect_calls fmem d (addrs ++ [a]) (calls ++ [(a, pkt)]).
Proof.
  induction addrs as [|b addrs IH]; intros d calls a pkt; simpl.
  - destruct calls; [done|done].
  - destruct calls as [|[b' pkt'] calls]; [done|].
    intros (-> & Hpkt & Hrest) Hlast. simpl. split; [done|]. split; [done|]. by apply IH.
Qed.

Lemma expect_calls_frames fmem addrs : ∀ d calls,
  expect_calls fmem d addrs calls → calls.*1 = addrs.
Proof.
  induction addrs as [|a addrs IH]; intros d [|[a' pkt] calls]; simpl; try done.
  intros (-> & _ & Hrest). f_equal. by eapply IH.
Qed.

(** The frames [R] of the request, the first [i] of them decoded: the
    cursor stands on the next one, the skip count and [dts] have moved
    with it, and the decode calls made are those of the [i] frames. *)
Definition engine_inv (fmem : frame_mem) (R : list nat) (skip0 dts0 : Z)
    (tr0 : list event) (i : nat) (state : thumb_grabber_state_t) (w : world) : Prop :=
  (∀ p, p ∈ cur_frame_part_next state → (first_frame p < last_frame p)%nat) ∧
  drop i R = cursor_addrs state ∧ (i ≤ length R)%nat ∧
  (frame_started state = true →
   (cur_frame state < last_frame (cur_frame_part state))%nat) ∧
  skip_count state = skip0 - Z.of_nat i ∧ 0 ≤ skip_count state ∧
  dts state = dts_after fmem dts0 (take i R) ∧
  ∃ new, w_trace w = new ++ tr0 ∧
         expect_calls fmem dts0 (take i R) (rev (decode_calls new)).

(** The frame at position [i] was decoded and the invocation returned. *)
Definition engine_done (fmem : frame_mem) (R : list nat) (skip0 dts0 : Z)
    (tr0 : list event) (i : nat) (rc : vod_status_t) (w : world) : Prop :=
  (i < length R)%nat ∧ Z.of_nat i ≤ skip0 ∧
  (rc = VOD_OK → Z.of_nat i = skip0) ∧ ¬ suspended w ∧
  ∃ new, w_trace w = new ++ tr0 ∧
         expect_calls fmem dts0 (take (S i) R) (rev (decode_calls new)).

(** The fields the cursor, the skip count and the timestamps live in. *)
Definition same_cursor (s s' : thumb_grabber_state_t) : Prop :=
  cur_frame_part s' = cur_frame_part s ∧
  cur_frame_part_next s' = cur_frame_part_next s ∧
  cur_frame s' = cur_frame s ∧ skip_count s' = skip_count s ∧
  frame_started s' = frame_started s ∧ dts s' = dts s.

Lemma engine_inv_events fmem R skip0 dts0 tr0 i state w state' w' new :
  engine_inv fmem R skip0 dts0 tr0 i state w →
  same_cursor state state' →
  w_trace w' = new ++ w_trace w → decode_calls new = [] →
  engine_inv fmem R skip0 dts0 tr0 i state' w'.
Proof.
  intros (Hne & Hcur & Hlen & Hon & Hskip & Hpos & Hdts & new0 & Htr & Hcalls)
    (Hp & Hn & Hc & Hs & Hf & Hd) Htr' Hnew.
  unfold engine_inv, cursor_addrs. rewrite Hp, Hn, Hc, Hs, Hf, Hd.
  repeat split; try done. exists (new ++ new0).
  rewrite Htr', Htr, app_assoc. split; [done|].
  by rewrite decode_calls_app, Hnew.
Qed.

Lemma start_frame_inv fmem R skip0 dts0 tr0 i state w o state' w' :
  engine_inv fmem R skip0 dts0 tr0 i state w →
  process_start_frame state w = Returned (o, state', w') →
  engine_inv fmem R skip0 dts0 tr0 i state' w' ∧
  match o with
  | Some rc => rc ≠ VOD_OK
  | None => frame_started state' = true
  end.
Proof.
  intros Hinv Hrun. pose proof Hinv as (Hne & Hcur & Hlen & Hon & Hskip & Hpos & Hdts & Hcalls).
  destruct (process_start_frame_cases _ _ _ _ _ Hrun)
    as [(Hfs & -> & -> & ->)|(Hfs & state1 & rc & Hmove & Htr & _ & _ & Hout)]; [done|].
  assert (engine_inv fmem R skip0 dts0 tr0 i state1 w ∧
          (cur_frame state1 < last_frame (cur_frame_part state1))%nat ∧
          frame_started state1 = false) as (Hinv1 & Hin1 & Hfs1).
  { destruct Hmove as [[Hin ->]|(Hend & p & next & Hnext & ->)]; [done|].
    assert (first_frame p < last_frame p)%nat as Hp.
    { apply Hne. rewrite Hnext. by left. }
    split; [|done]. repeat split; simpl; try done.
    - intros q Hq. apply Hne. rewrite Hnext. by right.
    - rewrite Hcur. unfold cursor_addrs. simpl. rewrite Hnext.
      replace (last_frame (cur_frame_part state) - cur_frame state)%nat
        with 0%nat by lia. done. }
  assert (engine_inv fmem R skip0 dts0 tr0 i state1 w') as Hinv1'.
  { by apply (engine_inv_events _ _ _ _ _ _ state1 w state1 w'
                [EvStartFrame (frames_source (cur_frame_part state1))
                   (cur_frame state1) rc]). }
  destruct Hinv1' as (Hne1 & Hcur1 & Hlen1 & _ & Hrest1).
  destruct Hout as [(Hrc & -> & ->)|(_ & -> & ->)].
  - split; [|done]. split; [done|]. split; [done|]. split; [done|]. split; [|done].
    intros Hfs'. congruence.
  - split; [|done]. split; [done|]. split; [done|]. split; [done|]. by split.
Qed.

(** When [process_decode] returns a status, the decoder failed on the
    frame, or the frame was the target. *)
Lemma process_decode_target pad fmem state buffer w rc state' w' :
  process_decode pad fmem state buffer w = Returned (Some rc, state', w') →
  rc ≠ VOD_OK ∨ skip_count state ≤ 0.
Proof.
  unfold process_decode.
  destruct (thumb_grabber_decode_frame pad fmem state buffer w)
    as [[[rc1 state1] w1]| |] eqn:Hdec; [|done|done].
  case_bool_decide as Hrc.
  - intros [= <- <- <-]. by left.
  - destruct (decode_frame_Returned _ _ _ _ _ _ _ _ Hdec)
      as (avrc & got & rest & original & m_zero & _ & _ & _ & Heq).
    assert (skip_count state1 = skip_count state) as ->.
    { destruct (avrc <? 0); simplify_eq; try done; by destruct got. }
    destruct (Z.leb_spec (skip_count state) 0); [|done]. by right.
Qed.

Lemma process_decode_dts pad fmem state buffer w state' w' :
  process_decode pad fmem state buffer w = Returned (None, state', w') →
  dts state' = uint64 (dts state + duration (fmem (cur_frame state))).
Proof.
  unfold process_decode.
  destruct (thumb_grabber_decode_frame pad fmem state buffer w)
    as [[[rc1 state1] w1]| |] eqn:Hdec; [|done|done].
  destruct (decode_frame_Returned _ _ _ _ _ _ _ _ Hdec)
    as (avrc & got & rest & original & m_zero & _ & _ & _ & Heq).
  assert (dts state1 = uint64 (dts state + duration (fmem (cur_frame state)))) as Hd.
  { destruct (avrc <? 0); simplify_eq; [done|]. by destruct got. }
  case_bool_decide; [done|].
  destruct (skip_count state1 <=? 0).
  - by destruct (thumb_grabber_write_frame _ _) as [[[? ?] ?]| |].
  - by intros [= <- <-].
Qed.

Lemma process_decode_inv pad fmem R skip0 dts0 tr0 i state buffer w o state' w' :
  engine_inv fmem R skip0 dts0 tr0 i state w → frame_started state = true →
  process_decode pad fmem state buffer w = Returned (o, state', w') →
  match o with
  | None => engine_inv fmem R skip0 dts0 tr0 (S i) state' w'
  | Some rc => engine_done fmem R skip0 dts0 tr0 i rc w'
  end.
Proof.
  intros (Hne & Hcur & Hlen & Hon & Hskip & Hpos & Hdts & new0 & Htr0 & Hcalls) Hfs Hrun.
  specialize (Hon Hfs).
  assert (cursor_addrs state
          = cur_frame state
            :: seq (S (cur_frame state))
                 (last_frame (cur_frame_part state) - S (cur_frame state))
               ++ chain_addrs (cur_frame_part_next state)) as Hhead.
  { unfold cursor_addrs.
    replace (last_frame (cur_frame_part state) - cur_frame state)%nat
      with (S (last_frame (cur_frame_part state) - S (cur_frame state))) by lia.
    done. }
  assert (R !! i = Some (cur_frame state)) as Hi.
  { pose proof (lookup_drop R i 0) as Hl. rewrite Hcur, Hhead in Hl.
    simpl in Hl. by rewrite Nat.add_0_r in Hl. }
  assert (take (S i) R = take i R ++ [cur_frame state]) as Htake
    by by apply take_S_r.
  destruct (process_decode_frame _ _ _ _ _ _ _ _ Hrun)
    as (x & y & z & m & avrc & got & tail & Htr & _ & Htail & _ & _ & Hst).
  assert (∃ new, w_trace w' = new ++ tr0 ∧
                 expect_calls fmem dts0 (take (S i) R) (rev (decode_calls new)))
    as Hcalls'.
  { eexists (tail ++ _ :: new0). rewrite Htr, Htr0. split; [by rewrite <- app_assoc|].
    rewrite decode_calls_app, (decode_calls_tail _ Htail). simpl.
    rewrite Htake. apply expect_calls_snoc; [done|].
    rewrite <- Hdts. by repeat split. }
  destruct o as [rc|].
  - split; [by eapply lookup_lt_Some|]. split; [lia|]. split; [|split; [|done]].
    + intros ->. destruct (process_decode_target _ _ _ _ _ _ _ _ Hrun); [done|lia].
    + unfold suspended. rewrite Htr.
      destruct Htail as [|e tail He _]; simpl; [tauto|].
      destruct e as [| | | | | | |[a|]| |]; simpl in *; tauto.
  - destruct Hst as (-> & _ & _ & Hmore).
    apply lookup_lt_Some in Hi. repeat split; simpl; try done; try lia.
    + replace (S i) with (i + 1)%nat by lia.
      by rewrite <- drop_drop, Hcur, Hhead.
    + rewrite Htake, dts_after_snoc, <- Hdts.
      apply (process_decode_dts _ _ _ _ _ _ _ Hrun).
Qed.


Lemma process_read_inv pad fmem R skip0 dts0 tr0 i processed_data state w r o state' w' :
  engine_inv fmem R skip0 dts0 tr0 i state w → frame_started state = true →
  process_read pad fmem processed_data state w r = Returned (o, state', w') →
  match o with
  | None => ∃ i', engine_inv fmem R skip0 dts0 tr0 i' state' w'
  | Some rc =>
    engine_inv fmem R skip0 dts0 tr0 i state' w' ∧ rc ≠ VOD_OK ∨
    engine_done fmem R skip0 dts0 tr0 i rc w'
  end.
Proof.
  intros Hinv Hfs Hrun.
  destruct (process_read_cases _ _ _ _ _ _ _ _ _ Hrun)
    as [(_ & -> & rc & -> & Hrc & Hst)
       |[(_ & _ & w_b & Hwb & Hcont & Hfail)
        |(_ & _ & state_d & buffer & w_d & Hdec & Hd)]].
  - left. split; [|done].
    apply (engine_inv_events _ _ _ _ _ _ state w state' _
             [EvRead (frames_source (cur_frame_part state)) r]); [done| |done|done].
    by destruct Hst as [->| ->].
  - assert (∃ new, w_trace w_b = new ++ w_trace w ∧ decode_calls new = [])
      as (new & Htr & Hnew).
    { destruct Hwb as [[_ ->]|(_ & b & Halloc & _)].
      - by eexists [_].
      - revert Halloc. unfold call_alloc. simpl.
        destruct (w_alloc w); [done|]. intros [= <- <-]. by eexists [_; _]. }
    destruct o as [rc|].
    + destruct (Hfail rc eq_refl) as [-> Hnone].
      destruct Hwb as [[Hsome _]|(_ & b & Halloc & Hb)]; [done|].
      destruct b as [fb|]; [done|].
      destruct Hb as (_ & -> & ->). left. split; [|done].
      by apply (engine_inv_events _ _ _ _ _ _ state w _ w_b new).
    + destruct (Hcont eq_refl) as (fb & m & _ & _ & -> & ->). exists i.
      by apply (engine_inv_events _ _ _ _ _ _ state w _ _ new).
  - assert (engine_inv fmem R skip0 dts0 tr0 i state_d w_d ∧
            frame_started state_d = true) as (Hinv_d & Hfs_d).
    { split.
      - apply (engine_inv_events _ _ _ _ _ _ state w state_d w_d
                 [EvRead (frames_source (cur_frame_part state)) r]).
        + done.
        + by destruct Hd as [(_ & -> & _ & _)|(_ & -> & _ & _)].
        + by destruct Hd as [(_ & _ & _ & ->)|(_ & _ & _ & m & _ & ->)].
        + done.
      - by destruct Hd as [(_ & -> & _ & _)|(_ & -> & _ & _)]. }
    pose proof (process_decode_inv _ _ _ _ _ _ _ _ _ _ _ _ _ Hinv_d Hfs_d Hdec) as Hout.
    destruct o as [rc|]; [by right|by exists (S i)].
Qed.

Lemma process_loop_inv pad fmem R skip0 dts0 tr0 reads :
  ∀ i processed_data state w rc state' w' reads',
  engine_inv fmem R skip0 dts0 tr0 i state w →
  process_loop pad fmem reads processed_data state w = Returned (rc, state', w', reads') →
  ∃ i', (engine_inv fmem R skip0 dts0 tr0 i' state' w' ∧ rc ≠ VOD_OK) ∨
        engine_done fmem R skip0 dts0 tr0 i' rc w'.
Proof.
  induction reads as [|r reads IH];
    intros i processed_data state w rc state' w' reads' Hinv;
    cbn [process_loop];
    destruct (process_start_frame state w) as [[[o1 state1] w1]| |] eqn:Hstart;
    try done;
    destruct (start_frame_inv _ _ _ _ _ _ _ _ _ _ _ Hinv Hstart) as (Hinv1 & Ho1);
    (destruct o1 as [rc1|]; [intros [= <- <- <- <-]; exists i; by left|]);
    [done|].
  destruct (process_read pad fmem processed_data state1 w1 r)
    as [[[o2 state2] w2]| |] eqn:Hread; [|done|done].
  pose proof (process_read_inv _ _ _ _ _ _ _ _ _ _ _ _ _ _ Hinv1 Ho1 Hread) as Hout.
  destruct o2 as [rc2|].
  - intros [= <- <- <- <-]. by exists i.
  - destruct Hout as [i' Hinv2]. intros Hrun. by eapply IH.
Qed.

Lemma engine_waits_inv pad fmem R skip0 dts0 tr0 state w state' w' :
  engine_waits pad fmem state w state' w' →
  ∀ i, engine_inv fmem R skip0 dts0 tr0 i state w →
  ∃ i', engine_inv fmem R skip0 dts0 tr0 i' state' w'.
Proof.
  induction 1 as [state w|state w reads state1 w1 reads1 state2 w2 Hrun Hsus _ IH];
    intros i Hinv; [by exists i|].
  destruct (process_loop_inv _ _ _ _ _ _ _ _ _ _ _ _ _ _ _ Hinv Hrun)
    as (i1 & [[Hinv1 _]|(_ & _ & _ & Hns & _)]); [|done].
  by eapply IH.
Qed.

(** A state on which no frame is being acquired, with the cursor in an
    index whose linked parts hold frames. *)
Definition engine_ready (state : thumb_grabber_state_t) : Prop :=
  frame_started state = false ∧ 0 ≤ skip_count state ∧
  ∀ p, p ∈ cur_frame_part_next state → (first_frame p < last_frame p)%nat.

Lemma engine_ready_inv fmem state w :
  engine_ready state →
  engine_inv fmem (cursor_addrs state) (skip_count state) (dts state) (w_trace w)
    0 state w.
Proof.
  intros (Hfs & Hskip & Hne). repeat split; try done.
  - lia.
  - intros Hfs'. congruence.
  - simpl. lia.
  - by exists [].
Qed.

Lemma engine_calls_spec pad fmem state0 w0 state w reads rc state' w' reads' :
  engine_ready state0 →
  engine_waits pad fmem state0 w0 state w →
  thumb_grabber_process pad fmem state w reads = Returned (rc, state', w', reads') →
  ∃ new n,
    w_trace w' = new ++ w_trace w0 ∧
    expect_calls fmem (dts state0) (take n (cursor_addrs state0))
      (rev (decode_calls new)) ∧
    (n ≤ length (cursor_addrs state0))%nat ∧
    Z.of_nat n ≤ skip_count state0 + 1 ∧
    (rc = VOD_OK → Z.of_nat n = skip_count state0 + 1).
Proof.
  intros Hready Hwaits Hrun.
  destruct (engine_waits_inv _ _ _ _ _ _ _ _ _ _ Hwaits 0%nat
              (engine_ready_inv fmem state0 w0 Hready)) as [i Hinv].
  destruct (process_loop_inv _ _ _ _ _ _ _ _ _ _ _ _ _ _ _ Hinv Hrun)
    as (i' & [[Hinv' Hrc]|(Hlen & Hle & Hok & _ & new & Htr & Hcalls)]).
  - destruct Hinv' as (_ & Hcur & Hlen & _ & Hskip & Hpos & _ & new & Htr & Hcalls).
    exists new, i'. split; [done|]. split; [done|].
    split; [done|]. split; [lia|done].
  - exists new, (S i'). split; [done|]. split; [done|]. split; [lia|].
    split; [lia|]. intros Hrc. specialize (Hok Hrc). lia.
Qed.

Lemma fmap_rev {A B} (f : A → B) (l : list A) : f <$> rev l = rev (f <$> l).
Proof.
  induction l as [|x l IH]; [done|]. simpl. by rewrite fmap_app, IH.
Qed.

Lemma decode_calls_frames tr : (decode_calls tr).*1 = decoded_frames tr.
Proof.
  induction tr as [|e tr IH]; [done|].
  destruct e as [| | | | | | |[a|]| |]; cbn [decode_calls decoded_frames];
    rewrite ?fmap_cons, ?IH; done.
Qed.




(** X4: Over the invocations of a request, [thumb_grabber_process] hands the
    decoder the frames under its cursor in index order, each one once:
    when an invocation returns, the frames decoded since the state was
    set up are the first [n] of the index the cursor started on, with [n]
    at most the skip count plus one, and exactly that when it returns
    VOD_OK. *)
Theorem engine_decodes_in_index_order
    pad fmem state0 w0 state w reads rc state' w' reads' :
  engine_ready state0 →
  engine_waits pad fmem state0 w0 state w →
  thumb_grabber_process pad fmem state w reads = Returned (rc, state', w', reads') →
  ∃ new n,
    w_trace w' = new ++ w_trace w0 ∧
    rev (decoded_frames new) = take n (cursor_addrs state0) ∧
    (n ≤ length (cursor_addrs state0))%nat ∧
    Z.of_nat n ≤ skip_count state0 + 1 ∧
    (rc = VOD_OK → Z.of_nat n = skip_count state0 + 1).
Proof.
  intros Hready Hwaits Hrun.
  destruct (engine_calls_spec _ _ _ _ _ _ _ _ _ _ _ Hready Hwaits Hrun)
    as (new & n & Htr & Hcalls & Hlen & Hle & Hok).
  exists new, n. split; [done|]. split; [|done].
  rewrite <- decode_calls_frames, <- fmap_rev. by eapply expect_calls_frames.
Qed.


(** What a successful selection returns, in positions of the index. *)
Lemma truncate_frames_selected fuel index0 key_index0 fmem track requested_time
    track' skip :
  linked_parts_nonempty (track_chain track) →
  Z.of_nat (frame_count track) < 2 ^ 32 →
  thumb_grabber_truncate_frames fuel index0 key_index0 fmem track requested_time
  = Returned (VOD_OK, track', Some skip) →
  ∃ k s,
    track_best fmem track requested_time = Some (s, k) ∧
    track_addrs track' = drop k (track_addrs track) ∧
    linked_parts_nonempty (track_chain track') ∧
    (k ≤ s < frame_count track)%nat ∧ skip = Z.of_nat s - Z.of_nat k.
Proof.
  intros Hwf Hcount Hrun.
  pose proof (truncate_frames_fuel_mono fuel (fuel `max` S (frame_count track))
                _ _ _ _ _ _ Hrun ltac:(lia)) as Hrun'.
  pose proof (truncate_frames_spec (fuel `max` S (frame_count track))
                index0 key_index0 fmem track requested_time Hwf ltac:(lia)) as Hspec.
  pose proof (best_spec (track_frame fmem track) (track_start track)
                (adjusted_time fmem track requested_time) (frame_count track)) as Hbest.
  fold (track_best fmem track requested_time) in Hbest.
  destruct (track_best fmem track requested_time) as [[s k]|];
    [|rewrite Hspec in Hrun'; done].
  destruct Hspec as (track1 & Hrun1 & Haddrs & Hfirst & Hwf' & _).
  rewrite Hrun1 in Hrun'. injection Hrun' as -> <-.
  destruct Hbest as (Hs & Hlast & _).
  destruct (last_key_before_Some _ _ _ Hlast) as (Hks & _).
  exists k, s. repeat split; try done; try lia.
  unfold uint32. apply Z.mod_small. lia.
Qed.


(** ** The calls to the byte source *)














(** ** A frame that arrives over several invocations *)

Lemma scratch_holds_same_mem pad state w state' w' prefix :
  scratch_holds pad state w prefix →
  frame_buffer state' = frame_buffer state →
  max_frame_size state' = max_frame_size state →
  w_mem w' = w_mem w →
  scratch_holds pad state' w' prefix.
Proof.
  unfold scratch_holds, scratch_size. by intros H -> -> ->.
Qed.

(** Incomplete chunks and then VOD_AGAIN: the invocation returns
    VOD_AGAIN with the chunks in the scratch buffer. *)
Lemma process_loop_buffers_again pad fmem again rest rs :
  ∀ processed_data state w prefix,
  frame_started state = true →
  Forall (delivers false) rs → r_rc again = VOD_AGAIN →
  (rs = [] → processed_data = true ∨ first_time state = true) →
  scratch_holds pad state w prefix →
  cur_frame_pos state = Z.of_nat (length prefix) →
  0 ≤ max_frame_size state → max_frame_size state + Z.of_nat pad < 2 ^ 32 →
  Z.of_nat (length (prefix ++ bytes_of rs)) ≤ max_frame_size state →
  (frame_buffer state = None → rs ≠ [] →
   ∃ garbage rest', w_alloc w = Some garbage :: rest') →
  ∃ state1 w1,
    process_loop pad fmem (rs ++ again :: rest) processed_data state w
    = Returned (VOD_AGAIN, state1, w1, rest) ∧
    scratch_holds pad state1 w1 (prefix ++ bytes_of rs) ∧
    cur_frame_pos state1 = Z.of_nat (length (prefix ++ bytes_of rs)) ∧
    frame_started state1 = true ∧ first_time state1 = false ∧
    max_frame_size state1 = max_frame_size state ∧
    cur_frame state1 = cur_frame state ∧
    (frame_buffer state ≠ None ∨ rs ≠ [] → frame_buffer state1 ≠ None).
Proof.
  induction rs as [|r rs IH];
    intros processed_data state w prefix Hfs Hrs Hagain Hprog Hscratch Hpos Hmfs Hfit
      Htotal Halloc.
  - simpl. rewrite (process_start_frame_started _ _ Hfs).
    rewrite (process_read_again _ _ _ _ _ _ Hagain).
    assert (negb processed_data && negb (first_time state) = false) as ->.
    { destruct (Hprog eq_refl) as [-> | ->]; [done|]. by rewrite andb_false_r. }
    do 2 eexists. split; [done|]. unfold bytes_of. simpl. rewrite app_nil_r.
    split; [by eapply scratch_holds_same_mem|]. repeat split; try done.
    simpl. by intros [?|?].
  - apply Forall_cons in Hrs as [Hr Hrs].
    cbn [app process_loop]. rewrite (process_start_frame_started _ _ Hfs).
    unfold bytes_of in Htotal |- *. cbn [fmap list_fmap concat] in Htotal |- *.
    fold (bytes_of rs) in Htotal |- *.
    destruct (process_read_buffers pad fmem processed_data state w r prefix)
      as (state1 & w1 & -> & Hscratch1 & Hpos1 & Hfb1 & Hfs1 & Hmfs1 & Hcur1); try done.
    { rewrite !length_app, (chunk_of_length _ _ Hr) in Htotal.
      destruct Hr as (_ & _ & ? & _). lia. }
    { intros Hnone. by apply Halloc. }
    destruct (IH true state1 w1 (prefix ++ chunk_of r))
      as (state2 & w2 & -> & Hscratch2 & Hpos2 & Hfs2 & Hft2 & Hmfs2 & Hcur2 & Hfb2).
    all: try done.
    all: try (by rewrite Hmfs1).
    all: try (by rewrite Hfs1).
    all: try (by left).
    all: try (by rewrite Hmfs1, <- app_assoc).
    all: try (intros Hn; by destruct (Hfb1 Hn)).
    exists state2, w2. rewrite <- !app_assoc in *. split; [done|].
    split; [done|]. split; [done|]. split; [done|]. split; [done|].
    split; [by rewrite Hmfs2|]. split; [by rewrite Hcur2|].
    intros _. apply Hfb2. by left.
Qed.

Lemma process_loop_started pad fmem state w state0 w0 r reads processed_data :
  process_start_frame state w = Returned (None, state0, w0) →
  frame_started state0 = true →
  process_loop pad fmem (r :: reads) processed_data state w
  = process_loop pad fmem (r :: reads) processed_data state0 w0.
Proof.
  intros Hstart Hfs. cbn [process_loop].
  by rewrite Hstart, (process_start_frame_started _ _ Hfs).
Qed.

(** X8: Reassembly survives a suspension: when some chunks of a frame arrive,
    the byte source then answers VOD_AGAIN, and the rest of the frame
    arrives in the next invocation, the first invocation returns
    VOD_AGAIN; in the second the incomplete chunks are iterations that go
    on, and the complete one gives the decode step a buffer that starts
    with all the chunks of both invocations, concatenated in order.  The
    decode call is made on this buffer: when the decoder answers, the
    call returns, and the memory the decoder was shown holds these bytes
    at the packet's data pointer, followed by the zeroed margin. *)
Theorem reassembly_survives_suspension
    pad fmem state w state0 w0 rs1 again rs2 rf rest :
  process_start_frame state w = Returned (None, state0, w0) →
  cur_frame_pos state0 = 0 → scratch_holds pad state0 w0 [] →
  rs1 ≠ [] → Forall (delivers false) rs1 → r_rc again = VOD_AGAIN →
  Forall (delivers false) rs2 → delivers true rf →
  0 ≤ max_frame_size state0 → max_frame_size state0 + Z.of_nat pad < 2 ^ 32 →
  Z.of_nat (length (bytes_of rs1 ++ bytes_of rs2 ++ chunk_of rf))
  ≤ max_frame_size state0 →
  (frame_buffer state0 = None → ∃ garbage rest', w_alloc w0 = Some garbage :: rest') →
  ∃ state1 w1 state_n w_n state_d buffer w_d,
    thumb_grabber_process pad fmem state w (rs1 ++ [again])
    = Returned (VOD_AGAIN, state1, w1, []) ∧
    loop_continues pad fmem false state1 w1 rs2 state_n w_n ∧
    process_start_frame state_n w_n = Returned (None, state_n, w_n) ∧
    decode_input state_n w_n rf = Returned (state_d, buffer, w_d) ∧
    thumb_grabber_process pad fmem state1 w1 (rs2 ++ rf :: rest)
    = after_process_decode pad fmem rest (process_decode pad fmem state_d buffer w_d) ∧
    mem_load (w_mem w_d) buffer
      (length (bytes_of rs1 ++ bytes_of rs2 ++ chunk_of rf))
    = Some (bytes_of rs1 ++ bytes_of rs2 ++ chunk_of rf) ∧
    cur_frame_pos state_d = 0 ∧ cur_frame state_d = cur_frame state0 ∧
    ∀ avrc got dec_rest original,
      size (fmem (cur_frame state_d))
      = Z.of_nat (length (bytes_of rs1 ++ bytes_of rs2 ++ chunk_of rf)) →
      w_decode w_d = (avrc, got) :: dec_rest →
      mem_load (w_mem w_d) (frame_end fmem state_d buffer) pad = Some original →
      ∃ m_call state' w',
        thumb_grabber_decode_frame pad fmem state_d buffer w_d
        = Returned (if avrc <? 0 then VOD_BAD_DATA else VOD_OK, state', w') ∧
        w_trace w'
        = EvDecode (Some (cur_frame state_d)) (frame_packet fmem state_d buffer)
            m_call avrc got :: w_trace w_d ∧
        mem_load m_call buffer (length (bytes_of rs1 ++ bytes_of rs2 ++ chunk_of rf))
        = Some (bytes_of rs1 ++ bytes_of rs2 ++ chunk_of rf) ∧
        mem_load m_call (frame_end fmem state_d buffer) pad = Some (replicate pad x00).
Proof.
  intros Hstart Hpos Hscratch Hrs1 Hdel1 Hagain Hdel2 Hrf Hmfs Hfit Htotal Halloc.
  assert (frame_started state0 = true) as Hfs.
  { destruct (process_start_frame_cases _ _ _ _ _ Hstart)
      as [(? & _ & -> & _)|(_ & s1 & rc & _ & _ & _ & _ & [(_ & ? & _)|(_ & _ & ->)])];
      done. }
  destruct (process_loop_buffers_again pad fmem again [] rs1 false state0 w0 [])
    as (state1 & w1 & Hrun1 & Hscratch1 & Hpos1 & Hfs1 & _ & Hmfs1 & Hcur1 & Hfb1);
    try done.
  { rewrite !length_app in Htotal. simpl. lia. }
  { intros Hnone _. by apply Halloc. }
  simpl in Hscratch1, Hpos1.
  destruct (loop_assembles pad fmem rs2 rf false state1 w1 (bytes_of rs1))
    as (state_n & w_n & state_d & buffer & w_d & Hgo & Hfs_n & Hin & Hload & Hoff
        & Hpos_d & Hcur_d); try done.
  { by rewrite Hmfs1. }
  { by rewrite Hmfs1. }
  { by rewrite Hmfs1. }
  { intros Hnone. destruct (Hfb1 (or_intror Hrs1) Hnone). }
  pose proof (process_start_frame_started _ w_n Hfs_n) as Hstart_n.
  exists state1, w1, state_n, w_n, state_d, buffer, w_d. split.
  { rewrite <- Hrun1. unfold thumb_grabber_process.
    destruct rs1 as [|r rs1]; [done|]. by apply process_loop_started. }
  split; [done|]. split; [done|]. split; [done|]. split.
  { destruct Hrf as (Hrc & Hdone & _). by eapply process_run_decodes. }
  split; [done|]. split; [done|]. split; [congruence|].
  intros avrc got dec_rest original Hsize Hdec Hpad.
  by eapply decode_frame_shows.
Qed.

(** ** The safety margin around a decode call *)

(** A store leaves the bytes before it, in its block, as they were. *)
Lemma mem_store_load_below m b off' bytes m' off n :
  mem_store m (b, off') bytes = Some m' → (off + n ≤ off')%nat →
  mem_load m' (b, off) n = mem_load m (b, off) n.
Proof.
  unfold mem_store, mem_load. simpl.
  destruct (m !! b) as [blk|] eqn:Hb; [|done].
  case_decide as Hlen; [|done]. intros [= <-] Hn.
  rewrite list_lookup_insert_eq by by eapply lookup_lt_Some.
  rewrite !length_app, length_take, length_drop.
  replace (off' `min` length blk + (length bytes + (length blk - (off' + length bytes))))%nat
    with (length blk) by lia.
  case_decide; [|done]. f_equal.
  apply list_eq. intros i. rewrite !lookup_take. case_decide; [|done].
  rewrite !lookup_drop, lookup_app_l by (rewrite length_take; lia).
  by rewrite lookup_take_lt by lia.
Qed.

(** A store leaves the other blocks as they were. *)
Lemma mem_store_other m p bytes m' b :
  mem_store m p bytes = Some m' → b ≠ p.1 → m' !! b = m !! b.
Proof.
  unfold mem_store. destruct (m !! p.1) as [blk|]; [|done].
  case_decide; [|done]. intros [= <-] Hb. by rewrite list_lookup_insert_ne.
Qed.

(** X9: Zeroing and restoring the margin is a round trip: when the decoder
    reports no error, [thumb_grabber_decode_frame] returns VOD_OK and the
    memory is byte for byte what it was on entry, while the decoder was
    shown the frame's bytes as they are, the margin after them zeroed,
    and every other buffer untouched. *)
Theorem decode_margin_round_trip
    pad fmem state b off w avrc got_frame rest original :
  w_decode w = (avrc, got_frame) :: rest → 0 ≤ avrc →
  mem_load (w_mem w) (frame_end fmem state (b, off)) pad = Some original →
  ∃ state' w' m_call,
    thumb_grabber_decode_frame pad fmem state (b, off) w
    = Returned (VOD_OK, state', w') ∧
    w_mem w' = w_mem w ∧
    w_trace w'
    = EvDecode (Some (cur_frame state)) (frame_packet fmem state (b, off))
        m_call avrc got_frame :: w_trace w ∧
    mem_load m_call (frame_end fmem state (b, off)) pad = Some (replicate pad x00) ∧
    mem_load m_call (b, off) (Z.to_nat (size (fmem (cur_frame state))))
    = mem_load (w_mem w) (b, off) (Z.to_nat (size (fmem (cur_frame state)))) ∧
    ∀ b', b' ≠ b → m_call !! b' = w_mem w !! b'.
Proof.
  intros Hdec Havrc Hload.
  destruct (decode_frame_spec pad fmem state (b, off) w avrc got_frame rest original
              Hdec Hload) as (m_zero & Hzero & ->).
  replace (avrc <? 0) with false by (symmetry; apply Z.ltb_ge; lia).
  do 2 eexists. exists m_zero. split; [done|]. simpl.
  split; [done|]. split; [done|]. unfold vod_memzero in Hzero. split; [|split].
  - pose proof (mem_store_load _ _ _ _ Hzero) as Hz.
    by rewrite length_replicate in Hz.
  - unfold frame_end, ptr_add in Hzero. simpl in Hzero.
    apply (mem_store_load_below _ _ _ _ _ _ _ Hzero). lia.
  - intros b' Hb'. by apply (mem_store_other _ _ _ _ _ Hzero).
Qed.

Lemma decode_flush_loop_no_fault fuel : ∀ state w,
  decode_flush_loop fuel state w ≠ Fault.
Proof.
  induction fuel as [|fuel IH]; intros state w; simpl.
  - by destruct (0 <? missing_frames state).
  - destruct (0 <? missing_frames state); [|done].
    destruct (call_decode None empty_packet w) as [[[avrc got] w1]|]; [|done].
    destruct (avrc <? 0); [done|]. destruct (negb got); [done|]. apply IH.
Qed.

Lemma write_frame_no_fault state w : thumb_grabber_write_frame state w ≠ Fault.
Proof.
  assert (∀ s w0, write_frame_encode s w0 ≠ Fault) as Henc.
  { intros s w0. unfold write_frame_encode.
    destruct (call_encode w0) as [[[[avrc got] packet] w1]|]; [|done].
    destruct (avrc <? 0); [done|]. destruct (negb got); [done|].
    by destruct (call_write _ w1) as [[rc w2]|]. }
  unfold thumb_grabber_write_frame.
  destruct (0 <? missing_frames state); [|apply Henc].
  unfold thumb_grabber_decode_flush.
  pose proof (decode_flush_loop_no_fault (Z.to_nat (missing_frames state)) state w).
  destruct (decode_flush_loop _ state w) as [[[rc state1] w1]| |]; [|done|done].
  case_bool_decide; [done|apply Henc].
Qed.

Lemma decode_frame_fault pad fmem state buffer w :
  thumb_grabber_decode_frame pad fmem state buffer w = Fault
  ↔ mem_load (w_mem w) (frame_end fmem state buffer) pad = None.
Proof.
  split.
  - intros Hfault.
    destruct (mem_load (w_mem w) (frame_end fmem state buffer) pad)
      as [original|] eqn:Hload; [|done].
    destruct (w_decode w) as [|[avrc got] rest] eqn:Hdec.
    + exfalso. revert Hfault. unfold thumb_grabber_decode_frame.
      fold (frame_end fmem state buffer). rewrite Hload.
      destruct (mem_store_is_Some _ _ _ (replicate pad x00) _ Hload) as [m_zero Hzero];
        [by rewrite length_replicate|].
      unfold vod_memzero. rewrite Hzero.
      unfold call_decode. simpl. by rewrite Hdec.
    + destruct (decode_frame_spec pad fmem state buffer w avrc got rest original
                  Hdec Hload) as (m_zero & _ & Heq).
      by rewrite Heq in Hfault.
  - intros Hload. unfold thumb_grabber_decode_frame.
    fold (frame_end fmem state buffer). by rewrite Hload.
Qed.

(** X10: A frame that arrives complete in one read is decoded where the byte
    source put it: the source's buffer must reach the safety margin past
    the frame's declared size (whatever size the read reported), or the
    margin is saved and zeroed outside the buffer. *)
Theorem complete_read_needs_margin pad fmem processed_data state w r :
  r_rc r = VOD_OK → r_done r = true → cur_frame_pos state = 0 →
  process_read pad fmem processed_data state w r = Fault
  ↔ (length (r_buffer r)
     < Z.to_nat (size (fmem (cur_frame state))) + pad)%nat.
Proof.
  intros Hrc Hdone Hpos.
  rewrite (process_read_complete_direct _ _ _ _ _ _ Hrc Hdone Hpos).
  assert (mem_load (w_mem (after_read state w r))
            (frame_end fmem state (read_pointer w)) pad = None
          ↔ (length (r_buffer r)
             < Z.to_nat (size (fmem (cur_frame state))) + pad)%nat) as Hbound.
  { unfold mem_load, frame_end, ptr_add, read_pointer, after_read. simpl.
    rewrite lookup_app_r by lia. rewrite Nat.sub_diag. simpl.
    case_decide; [split; [done|lia]|split; [lia|done]]. }
  rewrite <- Hbound, <- decode_frame_fault. unfold process_decode.
  destruct (thumb_grabber_decode_frame pad fmem state (read_pointer w)
              (after_read state w r)) as [[[rc1 state1] w1]| |]; [|done|].
  - split; [|done]. case_bool_decide; [done|].
    destruct (skip_count state1 <=? 0); [|done].
    pose proof (write_frame_no_fault state1 w1).
    by destruct (thumb_grabber_write_frame state1 w1) as [[[? ?] ?]| |].
  - done.
Qed.

(** ** Setting up a request *)

(** The size the state is given is what
    [thumb_grabber_get_max_frame_size] returns for the index the selection
    left and one frame more than its skip count. *)
Lemma init_state_sized fmem decoder_codec fuel index0 key_index0 track requested_time
    w rc track' state0 w0 :
  thumb_grabber_init_state fmem decoder_codec fuel index0 key_index0 track
    requested_time w = Returned (rc, track', Some state0, w0) →
  thumb_grabber_get_max_frame_size fmem track' (uint32 (skip_count state0 + 1))
  = Returned (max_frame_size state0).
Proof.
  unfold thumb_grabber_init_state, thumb_grabber_init_codec.
  destruct (negb (decoder_codec (codec_id track))); [done|].
  destruct (thumb_grabber_truncate_frames _ _ _ _ _ _) as [[[rc1 track1] skip1]| |];
    [|done|done].
  case_bool_decide as Hrc; [done|].
  destruct skip1 as [skip|]; [|done].
  intros Hrun.
  repeat (case_match; simplify_eq/=; try done).
Qed.

Lemma uint32_le x : 0 ≤ x → 0 ≤ uint32 x ≤ x.
Proof.
  intros Hx. unfold uint32. split; [apply Z.mod_pos_bound; lia|].
  apply Z.mod_le; lia.
Qed.

(** X11: On an index whose linked parts hold frames, setting up a request
    never follows a NULL part pointer: the selection stops at the last
    part, and the sizing is asked for no more frames than the index the
    selection left holds. *)
Theorem init_state_stays_in_index
    fmem decoder_codec fuel index0 key_index0 track requested_time w :
  linked_parts_nonempty (track_chain track) → (frame_count track < fuel)%nat →
  thumb_grabber_init_state fmem decoder_codec fuel index0 key_index0 track
    requested_time w ≠ Fault.
Proof.
  intros Hwf Hfuel.
  pose proof (truncate_frames_spec fuel index0 key_index0 fmem track requested_time
                Hwf Hfuel) as Hspec.
  pose proof (best_spec (track_frame fmem track) (track_start track)
                (adjusted_time fmem track requested_time) (frame_count track)) as Hbest.
  fold (track_best fmem track requested_time) in Hbest.
  unfold thumb_grabber_init_state, thumb_grabber_init_codec.
  destruct (negb (decoder_codec (codec_id track))); [done|].
  destruct (track_best fmem track requested_time) as [[s k]|].
  - destruct Hspec as (track' & -> & Haddrs & Hfirst & Hwf' & _).
    destruct Hbest as (Hs & Hlast & _).
    destruct (last_key_before_Some _ _ _ Hlast) as (Hks & _).
    rewrite bool_decide_false by (intros Hne; by apply Hne).
    assert (thumb_grabber_get_max_frame_size fmem track'
              (uint32 (uint32 (Z.of_nat s - Z.of_nat k) + 1)) ≠ Fault) as Hsize.
    { unfold thumb_grabber_get_max_frame_size.
      rewrite max_frame_size_loop_spec; [done| |].
      - intros p [i Hp]%list_elem_of_lookup. by apply (Hwf' i).
      - change (seq _ _ ++ chain_addrs (frames_next track')) with (track_addrs track').
        rewrite Haddrs, length_drop. fold (frame_count track).
        pose proof (uint32_le (Z.of_nat s - Z.of_nat k) ltac:(lia)).
        pose proof (uint32_le (uint32 (Z.of_nat s - Z.of_nat k) + 1) ltac:(lia)).
        lia. }
    repeat (case_match; simplify_eq/=; try done).
  - rewrite Hspec. by rewrite bool_decide_true.
Qed.

(** An allocation, if the event is one, asks for [sz] bytes. *)
Definition allocates (sz : Z) (e : event) : Prop :=
  match e with
  | EvAlloc s _ => s = sz
  | _ => True
  end.

Lemma engine_tail_allocates sz tail :
  Forall engine_tail tail → Forall (allocates sz) tail.
Proof.
  intros Htail. eapply Forall_impl; [exact Htail|]. by intros [].
Qed.

Lemma process_start_frame_allocates sz state w o state' w' :
  process_start_frame state w = Returned (o, state', w') →
  max_frame_size state' = max_frame_size state ∧
  ∃ new, w_trace w' = new ++ w_trace w ∧ Forall (allocates sz) new.
Proof.
  intros Hstart.
  destruct (process_start_frame_cases _ _ _ _ _ Hstart)
    as [(_ & _ & -> & ->)|(_ & state1 & rc & Hstate1 & Htr & _ & _ & Hout)].
  - split; [done|]. by exists [].
  - assert (max_frame_size state1 = max_frame_size state) as Hm.
    { by destruct Hstate1 as [[_ ->]|(_ & p & next & _ & ->)]. }
    split.
    + by destruct Hout as [(_ & _ & ->)|(_ & _ & ->)].
    + eexists [_]. split; [exact Htr|]. by repeat constructor.
Qed.

Lemma process_read_allocates pad fmem processed_data state w r o state' w' :
  process_read pad fmem processed_data state w r = Returned (o, state', w') →
  max_frame_size state' = max_frame_size state ∧
  ∃ new, w_trace w' = new ++ w_trace w ∧
         Forall (allocates (scratch_size pad state)) new.
Proof.
  intros Hread.
  destruct (process_read_cases _ _ _ _ _ _ _ _ _ Hread)
    as [(_ & -> & rc & _ & _ & Hst)
       |[(_ & _ & w_b & Hwb & Hnone & Hsome)
        |(_ & _ & state_d & buffer & w_d & Hdec & Hin)]].
  - split; [by destruct Hst as [-> | ->]|].
    eexists [_]. split; [done|]. by repeat constructor.
  - assert (∃ new, w_trace w_b = new ++ w_trace w ∧
                   Forall (allocates (scratch_size pad state)) new) as (new & Htr & Hall).
    { destruct Hwb as [(_ & ->)|(_ & b & Hal & _)].
      - eexists [_]. split; [done|]. by repeat constructor.
      - unfold call_alloc in Hal. simpl in Hal.
        destruct (w_alloc w) as [|a rest]; [done|]. injection Hal as _ <-.
        eexists [_; _]. split; [done|]. by repeat constructor. }
    destruct o as [rc|].
    + destruct (Hsome rc eq_refl) as (-> & Hfb).
      destruct Hwb as [(Hne & _)|(_ & b & Hal & Hb)]; [done|].
      destruct b as [b|]; [done|]. destruct Hb as (_ & -> & ->).
      split; [done|]. by exists new.
    + destruct (Hnone eq_refl) as (fb & m & _ & _ & -> & ->).
      split; [done|]. by exists new.
  - destruct (process_decode_frame _ _ _ _ _ _ _ _ Hdec)
      as (x & y & z & m & avrc & got & tail & Htr & _ & Htail & _ & _ & Hst).
    assert (max_frame_size state_d = max_frame_size state ∧
            w_trace w_d = EvRead (frames_source (cur_frame_part state)) r :: w_trace w)
      as (Hm & Htr_d).
    { destruct Hin as [(_ & -> & _ & ->)|(_ & -> & _ & m' & _ & ->)]; done. }
    split.
    + rewrite <- Hm. destruct o; [by subst|]. by destruct Hst as (-> & _).
    + exists (tail ++ [EvDecode (Some (cur_frame state_d))
                         (frame_packet fmem state_d buffer) m avrc got;
                       EvRead (frames_source (cur_frame_part state)) r]).
      rewrite Htr, Htr_d, <- app_assoc. split; [done|].
      apply Forall_app. split; [by apply engine_tail_allocates|].
      by repeat constructor.
Qed.

Lemma process_loop_allocates pad fmem reads :
  ∀ processed_data state w rc state' w' reads',
  process_loop pad fmem reads processed_data state w = Returned (rc, state', w', reads') →
  max_frame_size state' = max_frame_size state ∧
  ∃ new, w_trace w' = new ++ w_trace w ∧
         Forall (allocates (scratch_size pad state)) new.
Proof.
  induction reads as [|r reads IH]; intros processed_data state w rc state' w' reads';
    cbn [process_loop];
    destruct (process_start_frame state w) as [[[o1 state1] w1]| |] eqn:Hstart;
    try done;
    destruct (process_start_frame_allocates (scratch_size pad state) _ _ _ _ _ Hstart)
      as (Hm1 & new1 & Htr1 & Hall1);
    (destruct o1 as [rc1|]; [intros [= <- <- <- <-]; split; [done|]; by exists new1|]);
    [done|].
  assert (scratch_size pad state1 = scratch_size pad state) as Hss
    by (unfold scratch_size; by rewrite Hm1).
  destruct (process_read pad fmem processed_data state1 w1 r)
    as [[[o2 state2] w2]| |] eqn:Hread; [|done|done].
  destruct (process_read_allocates _ _ _ _ _ _ _ _ _ Hread) as (Hm2 & new2 & Htr2 & Hall2).
  rewrite Hss in Hall2.
  destruct o2 as [rc2|].
  - intros [= <- <- <- <-]. split; [congruence|]. exists (new2 ++ new1).
    rewrite Htr2, Htr1, app_assoc. split; [done|]. by apply Forall_app.
  - intros Hrun. destruct (IH _ _ _ _ _ _ _ Hrun) as (Hm & new & Htr & Hall).
    split; [congruence|]. exists (new ++ new2 ++ new1).
    rewrite Htr, Htr2, Htr1, !app_assoc. split; [done|].
    replace (scratch_size pad state2) with (scratch_size pad state) in Hall
      by (unfold scratch_size; congruence).
    rewrite <- app_assoc. by repeat (apply Forall_app; split).
Qed.

Lemma engine_waits_allocates pad fmem state w state' w' :
  engine_waits pad fmem state w state' w' →
  max_frame_size state' = max_frame_size state ∧
  ∃ new, w_trace w' = new ++ w_trace w ∧
         Forall (allocates (scratch_size pad state)) new.
Proof.
  induction 1 as [state w|state w reads state1 w1 reads1 state2 w2 Hrun _ _ IH].
  - split; [done|]. by exists [].
  - destruct IH as (Hm2 & new2 & Htr2 & Hall2).
    destruct (process_loop_allocates _ _ _ _ _ _ _ _ _ _ Hrun) as (Hm1 & new1 & Htr1 & Hall1).
    split; [congruence|]. exists (new2 ++ new1). rewrite Htr2, Htr1, app_assoc.
    split; [done|]. apply Forall_app. split; [|done].
    replace (scratch_size pad state) with (scratch_size pad state1)
      by (unfold scratch_size; congruence). done.
Qed.

(** X12: Every frame the engine decodes for a request fits the size the
    request was set up with: its declared size is at most the state's
    [max_frame_size], whatever part it lies in.  The size stays as set up,
    and the one allocation the engine makes, that of the scratch buffer,
    asks for [max_frame_size] plus the margin, taken in 32 bits.  So when
    that sum does not wrap, the scratch buffer is asked with room for
    each of the frames decoded and the margin after it. *)
Theorem decoded_frames_fit_max_frame_size
    fmem decoder_codec fuel index0 key_index0 track requested_time w_init
    rc0 track' state0 w0 pad state w reads rc state' w' reads' :
  linked_parts_nonempty (track_chain track) →
  Z.of_nat (frame_count track) < 2 ^ 32 →
  thumb_grabber_init_state fmem decoder_codec fuel index0 key_index0 track
    requested_time w_init = Returned (rc0, track', Some state0, w0) →
  engine_waits pad fmem state0 w0 state w →
  thumb_grabber_process pad fmem state w reads = Returned (rc, state', w', reads') →
  ∃ new,
    w_trace w' = new ++ w_trace w0 ∧
    max_frame_size state' = max_frame_size state0 ∧
    (∀ a, a ∈ decoded_frames new → size (fmem a) ≤ max_frame_size state0) ∧
    (∀ sz ok, EvAlloc sz ok ∈ new →
       sz = uint32 (max_frame_size state0 + Z.of_nat pad)) ∧
    (max_frame_size state0 + Z.of_nat pad < 2 ^ 32 →
     ∀ a sz ok, a ∈ decoded_frames new → EvAlloc sz ok ∈ new →
       size (fmem a) + Z.of_nat pad ≤ sz).
Proof.
  intros Hwf Hcount Hinit Hwaits Hrun.
  destruct (engine_waits_allocates _ _ _ _ _ _ Hwaits) as (Hm_w & new_w & Htr_w & Hall_w).
  destruct (process_loop_allocates _ _ _ _ _ _ _ _ _ _ Hrun)
    as (Hm_r & new_r & Htr_r & Hall_r).
  replace (scratch_size pad state) with (scratch_size pad state0) in Hall_r
    by (unfold scratch_size; congruence).
  pose proof (init_state_sized _ _ _ _ _ _ _ _ _ _ _ _ Hinit) as Hsized.
  destruct (init_state_Some _ _ _ _ _ _ _ _ _ _ _ _ Hinit) as (skip & m & Htr & -> & ->).
  destruct (truncate_frames_selected _ _ _ _ _ _ _ _ Hwf Hcount Htr)
    as (k & s & _ & Haddrs & Hwf' & Hks & ->).
  simpl in Hsized.
  match type of Hwaits with engine_waits _ _ ?s0 _ _ _ =>
    assert (engine_ready s0) as Hready
  end.
  { split; [done|]. split; [simpl; lia|]. simpl.
    intros p [i Hp]%list_elem_of_lookup. by apply (Hwf' i). }
  destruct (engine_calls_spec _ _ _ _ _ _ _ _ _ _ _ Hready Hwaits Hrun)
    as (new & n & Htrace & Hcalls & Hlen & Hn & _).
  simpl in Hn, Hlen.
  change (cursor_addrs _) with (track_addrs track') in Hcalls, Hlen.
  assert (new = new_r ++ new_w) as Hnew.
  { apply (app_inv_tail (w_trace w0)). by rewrite <- Htrace, Htr_r, Htr_w, app_assoc. }
  assert (uint32 (Z.of_nat s - Z.of_nat k + 1) = Z.of_nat s - Z.of_nat k + 1) as Heq.
  { unfold uint32. apply Z.mod_small. lia. }
  rewrite Heq in Hsized. unfold thumb_grabber_get_max_frame_size in Hsized.
  rewrite max_frame_size_loop_spec in Hsized; cycle 1.
  { intros p [i Hp]%list_elem_of_lookup. by apply (Hwf' i). }
  { change (seq _ _ ++ chain_addrs (frames_next track')) with (track_addrs track').
    rewrite Haddrs, length_drop. fold (frame_count track). lia. }
  change (seq _ _ ++ chain_addrs (frames_next track')) with (track_addrs track')
    in Hsized.
  injection Hsized as Hsized.
  assert (∀ a, a ∈ decoded_frames new → size (fmem a) ≤ m) as Hfits.
  { intros a Ha. rewrite <- Hsized.
    apply (expect_calls_frames) in Hcalls.
    rewrite fmap_rev, decode_calls_frames in Hcalls.
    apply list_elem_of_In, in_rev, list_elem_of_In in Ha. rewrite Hcalls in Ha.
    apply list_elem_of_lookup in Ha as [j Hj].
    pose proof (lookup_lt_Some _ _ _ Hj) as Hjn. rewrite length_take in Hjn.
    rewrite lookup_take_lt in Hj by lia.
    apply (max_size_upper fmem _ 0 j). rewrite lookup_take_lt by lia. done. }
  assert (∀ sz ok, EvAlloc sz ok ∈ new → sz = uint32 (m + Z.of_nat pad)) as Hallocs.
  { intros sz ok He. rewrite Hnew in He.
    assert (Forall (allocates (uint32 (m + Z.of_nat pad))) (new_r ++ new_w)) as Hall
      by (apply Forall_app; split; done).
    by apply (proj1 (Forall_forall _ _) Hall _ He). }
  exists new. simpl in *. split; [done|]. split; [congruence|]. split; [done|].
  split; [done|]. intros Hfit a sz ok Ha He.
  rewrite (Hallocs _ _ He). unfold uint32. rewrite Z.mod_small.
  - specialize (Hfits _ Ha). lia.
  - pose proof (max_size_lower fmem
                  (take (Z.to_nat (Z.of_nat s - Z.of_nat k + 1)) (track_addrs track')) 0).
    lia.
Qed.

(** ** The order of the calls of [thumb_grabber_init_state] *)

(** In [tr], earliest call first, no codec context or picture holder is
    asked for before the cleanup handler is registered; [registered]
    tells whether it is on entry. *)
Fixpoint cleanup_first (registered : bool) (tr : list event) : Prop :=
  match tr with
  | [] => True
  | EvCleanupAdd true :: tr' => cleanup_first true tr'
  | (EvAllocContext _ | EvCodecOpen _ | EvFrameAlloc _) :: tr' =>
    registered = true ∧ cleanup_first registered tr'
  | _ :: tr' => cleanup_first registered tr'
  end.

(** X13: [thumb_grabber_init_state] asks libavcodec for nothing before the
    cleanup handler that frees it is registered, so whatever fails later
    is freed with the pool; and it calls neither the byte source, the
    decoder, the encoder nor the callback. *)
Theorem init_state_registers_cleanup_first
    fmem decoder_codec fuel index0 key_index0 track requested_time w
    rc track' result w' :
  thumb_grabber_init_state fmem decoder_codec fuel index0 key_index0 track
    requested_time w = Returned (rc, track', result, w') →
  ∃ new,
    w_trace w' = new ++ w_trace w ∧ cleanup_first false (rev new) ∧
    Forall (λ e, match e with
                 | EvAlloc _ _ | EvCleanupAdd _ | EvAllocContext _
                 | EvCodecOpen _ | EvFrameAlloc _ => True
                 | _ => False
                 end) new.
Proof.
  unfold thumb_grabber_init_state.
  destruct (negb (decoder_codec (codec_id track))).
  { intros [= <- <- <- <-]. by exists []. }
  destruct (thumb_grabber_truncate_frames _ _ _ _ _ _) as [[[rc1 track1] skip1]| |];
    [|done|done].
  case_bool_decide as Hrc.
  { intros [= <- <- <- <-]. by exists []. }
  destruct skip1 as [skip|]; [|done].
  unfold call_alloc. destruct (w_alloc w) as [|a allocs]; [done|].
  destruct a as [garbage|]; simpl; cycle 1.
  { intros [= <- <- <- <-]. eexists [_]. repeat split; repeat constructor. }
  unfold call_cleanup_add. simpl. destruct (w_cleanup w) as [|ok cleanups]; [done|].
  destruct ok; simpl; cycle 1.
  { intros [= <- <- <- <-]. eexists [_; _]. repeat split; repeat constructor. }
  unfold thumb_grabber_init_codec at 1, call_av_alloc. simpl.
  destruct (w_av_alloc w) as [|ok1 avs]; [done|].
  destruct ok1; simpl; cycle 1.
  { intros [= <- <- <- <-]. eexists [_; _; _]. repeat split; repeat constructor. }
  unfold call_av_open. simpl. destruct (w_av_open w) as [|avrc1 opens]; [done|].
  simpl. case_bool_decide as Hrc1.
  { intros [= <- <- <- <-]. eexists [_; _; _; _]. repeat split; repeat constructor. }
  unfold thumb_grabber_init_codec, call_av_alloc. simpl.
  destruct avs as [|ok2 avs]; [done|].
  destruct ok2; simpl; cycle 1.
  { intros [= <- <- <- <-]. eexists [_; _; _; _; _]. repeat split; repeat constructor. }
  unfold call_av_open. simpl. destruct opens as [|avrc2 opens]; [done|].
  simpl. case_bool_decide as Hrc2.
  { intros [= <- <- <- <-]. eexists [_; _; _; _; _; _].
    repeat split; repeat constructor. }
  destruct avs as [|ok3 avs]; [done|].
  destruct ok3; simpl; cycle 1.
  { intros [= <- <- <- <-]. eexists [_; _; _; _; _; _; _].
    repeat split; repeat constructor. }
  destruct (thumb_grabber_get_max_frame_size _ _ _); [|done|done].
  intros [= <- <- <- <-]. eexists [_; _; _; _; _; _; _].
  repeat split; repeat constructor.
Qed.

(** X14: The caller gets a state exactly when the status is VOD_OK; and once
    the codec gate is passed the track is left as the selection left it,
    also when a later step fails: the truncation is not undone. *)
Theorem init_state_result_iff_ok
    fmem decoder_codec fuel index0 key_index0 track requested_time w
    rc track' result w' :
  thumb_grabber_init_state fmem decoder_codec fuel index0 key_index0 track
    requested_time w = Returned (rc, track', result, w') →
  (is_Some result ↔ rc = VOD_OK) ∧
  if decoder_codec (codec_id track)
  then ∃ rc1 skip1,
         thumb_grabber_truncate_frames fuel index0 key_index0 fmem track requested_time
         = Returned (rc1, track', skip1) ∧
         (rc1 ≠ VOD_OK → rc = rc1 ∧ w' = w)
  else rc = VOD_BAD_REQUEST ∧ track' = track ∧ w' = w.
Proof.
  unfold thumb_grabber_init_state.
  destruct (decoder_codec (codec_id track)); simpl; cycle 1.
  { intros [= <- <- <- <-]. split; [|done]. split; [by intros [? ?]|done]. }
  destruct (thumb_grabber_truncate_frames _ _ _ _ _ _) as [[[rc1 track1] skip1]| |];
    [|done|done].
  case_bool_decide as Hrc.
  { intros [= <- <- <- <-]. split; [split; [by intros [? ?]|done]|]. by exists rc1, skip1. }
  destruct skip1 as [skip|]; [|done].
  assert (∀ rc2 w2, rc2 ≠ VOD_OK →
            Returned (rc2, track1, @None thumb_grabber_state_t, w2)
            = Returned (rc, track', result, w') →
            (is_Some result ↔ rc = VOD_OK) ∧
            ∃ rc0 skip0, Returned (rc1, track1, Some skip)
                         = Returned (rc0, track', skip0) ∧
                         (rc0 ≠ VOD_OK → rc = rc0 ∧ w' = w)) as Hfail.
  { intros rc2 w2 Hrc2 [= <- <- <- <-]. split; [split; [by intros [? ?]|done]|].
    by exists rc1, (Some skip). }
  unfold call_alloc. destruct (w_alloc w) as [|a allocs]; [done|].
  destruct a as [garbage|]; simpl; [|by apply Hfail].
  unfold call_cleanup_add. simpl. destruct (w_cleanup w) as [|ok cleanups]; [done|].
  destruct ok; simpl; [|by apply Hfail].
  unfold thumb_grabber_init_codec at 1, call_av_alloc. simpl.
  destruct (w_av_alloc w) as [|ok1 avs]; [done|].
  destruct ok1; simpl; [|by apply Hfail].
  unfold call_av_open. simpl. destruct (w_av_open w) as [|avrc1 opens]; [done|].
  simpl. case_bool_decide as Hrc1; [by apply Hfail|].
  unfold thumb_grabber_init_codec, call_av_alloc. simpl.
  destruct avs as [|ok2 avs]; [done|].
  destruct ok2; simpl; [|by apply Hfail].
  unfold call_av_open. simpl. destruct opens as [|avrc2 opens]; [done|].
  simpl. case_bool_decide as Hrc2; [by apply Hfail|].
  destruct avs as [|ok3 avs]; [done|].
  destruct ok3; simpl; [|by apply Hfail].
  destruct (thumb_grabber_get_max_frame_size _ _ _); [|done|done].
  intros [= <- <- <- <-]. split; [by split|].
  by exists rc1, (Some skip).
Qed.

(** ** What [thumb_grabber_process_init] registers *)

Lemma process_init_loop_spec find_decoder mappings : ∀ table,
  Forall (λ m, (m_codec_id m < length table)%nat) mappings →
  NoDup (m_codec_id <$> mappings) →
  ∃ table',
    process_init_loop find_decoder mappings table = Returned table' ∧
    length table' = length table ∧
    ∀ c, table' !! c
         = match list_find (λ m, m_codec_id m = c) mappings with
           | Some (_, m) =>
             match find_decoder (m_av_codec_id m) with
             | Some d => Some (Some d)
             | None => table !! c
             end
           | None => table !! c
           end.
Proof.
  induction mappings as [|m mappings IH]; intros table Hin Hnd.
  - by exists table.
  - apply Forall_cons in Hin as [Hm Hin]. rewrite fmap_cons in Hnd.
    apply NoDup_cons in Hnd as [Hnotin Hnd]. cbn [process_init_loop].
    assert (∀ c, c ≠ m_codec_id m ∨ list_find (λ m', m_codec_id m' = c) mappings = None)
      as Hfresh.
    { intros c. destruct (decide (c = m_codec_id m)) as [->|]; [right|by left].
      apply list_find_None, Forall_forall. intros m' Hm' Heq.
      apply Hnotin. rewrite <- Heq. by apply list_elem_of_fmap_2. }
    destruct (find_decoder (m_av_codec_id m)) as [d|] eqn:Hd.
    + rewrite decide_True by done.
      destruct (IH (<[m_codec_id m := Some d]> table)) as (table' & -> & Hlen & Hlook).
      { rewrite length_insert. done. }
      { done. }
      exists table'. split; [done|]. split; [by rewrite Hlen, length_insert|].
      intros c. rewrite Hlook. cbn [list_find]. case_decide as Hc.
      * subst c. simpl. rewrite Hd.
        destruct (Hfresh (m_codec_id m)) as [?| ->]; [done|].
        simpl. by rewrite list_lookup_insert_eq.
      * destruct (list_find _ mappings) as [[i m']|] eqn:Hfind; simpl.
        -- destruct (find_decoder (m_av_codec_id m')); [done|].
           by rewrite list_lookup_insert_ne.
        -- by rewrite list_lookup_insert_ne.
    + destruct (IH table Hin Hnd) as (table' & -> & Hlen & Hlook).
      exists table'. split; [done|]. split; [done|].
      intros c. rewrite Hlook. cbn [list_find]. case_decide as Hc.
      * subst c. simpl. rewrite Hd.
        by destruct (Hfresh (m_codec_id m)) as [?| ->].
      * by destruct (list_find _ mappings) as [[i m']|].
Qed.

(** X15: Without the JPEG encoder nothing is registered, whatever decoders
    libavcodec has: the table of decoders stays cleared, and setting up a
    request then fails with VOD_BAD_REQUEST for every track whose codec
    id is within the table, before the selection and without a call. *)
Theorem capture_disabled_without_jpeg_encoder
    avc hevc vp8 vp9 count find_encoder find_decoder :
  find_encoder AV_CODEC_ID_MJPEG = None →
  ∃ g,
    thumb_grabber_process_init avc hevc vp8 vp9 count find_encoder find_decoder
    = Returned g ∧
    g_encoder_codec g = None ∧
    g_decoder_codec g = replicate count None ∧
    ∀ fmem fuel index0 key_index0 track requested_time w,
      (codec_id track < count)%nat →
      thumb_grabber_init_state fmem (has_decoder g) fuel index0 key_index0 track
        requested_time w
      = Returned (VOD_BAD_REQUEST, track, None, w).
Proof.
  intros Henc. unfold thumb_grabber_process_init. rewrite Henc.
  eexists. split; [done|]. split; [done|]. split; [done|].
  intros fmem fuel index0 key_index0 track requested_time w _.
  apply init_state_gate. unfold has_decoder. simpl.
  destruct (replicate count None !! codec_id track) as [[d|]|] eqn:Hl; [|done|done].
  by apply lookup_replicate in Hl as [? _].
Qed.

(** X16: With the JPEG encoder, and the four codec ids of the module distinct
    and within the table, a codec id has a decoder exactly when it is one
    of the four and libavcodec has a decoder for the codec mapped to it;
    a track of any other codec id within the table is refused with
    VOD_BAD_REQUEST. *)
Theorem decoder_registered_iff_mapped_and_found
    avc hevc vp8 vp9 count find_encoder find_decoder encoder :
  find_encoder AV_CODEC_ID_MJPEG = Some encoder →
  NoDup [avc; hevc; vp8; vp9] →
  Forall (λ c, (c < count)%nat) [avc; hevc; vp8; vp9] →
  ∃ g,
    thumb_grabber_process_init avc hevc vp8 vp9 count find_encoder find_decoder
    = Returned g ∧
    g_encoder_codec g = Some encoder ∧
    length (g_decoder_codec g) = count ∧
    (∀ c d, g_decoder_codec g !! c = Some (Some d)
            ↔ ∃ m, m ∈ codec_mappings avc hevc vp8 vp9 ∧ m_codec_id m = c ∧
                   find_decoder (m_av_codec_id m) = Some d) ∧
    ∀ fmem fuel index0 key_index0 track requested_time w,
      (codec_id track < count)%nat → codec_id track ∉ [avc; hevc; vp8; vp9] →
      thumb_grabber_init_state fmem (has_decoder g) fuel index0 key_index0 track
        requested_time w
      = Returned (VOD_BAD_REQUEST, track, None, w).
Proof.
  intros Henc Hnd Hin. unfold thumb_grabber_process_init. rewrite Henc.
  destruct (process_init_loop_spec find_decoder (codec_mappings avc hevc vp8 vp9)
              (replicate count None)) as (table & -> & Hlen & Hlook).
  { rewrite length_replicate. unfold codec_mappings.
    repeat (apply Forall_cons in Hin as [? Hin]). by repeat constructor. }
  { done. }
  rewrite length_replicate in Hlen.
  assert (∀ c d, table !! c = Some (Some d)
                 ↔ ∃ m, m ∈ codec_mappings avc hevc vp8 vp9 ∧ m_codec_id m = c ∧
                        find_decoder (m_av_codec_id m) = Some d) as Hreg.
  { intros c d. rewrite Hlook. split.
    - destruct (list_find _ _) as [[i m]|] eqn:Hfind.
      + apply list_find_Some in Hfind as (Hi & Hc & _).
        destruct (find_decoder (m_av_codec_id m)) as [d'|] eqn:Hd.
        * intros [= ->]. exists m. split; [by eapply list_elem_of_lookup_2|done].
        * by intros [[=] ?]%lookup_replicate.
      + by intros [[=] ?]%lookup_replicate.
    - intros (m & Hm & Hc & Hd).
      destruct (list_find (λ m', m_codec_id m' = c) (codec_mappings avc hevc vp8 vp9))
        as [[i m']|] eqn:Hfind.
      + apply list_find_Some in Hfind as (Hi & Hc' & _).
        assert (m' = m) as ->; [|by rewrite Hd].
        apply list_elem_of_lookup in Hm as [j Hj].
        assert (i = j) as ->; [|congruence].
        assert (NoDup (m_codec_id <$> codec_mappings avc hevc vp8 vp9)) as Hnd'
          by done.
        apply (NoDup_lookup _ i j c Hnd'); rewrite list_lookup_fmap.
        * by rewrite Hi, <- Hc'.
        * by rewrite Hj, <- Hc.
      + exfalso. apply list_find_None in Hfind.
        rewrite Forall_forall in Hfind. by apply (Hfind m Hm). }
  eexists. split; [done|]. split; [done|]. split; [done|]. split; [done|].
  intros fmem fuel index0 key_index0 track requested_time w _ Hcodec.
  apply init_state_gate. unfold has_decoder. simpl.
  destruct (table !! codec_id track) as [[d|]|] eqn:Hl; [|done|done].
  apply Hreg in Hl as (m & Hm & Hc & _). exfalso. apply Hcodec. rewrite <- Hc.
  change [avc; hevc; vp8; vp9] with (m_codec_id <$> codec_mappings avc hevc vp8 vp9).
  by apply list_elem_of_fmap_2.
Qed.

(** ** The further properties at work on concrete inputs *)

Lemma pair_setup :
  thumb_grabber_init_state Pair.mem2 Pair.decoders 5 0 0 Pair.track 10 Pair.world_init
  = Returned (VOD_OK, Pair.track, Some Pair.state0, Pair.w0).
Proof. vm_compute. reflexivity. Qed.

Lemma pair_waits :
  engine_waits Pair.pad Pair.mem2 Pair.state0 Pair.w0 Pair.waiting.1 Pair.waiting.2.
Proof.
  eapply (waits_more _ _ _ _ Pair.reads1); [vm_compute; reflexivity|exact I|].
  apply waits_done.
Defined.

Lemma pair_ready : engine_ready Pair.state0.
Proof.
  split; [reflexivity|]. split; [vm_compute; discriminate|].
  intros p Hp. by apply elem_of_nil in Hp.
Defined.

Lemma pair_linked_nonempty : linked_parts_nonempty (track_chain Pair.track).
Proof. apply single_part_linked_nonempty. Defined.

Lemma pair_finishes :
  ∃ state' w',
    thumb_grabber_process Pair.pad Pair.mem2 Pair.waiting.1 Pair.waiting.2 Pair.reads2
    = Returned (VOD_OK, state', w', []).
Proof. eexists _, _. vm_compute. reflexivity. Defined.

(** X4, on the request over two frames, at the invocation that delivers. *)
Lemma engine_decodes_in_index_order_witness :
  ∃ state' w' new n,
    thumb_grabber_process Pair.pad Pair.mem2 Pair.waiting.1 Pair.waiting.2 Pair.reads2
    = Returned (VOD_OK, state', w', []) ∧
    w_trace w' = new ++ w_trace Pair.w0 ∧
    rev (decoded_frames new) = take n (cursor_addrs Pair.state0) ∧
    (n ≤ length (cursor_addrs Pair.state0))%nat ∧
    Z.of_nat n ≤ skip_count Pair.state0 + 1 ∧
    (VOD_OK = VOD_OK → Z.of_nat n = skip_count Pair.state0 + 1).
Proof.
  destruct pair_finishes as (state' & w' & Hrun).
  destruct (engine_decodes_in_index_order _ _ _ _ _ _ _ _ _ _ _
              pair_ready pair_waits Hrun) as (new & n & H).
  exists state', w', new, n. exact (conj Hrun H).
Defined.

(** X2, on the index of parts A and B (five frames) and a limit of six. *)
Lemma max_frame_size_limit_past_end_witness :
  (thumb_grabber_get_max_frame_size Scenario.mem5 Scenario.track_ab 6 = Fault
   ↔ Z.of_nat (frame_count Scenario.track_ab) < 6) ∧
  (6 ≤ Z.of_nat (frame_count Scenario.track_ab) →
   thumb_grabber_get_max_frame_size Scenario.mem5 Scenario.track_ab 6
   = Returned (max_size Scenario.mem5
                 (take (Z.to_nat 6) (track_addrs Scenario.track_ab)) 0)).
Proof.
  apply (max_frame_size_limit_past_end Scenario.mem5 Scenario.track_ab 6).
  intros i p Hp. destruct i as [|i]; [|destruct i; discriminate Hp].
  injection Hp as <-. simpl. lia.
Defined.

(** X3, on the five frames of the first scenario, asked for the time of the third. *)
Lemma frame_time_selects_frame_witness :
  ∃ track' k,
    thumb_grabber_truncate_frames 6 0 0 Scenario.mem5 Scenario.track5 20
    = Returned (VOD_OK, track', Some (Z.of_nat 2 - Z.of_nat k)) ∧
    track_addrs track' = drop k (track_addrs Scenario.track5) ∧
    (k ≤ 2)%nat ∧ key_frame (track_frame Scenario.mem5 Scenario.track5 k) = true ∧
    ∀ i, (k < i ≤ 2)%nat →
         key_frame (track_frame Scenario.mem5 Scenario.track5 i) = false.
Proof.
  apply (frame_time_selects_frame 6 0 0 Scenario.mem5 Scenario.track5 20 2).
  - split; [simpl; lia|apply single_part_linked_nonempty].
  - split; [|split].
    + vm_compute. discriminate.
    + intros j _. simpl. lia.
    + vm_compute. discriminate.
  - split; vm_compute; discriminate.
  - vm_compute. reflexivity.
  - vm_compute. lia.
  - split; [vm_compute; lia|]. exists 0%nat. split; [lia|reflexivity].
  - vm_compute. reflexivity.
  - intros i _ Hi. destruct i as [|[|i]]; [vm_compute; discriminate..|lia].
Defined.



(** X11, on the setup of the request over two frames. *)
Lemma init_state_stays_in_index_witness :
  thumb_grabber_init_state Pair.mem2 Pair.decoders 5 0 0 Pair.track 10 Pair.world_init
  ≠ Fault.
Proof.
  apply init_state_stays_in_index; [apply pair_linked_nonempty|vm_compute; lia].
Defined.

(** X12, on the request over two frames, the second of which arrives in
    two chunks. *)
Lemma decoded_frames_fit_max_frame_size_witness :
  ∃ state' w' new,
    thumb_grabber_process Pair.pad Pair.mem2 Pair.waiting.1 Pair.waiting.2 Pair.reads2
    = Returned (VOD_OK, state', w', []) ∧
    w_trace w' = new ++ w_trace Pair.w0 ∧
    max_frame_size state' = max_frame_size Pair.state0 ∧
    (∀ a, a ∈ decoded_frames new → size (Pair.mem2 a) ≤ max_frame_size Pair.state0) ∧
    (∀ sz ok, EvAlloc sz ok ∈ new →
       sz = uint32 (max_frame_size Pair.state0 + Z.of_nat Pair.pad)) ∧
    (∀ a sz ok, a ∈ decoded_frames new → EvAlloc sz ok ∈ new →
       size (Pair.mem2 a) + Z.of_nat Pair.pad ≤ sz).
Proof.
  destruct pair_finishes as (state' & w' & Hrun).
  assert (Z.of_nat (frame_count Pair.track) < 2 ^ 32) as Hcount
    by (vm_compute; reflexivity).
  assert (max_frame_size Pair.state0 + Z.of_nat Pair.pad < 2 ^ 32) as Hfit
    by (vm_compute; reflexivity).
  destruct (decoded_frames_fit_max_frame_size _ _ _ _ _ _ _ _ _ _ _ _ _ _ _ _ _ _ _ _
              pair_linked_nonempty Hcount pair_setup pair_waits Hrun)
    as (new & Htr & Hm & Hfits & Hallocs & Hroom).
  exists state', w', new.
  exact (conj Hrun (conj Htr (conj Hm (conj Hfits (conj Hallocs (Hroom Hfit)))))).
Defined.

(** X13, on the setup of the request over two frames. *)
Lemma init_state_registers_cleanup_first_witness :
  ∃ new,
    w_trace Pair.w0 = new ++ w_trace Pair.world_init ∧
    cleanup_first false (rev new) ∧
    Forall (λ e, match e with
                 | EvAlloc _ _ | EvCleanupAdd _ | EvAllocContext _
                 | EvCodecOpen _ | EvFrameAlloc _ => True
                 | _ => False
                 end) new.
Proof. exact (init_state_registers_cleanup_first _ _ _ _ _ _ _ _ _ _ _ _ pair_setup). Defined.

(** X14, on the setup of the request over two frames. *)
Lemma init_state_result_iff_ok_witness :
  (is_Some (Some Pair.state0) ↔ VOD_OK = VOD_OK) ∧
  if Pair.decoders (codec_id Pair.track)
  then ∃ rc1 skip1,
         thumb_grabber_truncate_frames 5 0 0 Pair.mem2 Pair.track 10
         = Returned (rc1, Pair.track, skip1) ∧
         (rc1 ≠ VOD_OK → VOD_OK = rc1 ∧ Pair.w0 = Pair.world_init)
  else VOD_OK = VOD_BAD_REQUEST ∧ Pair.track = Pair.track ∧ Pair.w0 = Pair.world_init.
Proof. exact (init_state_result_iff_ok _ _ _ _ _ _ _ _ _ _ _ _ pair_setup). Defined.

(** X15, with codec ids 1 to 4 in a table of five and a decoder for every codec. *)
Lemma capture_disabled_without_jpeg_encoder_witness :
  ∃ g,
    thumb_grabber_process_init 1 2 3 4 5 (λ _, None) (λ _, Some 1%nat) = Returned g ∧
    g_encoder_codec g = None ∧
    g_decoder_codec g = replicate 5 None ∧
    ∀ fmem fuel index0 key_index0 track requested_time w,
      (codec_id track < 5)%nat →
      thumb_grabber_init_state fmem (has_decoder g) fuel index0 key_index0 track
        requested_time w
      = Returned (VOD_BAD_REQUEST, track, None, w).
Proof.
  apply (capture_disabled_without_jpeg_encoder 1 2 3 4 5 (λ _, None) (λ _, Some 1%nat)).
  reflexivity.
Defined.

(** X16, with codec ids 1 to 4 in a table of five and a decoder for H.264 only. *)
Lemma decoder_registered_iff_mapped_and_found_witness :
  ∃ g,
    thumb_grabber_process_init 1 2 3 4 5 (λ _, Some 9%nat)
      (λ c, match c with AV_CODEC_ID_H264 => Some 1%nat | _ => None end)
    = Returned g ∧
    g_encoder_codec g = Some 9%nat ∧
    length (g_decoder_codec g) = 5%nat ∧
    g_decoder_codec g !! 1%nat = Some (Some 1%nat) ∧
    g_decoder_codec g !! 2%nat ≠ Some (Some 1%nat).
Proof.
  destruct (decoder_registered_iff_mapped_and_found 1 2 3 4 5 (λ _, Some 9%nat)
              (λ c, match c with AV_CODEC_ID_H264 => Some 1%nat | _ => None end) 9)
    as (g & Hrun & Henc & Hlen & Hreg & _).
  - reflexivity.
  - repeat (apply NoDup_cons_2; [rewrite ?elem_of_cons, elem_of_nil; lia|]).
    apply NoDup_nil_2.
  - repeat constructor.
  - exists g. split; [exact Hrun|]. split; [exact Henc|]. split; [exact Hlen|].
    injection Hrun as <-. split; [reflexivity|discriminate].
Defined.

(** X9, on a decoder that owes its picture. *)
Lemma decode_margin_round_trip_witness :
  ∃ state' w' m_call,
    thumb_grabber_decode_frame Tiny.pad Tiny.mem3 Tiny.started (0%nat, 0%nat)
      Tiny.world_late
    = Returned (VOD_OK, state', w') ∧
    w_mem w' = w_mem Tiny.world_late ∧
    mem_load m_call (frame_end Tiny.mem3 Tiny.started (0%nat, 0%nat)) Tiny.pad
    = Some (replicate Tiny.pad x00).
Proof.
  destruct (decode_margin_round_trip Tiny.pad Tiny.mem3 Tiny.started 0 0 Tiny.world_late
              0 false [] [xaa; xbb])
    as (state' & w' & m_call & Hrun & Hmem & _ & Hzero & _).
  - reflexivity.
  - vm_compute. discriminate.
  - reflexivity.
  - exists state', w', m_call. exact (conj Hrun (conj Hmem Hzero)).
Defined.

(** X10, on the frame delivered in one read, in a buffer of five bytes. *)
Lemma complete_read_needs_margin_witness :
  process_read Tiny.pad Tiny.mem3 false Tiny.started Tiny.world_ok Tiny.whole = Fault
  ↔ (length (r_buffer Tiny.whole)
     < Z.to_nat (size (Tiny.mem3 (cur_frame Tiny.started))) + Tiny.pad)%nat.
Proof.
  apply (complete_read_needs_margin Tiny.pad Tiny.mem3 false Tiny.started Tiny.world_ok
           Tiny.whole); reflexivity.
Defined.

(** X8, on the frame 01 02 03 delivered as 01, then VOD_AGAIN, then 02 03. *)
Lemma reassembly_survives_suspension_witness :
  ∃ state1 w1 state_n w_n state_d buffer w_d,
    thumb_grabber_process Tiny.pad Tiny.mem3 Tiny.started Tiny.world_ok
      ([Tiny.part1] ++ [Tiny.again])
    = Returned (VOD_AGAIN, state1, w1, []) ∧
    loop_continues Tiny.pad Tiny.mem3 false state1 w1 [] state_n w_n ∧
    process_start_frame state_n w_n = Returned (None, state_n, w_n) ∧
    decode_input state_n w_n Tiny.part2 = Returned (state_d, buffer, w_d) ∧
    thumb_grabber_process Tiny.pad Tiny.mem3 state1 w1 ([] ++ Tiny.part2 :: [])
    = after_process_decode Tiny.pad Tiny.mem3 []
        (process_decode Tiny.pad Tiny.mem3 state_d buffer w_d) ∧
    mem_load (w_mem w_d) buffer
      (length (bytes_of [Tiny.part1] ++ bytes_of [] ++ chunk_of Tiny.part2))
    = Some (bytes_of [Tiny.part1] ++ bytes_of [] ++ chunk_of Tiny.part2) ∧
    cur_frame_pos state_d = 0 ∧ cur_frame state_d = cur_frame Tiny.started.
Proof.
  assert (delivers false Tiny.part1) as H1.
  { split; [reflexivity|]. split; [reflexivity|]. split; [simpl; lia|simpl; lia]. }
  assert (delivers true Tiny.part2) as H2.
  { split; [reflexivity|]. split; [reflexivity|]. split; [simpl; lia|simpl; lia]. }
  destruct (reassembly_survives_suspension Tiny.pad Tiny.mem3 Tiny.started Tiny.world_ok
              Tiny.started Tiny.world_ok [Tiny.part1] Tiny.again [] Tiny.part2 [])
    as (state1 & w1 & state_n & w_n & state_d & buffer & w_d
        & Hrun1 & Hgo & Hstart & Hin & Hrun2 & Hload & Hpos & Hcur & _).
  - reflexivity.
  - reflexivity.
  - reflexivity.
  - discriminate.
  - by constructor.
  - reflexivity.
  - constructor.
  - exact H2.
  - vm_compute. discriminate.
  - vm_compute. reflexivity.
  - vm_compute. discriminate.
  - intros _. by exists [], [].
  - exists state1, w1, state_n, w_n, state_d, buffer, w_d.
    exact (conj Hrun1 (conj Hgo (conj Hstart (conj Hin (conj Hrun2
             (conj Hload (conj Hpos Hcur))))))).
Defined.

